(** * bump-workspaces: commit classification, aggregation and version reconciliation

    A shallow embedding of the decision logic of [util.ts] and of the log
    reader, the collecting loop and the update loop of [mod.ts], followed by
    the properties proved about it.

    Conventions of the embedding.
    - A JavaScript string is a [string]: a sequence of 8-bit code units (the
      Latin-1 range of UTF-16 code units).  [String.compare] is then the
      code-unit order used by JavaScript's [<] on strings.
    - A thrown exception is a value of [exn]; a function that can throw
      returns [result A].
    - Console output, file writes and the rewritten import-map text returned
      first by [applyVersionBump] are effects on the side of the decision
      logic and are not part of the model.  The regular expression that
      rewrites that text is built from the name of the module, and building
      it can throw: that exception is part of the model.
    - [RegExp] belongs to the host and not to the sources: the functions
      that call its constructor on a computed source take the constructor as
      their first argument. *)

From Stdlib Require Import Strings.Ascii Numbers.DecimalString.
From Stdlib Require Numbers.DecimalPos.
From stdpp Require Import base list sorting strings.

(** ** Strings *)

Module JsString.

Fixpoint all (p : ascii -> bool) (s : string) : bool :=
  match s with
  | EmptyString => true
  | String c s' => p c && all p s'
  end.

Fixpoint drop (n : nat) (s : string) : string :=
  match n, s with
  | S n', String _ s' => drop n' s'
  | _, _ => s
  end.

(** [s.endsWith(t)]: the last [length t] code units of [s] are [t]. *)
Definition endsWith (s t : string) : bool :=
  if decide (String.length t <= String.length s)
  then bool_decide (drop (String.length s - String.length t) s = t)
  else false.

(** [xs.join(sep)] *)
Fixpoint join (sep : string) (xs : list string) : string :=
  match xs with
  | [] => EmptyString
  | [x] => x
  | x :: rest => x +:+ sep +:+ join sep rest
  end.

(** [xs.includes(s)] on an array of strings. *)
Definition includes (xs : list string) (s : string) : bool :=
  bool_decide (s ∈ xs).

(** [xs.indexOf(s)]: first index, or -1. *)
Fixpoint indexOf_from (i : Z) (xs : list string) (s : string) : Z :=
  match xs with
  | [] => (-1)%Z
  | x :: rest => if decide (x = s) then i else indexOf_from (i + 1)%Z rest s
  end.
Definition indexOf (xs : list string) (s : string) : Z := indexOf_from 0%Z xs s.

(** JavaScript's [<] on strings. *)
Definition lt (s t : string) : Prop := String.compare s t = Lt.

Definition isDigit (c : ascii) : bool :=
  (48 <=? N_of_ascii c)%N && (N_of_ascii c <=? 57)%N.

(** White space and line terminators, as matched by [\s] and removed by
    [trim], among the code units below 256. *)
Definition isSpace (c : ascii) : bool :=
  bool_decide (N_of_ascii c ∈ [9; 10; 11; 12; 13; 32; 160]%N).

(** Line terminators below 256, which [.] does not match. *)
Definition isLineTerminator (c : ascii) : bool :=
  bool_decide (N_of_ascii c ∈ [10; 13]%N).

End JsString.

(** ** Regular expressions

    A backtracking matcher for the fragment of JavaScript regular expressions
    that the program uses: character classes, greedy [*] and [+] over a
    class, sequencing, a greedy optional group, capturing groups and the end
    anchor.  A continuation receives the text matched so far by the node, the
    rest of the input and the captures; returning [None] makes the matcher
    backtrack into the latest greedy choice. *)

Module Regex.

Inductive regex : Type :=
| Chr (p : ascii -> bool)          (* one code unit of a class, or a literal *)
| Star (p : ascii -> bool)         (* [p*], greedy *)
| Plus (p : ascii -> bool)         (* [p+], greedy *)
| Seq (r1 r2 : regex)
| Opt (r : regex)                  (* [(?:r)?], greedy *)
| Group (n : nat) (r : regex)      (* capturing group number [n] *)
| Eos.                             (* [$] without the multiline flag *)

Definition captures : Type := list (nat * string).

Section matcher.
Context {X : Type}.

Fixpoint star (p : ascii -> bool) (s : string)
    (k : string -> string -> option X) : option X :=
  match s with
  | String c s' =>
      if p c then
        match star p s' (fun m r => k (String c m) r) with
        | Some x => Some x
        | None => k EmptyString s
        end
      else k EmptyString s
  | EmptyString => k EmptyString EmptyString
  end.

Fixpoint run (r : regex) (s : string) (cs : captures)
    (k : string -> string -> captures -> option X) : option X :=
  match r with
  | Chr p =>
      match s with
      | String c s' => if p c then k (String c EmptyString) s' cs else None
      | EmptyString => None
      end
  | Star p => star p s (fun m r => k m r cs)
  | Plus p =>
      match s with
      | String c s' =>
          if p c then star p s' (fun m r => k (String c m) r cs) else None
      | EmptyString => None
      end
  | Seq r1 r2 =>
      run r1 s cs (fun m1 s1 cs1 =>
        run r2 s1 cs1 (fun m2 s2 cs2 => k (m1 +:+ m2) s2 cs2))
  | Opt r' =>
      match run r' s cs k with
      | Some x => Some x
      | None => k EmptyString s cs
      end
  | Group n r' => run r' s cs (fun m s' cs' => k m s' ((n, m) :: cs'))
  | Eos =>
      match s with
      | EmptyString => k EmptyString EmptyString cs
      | String _ _ => None
      end
  end.
End matcher.

(** What a pattern can match, without the order in which the matcher tries
    the alternatives: [Match r s cs m s' cs'] when [r] matches the prefix
    [m] of [s], leaves [s'] and turns the captures [cs] into [cs']. *)
Inductive Match : regex -> string -> captures -> string -> string -> captures -> Prop :=
| Match_Chr p c s cs :
    p c = true -> Match (Chr p) (String c s) cs (String c EmptyString) s cs
| Match_Star p m s cs :
    JsString.all p m = true -> Match (Star p) (m +:+ s) cs m s cs
| Match_Plus p m s cs :
    m <> EmptyString -> JsString.all p m = true -> Match (Plus p) (m +:+ s) cs m s cs
| Match_Seq r1 r2 s cs m1 s1 cs1 m2 s2 cs2 :
    Match r1 s cs m1 s1 cs1 -> Match r2 s1 cs1 m2 s2 cs2 ->
    Match (Seq r1 r2) s cs (m1 +:+ m2) s2 cs2
| Match_Opt_taken r s cs m s' cs' :
    Match r s cs m s' cs' -> Match (Opt r) s cs m s' cs'
| Match_Opt_skipped r s cs :
    Match (Opt r) s cs EmptyString s cs
| Match_Group n r s cs m s' cs' :
    Match r s cs m s' cs' -> Match (Group n r) s cs m s' ((n, m) :: cs')
| Match_Eos cs :
    Match Eos EmptyString cs EmptyString EmptyString cs.

(** The subjects that a pattern starting with [^] recognises. *)
Definition Recognises (re : regex) (s : string) : Prop :=
  exists m s' cs, Match re s [] m s' cs.

(** [re.exec(s)] for a pattern without flags that starts with [^]: a match
    is attempted at index 0 only.  Group 0 is the whole match. *)
Definition exec (re : regex) (s : string) : option captures :=
  run re s [] (fun m _ cs => Some ((0, m) :: cs)).

Definition test (re : regex) (s : string) : bool :=
  match exec re s with Some _ => true | None => false end.

(** [match[n]]: the text of group [n], or [undefined]. *)
Fixpoint group (n : nat) (cs : captures) : option string :=
  match cs with
  | [] => None
  | (i, m) :: rest => if decide (i = n) then Some m else group n rest
  end.

Definition lit (c : ascii) : regex := Chr (Ascii.eqb c).

Fixpoint text (s : string) : regex :=
  match s with
  | EmptyString => Star (fun _ => false)
  | String c EmptyString => lit c
  | String c s' => Seq (lit c) (text s')
  end.

(** [.] *)
Definition dot : ascii -> bool := fun c => negb (JsString.isLineTerminator c).
(** [\d] *)
Definition digit : ascii -> bool := JsString.isDigit.
(** [\s] *)
Definition space : ascii -> bool := JsString.isSpace.

(** [s.split(sep)] for a separator pattern, following the loop of
    [RegExp.prototype[Symbol.split]]: [pending] is the text since the end of
    the previous separator, [skip] counts the code units of a separator
    matched at an earlier index that are still to be passed. *)
Fixpoint split_from (sep : regex) (skip : nat) (pending s : string) : list string :=
  match s with
  | EmptyString => [pending]
  | String c s' =>
      match skip with
      | S n => split_from sep n pending s'
      | O =>
          match run sep s [] (fun m _ _ => Some m) with
          | Some (String _ m') => pending :: split_from sep (String.length m') EmptyString s'
          | Some EmptyString =>
              match pending with
              | EmptyString => split_from sep 0 (String c EmptyString) s'
              | _ => pending :: split_from sep 0 (String c EmptyString) s'
              end
          | None => split_from sep 0 (pending +:+ String c EmptyString) s'
          end
      end
  end.

Definition split (sep : regex) (s : string) : list string :=
  split_from sep 0 EmptyString s.

End Regex.

Declare Scope regex_scope.
Delimit Scope regex_scope with re.
Bind Scope regex_scope with Regex.regex.
Infix ">>" := Regex.Seq (at level 60, right associativity) : regex_scope.

(** ** Exceptions *)

Inductive exn : Type :=
| TypeError (message : string)
| SyntaxError (message : string)
| Error (message : string).

Inductive result (A : Type) : Type :=
| Ok (a : A)
| Throw (e : exn).
Arguments Ok {A} a.
Arguments Throw {A} e.

Definition bind {A B : Type} (r : result A) (f : A -> result B) : result B :=
  match r with
  | Ok a => f a
  | Throw e => Throw e
  end.

Notation "x <- r ;; k" := (bind r (fun x => k))
  (at level 100, r at next level, right associativity).

(** [export type VersionUpdate = "major" | "minor" | "patch" | "prerelease"] *)
Inductive VersionUpdate : Type := Major | Minor | Patch | Prerelease.

Global Instance VersionUpdate_eq_dec : EqDecision VersionUpdate.
Proof. solve_decision. Defined.

(** ** The semantic-version library

    [util.ts] imports [parse], [format] and [increment] from the package
    [@std/semver], which is not among the sources; this module models them.
    Numbers are natural numbers: the library accepts components up to
    [MAX_SAFE_INTEGER], below which JavaScript's arithmetic on them is
    exact. *)

Module SemVer.

(** A prerelease identifier is a number or a string. *)
Inductive identifier : Type :=
| Num (n : N)
| Id (s : string).

Record t : Type := {
  major : N;
  minor : N;
  patch : N;
  prerelease : list identifier;
  build : list string
}.

Definition MAX_SAFE_INTEGER : N := 9007199254740991%N.
Definition MAX_LENGTH : nat := 256.

Fixpoint digitsValue (acc : N) (s : string) : N :=
  match s with
  | EmptyString => acc
  | String c s' => digitsValue (acc * 10 + (N_of_ascii c - 48))%N s'
  end.

(** [0|[1-9]\d*] *)
Definition isNumericIdentifier (s : string) : bool :=
  match s with
  | EmptyString => false
  | String c EmptyString => JsString.isDigit c
  | String c s' =>
      JsString.isDigit c && negb (Ascii.eqb c "0") && JsString.all JsString.isDigit s'
  end.

(** [[0-9A-Za-z-]] *)
Definition isIdentifierChar (c : ascii) : bool :=
  let n := N_of_ascii c in
  JsString.isDigit c
  || ((65 <=? n)%N && (n <=? 90)%N)
  || ((97 <=? n)%N && (n <=? 122)%N)
  || Ascii.eqb c "-".

(** [0|[1-9]\d*|\d*[a-zA-Z-][a-zA-Z0-9-]*] *)
Definition isPrereleaseIdentifier (s : string) : bool :=
  match s with
  | EmptyString => false
  | _ =>
      JsString.all isIdentifierChar s
      && (negb (JsString.all JsString.isDigit s) || isNumericIdentifier s)
  end.

(** [[0-9A-Za-z-]+] *)
Definition isBuildIdentifier (s : string) : bool :=
  match s with
  | EmptyString => false
  | _ => JsString.all isIdentifierChar s
  end.

(** [s.split(c)] for a separator of one code unit. *)
Fixpoint splitOn (c : ascii) (pending s : string) : list string :=
  match s with
  | EmptyString => [pending]
  | String d s' =>
      if Ascii.eqb d c then pending :: splitOn c EmptyString s'
      else splitOn c (pending +:+ String d EmptyString) s'
  end.

(** The text before the first [c], and the text after it if [c] occurs. *)
Fixpoint cut (c : ascii) (s : string) : string * option string :=
  match s with
  | EmptyString => (EmptyString, None)
  | String d s' =>
      if Ascii.eqb d c then (EmptyString, Some s')
      else let '(a, b) := cut c s' in (String d a, b)
  end.

Fixpoint trimStart (s : string) : string :=
  match s with
  | String c s' => if JsString.isSpace c then trimStart s' else s
  | EmptyString => EmptyString
  end.

Fixpoint trimEnd (s : string) : string :=
  match s with
  | EmptyString => EmptyString
  | String c s' =>
      match trimEnd s' with
      | EmptyString => if JsString.isSpace c then EmptyString else String c EmptyString
      | t => String c t
      end
  end.

Definition trim (s : string) : string := trimEnd (trimStart s).

(** The groups of [^v?MAJOR.MINOR.PATCH(-PRERELEASE)?(+BUILD)?$]. *)
Record groups : Type := {
  g_major : string;
  g_minor : string;
  g_patch : string;
  g_prerelease : option string;
  g_buildmetadata : option string
}.

Definition matchFull (value : string) : option groups :=
  let value := match value with String "v" rest => rest | _ => value end in
  let '(release, buildmetadata) := cut "+" value in
  let '(core, pre) := cut "-" release in
  let preOk :=
    match pre with
    | Some p => forallb isPrereleaseIdentifier (splitOn "." EmptyString p)
    | None => true
    end in
  let buildOk :=
    match buildmetadata with
    | Some b => forallb isBuildIdentifier (splitOn "." EmptyString b)
    | None => true
    end in
  match splitOn "." EmptyString core with
  | [a; b; c] =>
      if isNumericIdentifier a && isNumericIdentifier b && isNumericIdentifier c
         && preOk && buildOk
      then Some {| g_major := a; g_minor := b; g_patch := c;
                   g_prerelease := pre; g_buildmetadata := buildmetadata |}
      else None
  | _ => None
  end.

Definition parseNumber (input errorMessage : string) : result N :=
  let n := digitsValue 0 input in
  if (n <=? MAX_SAFE_INTEGER)%N then Ok n else Throw (TypeError errorMessage).

Definition parsePrerelease (pre : string) : list identifier :=
  map (fun id =>
         if isNumericIdentifier id && (digitsValue 0 id <=? MAX_SAFE_INTEGER)%N
         then Num (digitsValue 0 id) else Id id)
      (filter (fun id => id <> EmptyString) (splitOn "." EmptyString pre)).

Definition parseBuild (b : string) : list string :=
  filter (fun id => id <> EmptyString) (splitOn "." EmptyString b).

(** Modelled from the spec: [parse] of [@std/semver], missing from the
    sources.  A semantic-version string, with white space around it and a
    leading [v] allowed, gives its major, minor and patch numbers, its
    prerelease identifiers (numbers where they are numeric) and its build
    identifiers; any other string raises a [TypeError]. *)
Definition parse (value : string) : result t :=
  if decide (MAX_LENGTH < String.length value)
  then Throw (TypeError "Cannot parse version as version length is too long")
  else
    let value := trim value in
    match matchFull value with
    | None => Throw (TypeError ("Cannot parse version: " +:+ value))
    | Some g =>
        major <- parseNumber (g_major g) "Cannot parse version: invalid major version" ;;
        minor <- parseNumber (g_minor g) "Cannot parse version: invalid minor version" ;;
        patch <- parseNumber (g_patch g) "Cannot parse version: invalid patch version" ;;
        Ok {| major := major; minor := minor; patch := patch;
              prerelease := from_option parsePrerelease [] (g_prerelease g);
              build := from_option parseBuild [] (g_buildmetadata g) |}
    end.

Definition formatNumber (n : N) : string :=
  NilEmpty.string_of_uint (N.to_uint n).

Definition formatIdentifier (i : identifier) : string :=
  match i with
  | Num n => formatNumber n
  | Id s => s
  end.

(** Modelled from the spec: [format] of [@std/semver], missing from the
    sources.  The three numbers joined by dots, then the prerelease
    identifiers after a hyphen and the build identifiers after a plus sign
    where there are any. *)
Definition format (version : t) : string :=
  let primary :=
    formatNumber (major version) +:+ "." +:+ formatNumber (minor version)
      +:+ "." +:+ formatNumber (patch version) in
  let pre := JsString.join "." (map formatIdentifier (prerelease version)) in
  let build := JsString.join "." (build version) in
  let release := JsString.join "-" (filter (fun v => v <> EmptyString) [primary; pre]) in
  JsString.join "+" (filter (fun v => v <> EmptyString) [release; build]).

(** The last numeric identifier incremented, if there is one. *)
Fixpoint bumpLastNumber (values : list identifier) : option (list identifier) :=
  match values with
  | [] => None
  | x :: rest =>
      match bumpLastNumber rest with
      | Some rest' => Some (x :: rest')
      | None =>
          match x with
          | Num n => Some (Num (n + 1) :: rest)
          | Id _ => None
          end
      end
  end.

Definition bumpPrerelease (values : list identifier) : list identifier :=
  match bumpLastNumber values with
  | Some values' => values'
  | None => values ++ [Num 0]
  end.

Definition isRelease (version : t) : bool :=
  match prerelease version with [] => true | _ => false end.

(** Modelled from the spec: [increment] of [@std/semver], missing from the
    sources, for the four release types of [VersionUpdate] and without
    options.  Major resets minor and patch and clears the prerelease; minor
    resets patch and clears the prerelease; patch increments the patch and
    clears the prerelease; prerelease increments the last numeric prerelease
    identifier and starts one at 0 when there is none.  On a version that has
    a prerelease, major, minor and patch finish that prerelease as the library
    does; [applyVersionBump] never asks for them there. *)
Definition increment (version : t) (release : VersionUpdate) : t :=
  match release with
  | Prerelease =>
      {| major := major version; minor := minor version;
         patch := if isRelease version then (patch version + 1)%N else patch version;
         prerelease := bumpPrerelease (prerelease version);
         build := build version |}
  | Major =>
      {| major :=
           if isRelease version || negb (minor version =? 0)%N || negb (patch version =? 0)%N
           then (major version + 1)%N else major version;
         minor := 0; patch := 0; prerelease := []; build := build version |}
  | Minor =>
      {| major := major version;
         minor :=
           if isRelease version || negb (patch version =? 0)%N
           then (minor version + 1)%N else minor version;
         patch := 0; prerelease := []; build := build version |}
  | Patch =>
      {| major := major version; minor := minor version;
         patch := if isRelease version then (patch version + 1)%N else patch version;
         prerelease := []; build := build version |}
  end.

End SemVer.

(** ** Plain objects used as dictionaries

    An object literal has [Object.prototype] as its prototype: reading a
    property finds an own property first and an inherited member otherwise.
    Own properties are kept in creation order; [Object.values] lists the
    properties whose keys are array indices first, in ascending order, and
    the others in creation order. *)

Module JsObject.

Definition t (A : Type) : Type := list (string * A).

(** The names of the members of [Object.prototype]. *)
Definition prototype_keys : list string :=
  [ "constructor"; "__defineGetter__"; "__defineSetter__"; "hasOwnProperty";
    "__lookupGetter__"; "__lookupSetter__"; "isPrototypeOf";
    "propertyIsEnumerable"; "toString"; "valueOf"; "__proto__";
    "toLocaleString" ].

Definition inherited (key : string) : bool := bool_decide (key ∈ prototype_keys).

Fixpoint getOwn {A} (key : string) (o : t A) : option A :=
  match o with
  | [] => None
  | (k, v) :: rest => if decide (k = key) then Some v else getOwn key rest
  end.

(** Assignment to a property: an existing own property keeps its place, a
    new one is created last. *)
Fixpoint set {A} (key : string) (v : A) (o : t A) : t A :=
  match o with
  | [] => [(key, v)]
  | (k, w) :: rest =>
      if decide (k = key) then (k, v) :: rest else (k, w) :: set key v rest
  end.

(** A key is an array index when it is the canonical decimal form of an
    integer below 2^32 - 1. *)
Definition arrayIndex (key : string) : option N :=
  if SemVer.isNumericIdentifier key
     && (String.length key <=? 10)
     && (SemVer.digitsValue 0 key <? 4294967295)%N
  then Some (SemVer.digitsValue 0 key) else None.

Fixpoint insertIndexed {A} (i : N) (v : A) (l : list (N * A)) : list (N * A) :=
  match l with
  | [] => [(i, v)]
  | (j, w) :: rest =>
      if (i <=? j)%N then (i, v) :: l else (j, w) :: insertIndexed i v rest
  end.

Fixpoint indexed {A} (o : t A) : list (N * A) :=
  match o with
  | [] => []
  | (k, v) :: rest =>
      match arrayIndex k with
      | Some i => insertIndexed i v (indexed rest)
      | None => indexed rest
      end
  end.

Fixpoint named {A} (o : t A) : list A :=
  match o with
  | [] => []
  | (k, v) :: rest =>
      match arrayIndex k with
      | Some _ => named rest
      | None => v :: named rest
      end
  end.

Definition values {A} (o : t A) : list A := map snd (indexed o) ++ named o.

End JsObject.

(** ** Arrays

    [Array.prototype.sort] is stable; with a comparator that orders the
    elements consistently its result is the one stable ordering, computed here
    by insertion. *)

Fixpoint Array_sort_insert {A} (compareFn : A -> A -> Z) (x : A) (l : list A) : list A :=
  match l with
  | [] => [x]
  | y :: rest =>
      if (compareFn x y <=? 0)%Z then x :: l
      else y :: Array_sort_insert compareFn x rest
  end.

Definition Array_sort {A} (compareFn : A -> A -> Z) (l : list A) : list A :=
  foldr (Array_sort_insert compareFn) [] l.

(** ** Data model of [util.ts] *)

Record Commit : Type := {
  subject : string;
  body : string;
  hash : string
}.

(** [Commit & { tag: string }] *)
Record CommitWithTag : Type := {
  cwt_commit : Commit;
  cwt_tag : string
}.

(** The path is stored under the symbol [pathProp]. *)
Record WorkspaceModule : Type := {
  wm_name : string;
  wm_version : string;
  wm_path : string
}.

(** What the [version] slot of a bump holds at run time: one of the strings
    of [VersionUpdate], or a member inherited from [Object.prototype] when
    the tag read from [TAG_TO_VERSION] names one. *)
Inductive VersionValue : Type :=
| Version (v : VersionUpdate)
| PrototypeMember (key : string).

Global Instance VersionValue_eq_dec : EqDecision VersionValue.
Proof. solve_decision. Defined.

Record VersionBump : Type := {
  vb_module : string;
  vb_tag : string;
  vb_commit : Commit;
  vb_version : VersionValue
}.

Record VersionBumpSummary : Type := {
  vs_module : string;
  vs_version : VersionUpdate;
  vs_commits : list CommitWithTag
}.

(** The spec calls [missing_range] missing_scope, [skipped_commit] skipped
    and [unknown_range_commit] unresolved_module. *)
Inductive DiagnosticType : Type :=
| unknown_commit
| unknown_range_commit
| skipped_commit
| missing_range.

Record Diagnostic : Type := {
  d_type : DiagnosticType;
  d_commit : Commit;
  d_reason : string
}.

Record VersionUpdateResult : Type := {
  r_from : string;
  r_to : string;
  r_diff : VersionUpdate;
  r_path : string;
  r_summary : VersionBumpSummary
}.

(** [VersionBump[] | Diagnostic] *)
Inductive ParseResult : Type :=
| VersionBumps (bumps : list VersionBump)
| Diag (d : Diagnostic).

(** ** Commit classifier *)

(** The pattern [RE_DEFAULT_PATTERN]: a kind of one or more code units other
    than colon and parentheses; optionally a parenthesised scope of one or
    more code units other than line terminators; a colon and a space; a
    message without line terminators up to the end of the subject. *)
Definition kindClass (c : ascii) : bool :=
  negb (bool_decide (c ∈ [":"; "("; ")"]%char)).

Definition RE_DEFAULT_PATTERN : Regex.regex :=
  (Regex.Group 1 (Regex.Plus kindClass)
   >> Regex.Opt (Regex.lit "(" >> Regex.Group 2 (Regex.Plus Regex.dot) >> Regex.lit ")")
   >> Regex.lit ":" >> Regex.lit " "
   >> Regex.Group 3 (Regex.Star Regex.dot)
   >> Regex.Eos)%re.

Definition TAG_TO_VERSION : JsObject.t VersionUpdate :=
  [ ("BREAKING", Major);
    ("feat", Minor);
    ("deprecation", Patch);
    ("fix", Patch);
    ("perf", Patch);
    ("docs", Patch);
    ("style", Patch);
    ("refactor", Patch);
    ("test", Patch);
    ("chore", Patch) ].

(** [Object.keys(TAG_TO_VERSION)]: no key is an array index, so the keys come
    in the order of the literal. *)
Definition TAG_PRIORITY : list string := map fst TAG_TO_VERSION.

Definition DEFAULT_RANGE_REQUIRED : list string :=
  [ "BREAKING"; "feat"; "fix"; "perf"; "deprecation" ].

(** [TAG_TO_VERSION[tag]]; [None] is [undefined]. *)
Definition TAG_TO_VERSION_get (tag : string) : option VersionValue :=
  match JsObject.getOwn tag TAG_TO_VERSION with
  | Some v => Some (Version v)
  | None => if JsObject.inherited tag then Some (PrototypeMember tag) else None
  end.

(** The separator of [module.split]: a comma with the white space around it. *)
Definition RE_SCOPE_SEPARATOR : Regex.regex :=
  (Regex.Star Regex.space >> Regex.lit "," >> Regex.Star Regex.space)%re.

Definition defaultParseCommitMessage
    (commit : Commit) (workspaceModules : list WorkspaceModule) : ParseResult :=
  match Regex.exec RE_DEFAULT_PATTERN (subject commit) with
  | None =>
      Diag {| d_type := unknown_commit; d_commit := commit;
              d_reason := "The commit message does not match the default pattern." |}
  | Some match_ =>
      let tag := default EmptyString (Regex.group 1 match_) in
      let module := Regex.group 2 match_ in
      let modules :=
        if bool_decide (module = Some "*") then map wm_name workspaceModules
        else
          match module with
          | Some (String _ _ as module) => Regex.split RE_SCOPE_SEPARATOR module
          | Some EmptyString | None => []
          end in
      match modules with
      | [] =>
          if JsString.includes DEFAULT_RANGE_REQUIRED tag then
            Diag {| d_type := missing_range; d_commit := commit;
                    d_reason := "The commit message does not specify a module." |}
          else
            Diag {| d_type := skipped_commit; d_commit := commit;
                    d_reason := "The commit message does not specify a module." |}
      | _ =>
          match TAG_TO_VERSION_get tag with
          | None =>
              Diag {| d_type := unknown_commit; d_commit := commit;
                      d_reason := "Unknown commit tag: " +:+ tag +:+ "." |}
          | Some version =>
              VersionBumps
                (map (fun module =>
                        {| vb_module := module; vb_tag := tag;
                           vb_version := version; vb_commit := commit |})
                     modules)
          end
      end
  end.

(** ** Bump aggregator *)

Definition maxVersion (v0 v1 : VersionValue) : VersionUpdate :=
  if bool_decide (v0 = Version Major) || bool_decide (v1 = Version Major) then Major
  else if bool_decide (v0 = Version Minor) || bool_decide (v1 = Version Minor) then Minor
  else Patch.

Definition withTag (versionBump : VersionBump) : CommitWithTag :=
  {| cwt_commit := vb_commit versionBump; cwt_tag := vb_tag versionBump |}.

(** One iteration of the first loop of [summarizeVersionBumpsByModule].  When
    [module] names a member of [Object.prototype] and is not yet an own
    property, [result[module]] is that member, which is not nullish and has
    no [commits] array: [summary.commits.push] throws. *)
Definition summarizeStep (result_ : JsObject.t VersionBumpSummary)
    (versionBump : VersionBump) : result (JsObject.t VersionBumpSummary) :=
  let module := vb_module versionBump in
  let version := vb_version versionBump in
  match JsObject.getOwn module result_ with
  | Some summary =>
      Ok (JsObject.set module
            {| vs_module := vs_module summary;
               vs_version := maxVersion (Version (vs_version summary)) version;
               vs_commits := vs_commits summary ++ [withTag versionBump] |}
            result_)
  | None =>
      if JsObject.inherited module then
        Throw (TypeError "Cannot read properties of undefined (reading 'push')")
      else
        Ok (JsObject.set module
              {| vs_module := module;
                 vs_version := maxVersion version version;
                 vs_commits := [withTag versionBump] |}
              result_)
  end.

Fixpoint summarizeLoop (result_ : JsObject.t VersionBumpSummary)
    (versionBumps : list VersionBump) : result (JsObject.t VersionBumpSummary) :=
  match versionBumps with
  | [] => Ok result_
  | versionBump :: rest =>
      result' <- summarizeStep result_ versionBump ;;
      summarizeLoop result' rest
  end.

Definition compareTagPriority (a b : CommitWithTag) : Z :=
  let priorityA := JsString.indexOf TAG_PRIORITY (cwt_tag a) in
  let priorityB := JsString.indexOf TAG_PRIORITY (cwt_tag b) in
  if decide (priorityA = priorityB) then 0%Z
  else if decide (priorityA < priorityB)%Z then (-1)%Z else 1%Z.

Definition compareModule (a b : VersionBumpSummary) : Z :=
  if String.ltb (vs_module a) (vs_module b) then (-1)%Z else 1%Z.

Definition sortCommits (summary : VersionBumpSummary) : VersionBumpSummary :=
  {| vs_module := vs_module summary;
     vs_version := vs_version summary;
     vs_commits := Array_sort compareTagPriority (vs_commits summary) |}.

Definition summarizeVersionBumpsByModule
    (versionBumps : list VersionBump) : result (list VersionBumpSummary) :=
  result_ <- summarizeLoop [] versionBumps ;;
  let result' := map (fun '(k, summary) => (k, sortCommits summary)) result_ in
  Ok (Array_sort compareModule (JsObject.values result')).

(** ** Module resolver *)

Definition moduleMatches (module : string) (m : WorkspaceModule) : bool :=
  bool_decide (wm_name m = module) || JsString.endsWith (wm_name m) ("/" +:+ module).

(** [modules.find(...)]: the first match, or [undefined]. *)
Definition getModule (module : string) (modules : list WorkspaceModule)
    : option WorkspaceModule :=
  List.find (moduleMatches module) modules.

Definition checkModuleName (versionBump : VersionBump)
    (modules : list WorkspaceModule) : option Diagnostic :=
  match getModule (vb_module versionBump) modules with
  | Some _ => None
  | None =>
      Some {| d_type := unknown_range_commit;
              d_commit := vb_commit versionBump;
              d_reason := "Unknown module: " +:+ vb_module versionBump +:+ "." |}
  end.

(** ** Version reconciler *)

Definition hasPrerelease (version : SemVer.t) : bool :=
  bool_decide (0 < length (SemVer.prerelease version)).

Definition calcVersionDiff (newVersionStr oldVersionStr : string) : result VersionUpdate :=
  newVersion <- SemVer.parse newVersionStr ;;
  oldVersion <- SemVer.parse oldVersionStr ;;
  (* the two versions are objects: the template of the message prints them as such *)
  let unexpected : result VersionUpdate :=
    Throw (Error "Unexpected manual version update: [object Object] -> [object Object]") in
  if hasPrerelease newVersion then Ok Prerelease
  else if negb (SemVer.major newVersion =? SemVer.major oldVersion)%N then Ok Major
  else if negb (SemVer.minor newVersion =? SemVer.minor oldVersion)%N then Ok Minor
  else if negb (SemVer.patch newVersion =? SemVer.patch oldVersion)%N then Ok Patch
  else if hasPrerelease oldVersion && negb (hasPrerelease newVersion)
          && (SemVer.major newVersion =? SemVer.major oldVersion)%N
          && (SemVer.minor newVersion =? SemVer.minor oldVersion)%N
          && (SemVer.patch newVersion =? SemVer.patch oldVersion)%N
  then
    (* The prerelease version is removed like 1.0.0-rc.1 -> 1.0.0 *)
    if negb (SemVer.patch newVersion =? 0)%N then Ok Patch
    else if negb (SemVer.minor newVersion =? 0)%N then Ok Minor
    else if negb (SemVer.major newVersion =? 0)%N then Ok Major
    else unexpected
  else unexpected.

Definition withVersion (summary : VersionBumpSummary) (diff : VersionUpdate)
    : VersionBumpSummary :=
  {| vs_module := vs_module summary; vs_version := diff;
     vs_commits := vs_commits summary |}.

(** [new RegExp(source, "g")] as the host provides it: the message of the
    [SyntaxError] that it throws when [source] is not a pattern of the
    language, [None] when it returns a regular expression. *)
Definition RegExpConstructor : Type := string -> option string.

Section applyVersionBump.
Variable RegExp : RegExpConstructor.

(** [applyVersionBump]: the [VersionUpdateResult] of the returned pair.  The
    summary is updated in place ([summary.version = diff]) and is the one
    stored in the result.  On the third path the pattern that finds the
    references to the module in the import map is built from the name of the
    module and its current version as they are, after the new version has
    been computed and before the result is returned. *)
Definition applyVersionBump (summary : VersionBumpSummary) (module : WorkspaceModule)
    (oldModule : option WorkspaceModule) : result VersionUpdateResult :=
  match oldModule with
  | None =>
      (* The module is newly added *)
      diff <- calcVersionDiff (wm_version module) "0.0.0" ;;
      Ok {| r_from := "0.0.0"; r_to := wm_version module; r_diff := diff;
            r_summary := withVersion summary diff; r_path := wm_path module |}
  | Some oldModule =>
      if decide (wm_version oldModule <> wm_version module) then
        (* The version is manually updated *)
        diff <- calcVersionDiff (wm_version module) (wm_version oldModule) ;;
        Ok {| r_from := wm_version oldModule; r_to := wm_version module; r_diff := diff;
              r_summary := withVersion summary diff; r_path := wm_path module |}
      else
        let currentVersionStr := wm_version module in
        currentVersion <- SemVer.parse currentVersionStr ;;
        let diff := vs_version summary in
        let diff :=
          if bool_decide (0 < length (SemVer.prerelease currentVersion)) then
            (* the version bump type is always prerelease *)
            Prerelease
          else if (SemVer.major currentVersion =? 0)%N then
            (* Change the version bump type for 0.x.y *)
            match diff with
            | Major => Minor
            | Minor => Patch
            | _ => diff
            end
          else diff in
        let newVersion := SemVer.increment currentVersion diff in
        let newVersionStr := SemVer.format newVersion in
        match RegExp (wm_name module +:+ "@([^~]?)" +:+ currentVersionStr) with
        | Some message => Throw (SyntaxError message)
        | None =>
            Ok {| r_from := currentVersionStr; r_to := newVersionStr; r_diff := diff;
                  r_summary := withVersion summary diff; r_path := wm_path module |}
        end
  end.

End applyVersionBump.

(** ** The collecting loop of [bumpWorkspaces] ([mod.ts]) *)

(** The pattern that skips version-bump commits: an optional [v] and three
    dot-separated runs of digits at the start of the subject. *)
Definition RE_VERSION_SUBJECT : Regex.regex :=
  (Regex.Opt (Regex.lit "v")
   >> Regex.Plus Regex.digit >> Regex.lit "."
   >> Regex.Plus Regex.digit >> Regex.lit "."
   >> Regex.Plus Regex.digit)%re.

(** The pattern that skips release commits: the word Release, a space and a
    version as above. *)
Definition RE_RELEASE_SUBJECT : Regex.regex :=
  (Regex.text "Release "
   >> Regex.Plus Regex.digit >> Regex.lit "."
   >> Regex.Plus Regex.digit >> Regex.lit "."
   >> Regex.Plus Regex.digit)%re.

Section collect.

(** The [parseCommitMessage] option, by default [defaultParseCommitMessage]
    with the workspace modules. *)
Variable parseCommitMessage : Commit -> ParseResult.
Variable modules : list WorkspaceModule.

(** The inner loop over the bumps of one commit. *)
Definition checkBumps (parsed : list VersionBump)
    (acc : list VersionBump * list Diagnostic) : list VersionBump * list Diagnostic :=
  fold_left
    (fun '(versionBumps, diagnostics) versionBump =>
       match checkModuleName versionBump modules with
       | Some diagnostic => (versionBumps, diagnostics ++ [diagnostic])
       | None => (versionBumps ++ [versionBump], diagnostics)
       end)
    parsed acc.

Definition collectStep (acc : list VersionBump * list Diagnostic) (commit : Commit)
    : list VersionBump * list Diagnostic :=
  if Regex.test RE_VERSION_SUBJECT (subject commit) then
    (* Skip if the commit subject is version bump *)
    acc
  else if Regex.test RE_RELEASE_SUBJECT (subject commit) then
    (* Skip if the commit subject is release *)
    acc
  else
    match parseCommitMessage commit with
    | VersionBumps parsed => checkBumps parsed acc
    | Diag parsed =>
        (* The commit message is completely unknown *)
        let '(versionBumps, diagnostics) := acc in
        (versionBumps, diagnostics ++ [parsed])
    end.

(** [versionBumps] and [diagnostics] after the loop over the commits. *)
Definition collect (commits : list Commit) : list VersionBump * list Diagnostic :=
  fold_left collectStep commits ([], []).

End collect.

(** ** Notions used in the statements *)

(** The subjects of the shape [kind: message] or [kind(scope): message]
    that [RE_DEFAULT_PATTERN] describes, with the three parts. *)
Inductive SubjectShape (s : string) : string -> option string -> string -> Prop :=
| Shape_unscoped tag message :
    s = tag +:+ ": " +:+ message ->
    tag <> EmptyString -> JsString.all kindClass tag = true ->
    JsString.all Regex.dot message = true ->
    SubjectShape s tag None message
| Shape_scoped tag scope message :
    s = tag +:+ "(" +:+ scope +:+ "): " +:+ message ->
    tag <> EmptyString -> JsString.all kindClass tag = true ->
    scope <> EmptyString -> JsString.all Regex.dot scope = true ->
    JsString.all Regex.dot message = true ->
    SubjectShape s tag (Some scope) message.


(** The proposals that a classification emits: none for a diagnostic. *)
Definition proposals (r : ParseResult) : list VersionBump :=
  match r with
  | VersionBumps bumps => bumps
  | Diag _ => []
  end.

(** The bumps of one module, in the order of the input. *)
Definition bumpsOf (module : string) (bumps : list VersionBump) : list VersionBump :=
  filter (fun b => vb_module b = module) bumps.

(** The order major > minor > patch.  [maxVersion] compares with the strings
    [major] and [minor] only: any other value counts as a patch. *)
Definition asSeverity (v : VersionValue) : VersionUpdate :=
  match v with
  | Version Major => Major
  | Version Minor => Minor
  | _ => Patch
  end.

Definition severityRank (v : VersionUpdate) : nat :=
  match v with
  | Major => 2
  | Minor => 1
  | _ => 0
  end.

Definition maxSeverity (versions : list VersionValue) : VersionUpdate :=
  if bool_decide (Version Major ∈ versions) then Major
  else if bool_decide (Version Minor ∈ versions) then Minor
  else Patch.

(** The place of the tag of a commit in [TAG_PRIORITY], -1 outside of it. *)
Definition priority (c : CommitWithTag) : Z :=
  JsString.indexOf TAG_PRIORITY (cwt_tag c).

(** The summary of a module before and after its commits are sorted. *)
Definition rawSummary (bumps : list VersionBump) (module : string) : VersionBumpSummary :=
  {| vs_module := module;
     vs_version := maxSeverity (map vb_version (bumpsOf module bumps));
     vs_commits := map withTag (bumpsOf module bumps) |}.

Definition finalSummary (bumps : list VersionBump) (module : string) : VersionBumpSummary :=
  sortCommits (rawSummary bumps module).

(** The dictionary of the aggregator after the bumps [done]: one entry per
    module met so far. *)
Definition summarized (done : list VersionBump) (o : JsObject.t VersionBumpSummary) : Prop :=
  exists keys,
    o = map (fun k => (k, rawSummary done k)) keys /\
    NoDup keys /\
    (forall k, k ∈ keys <-> k ∈ map vb_module done) /\
    Forall (fun k => JsObject.inherited k = false) keys.

Definition mapResult {A B} (f : A -> B) (r : result A) : result B :=
  match r with
  | Ok a => Ok (f a)
  | Throw e => Throw e
  end.

(** The subjects that the collecting loop passes over. *)
Definition skippedSubject (commit : Commit) : bool :=
  Regex.test RE_VERSION_SUBJECT (subject commit)
  || Regex.test RE_RELEASE_SUBJECT (subject commit).

(** All the proposals of a run, in the order of the commits. *)
Definition runProposals (parseCommitMessage : Commit -> ParseResult)
    (commits : list Commit) : list VersionBump :=
  flat_map (fun commit =>
              if skippedSubject commit then []
              else proposals (parseCommitMessage commit))
           commits.

Definition unresolvedDiagnostic (versionBump : VersionBump) : Diagnostic :=
  {| d_type := unknown_range_commit;
     d_commit := vb_commit versionBump;
     d_reason := "Unknown module: " +:+ vb_module versionBump +:+ "." |}.

(** The name of [m] is the reference, or ends with a slash and the reference. *)
Definition refersTo (module : string) (m : WorkspaceModule) : Prop :=
  wm_name m = module \/ exists scope, wm_name m = scope +:+ "/" +:+ module.

(** The reference of a bump resolves to a module. *)
Definition resolved (modules : list WorkspaceModule) (b : VersionBump) : Prop :=
  is_Some (getModule (vb_module b) modules).

Global Instance resolved_dec modules b : Decision (resolved modules b).
Proof. unfold resolved. apply _. Defined.

(** The diagnostics that one commit adds in the collecting loop. *)
Definition stepDiagnostics (parseCommitMessage : Commit -> ParseResult)
    (modules : list WorkspaceModule) (commit : Commit) : list Diagnostic :=
  if skippedSubject commit then []
  else match parseCommitMessage commit with
       | VersionBumps parsed =>
           map unresolvedDiagnostic (filter (fun b => ~ resolved modules b) parsed)
       | Diag d => [d]
       end.

(** The diff rule in the words of the spec: prerelease if the new version
    has a prerelease; else the first of major, minor, patch that differs;
    else, when the prior version had a prerelease, patch if the patch is not
    zero, else minor if the minor is not zero, else major; [None], the fatal
    resolution error, for the other combinations. *)
Definition specVersionDiff (newVersion oldVersion : SemVer.t) : option VersionUpdate :=
  if hasPrerelease newVersion then Some Prerelease
  else if negb (SemVer.major newVersion =? SemVer.major oldVersion)%N then Some Major
  else if negb (SemVer.minor newVersion =? SemVer.minor oldVersion)%N then Some Minor
  else if negb (SemVer.patch newVersion =? SemVer.patch oldVersion)%N then Some Patch
  else if hasPrerelease oldVersion then
    Some (if negb (SemVer.patch newVersion =? 0)%N then Patch
          else if negb (SemVer.minor newVersion =? 0)%N then Minor
          else Major)
  else None.

(** The resolution that [applyVersionBump] returns for a module. *)
Definition resolution (summary : VersionBumpSummary) (module : WorkspaceModule)
    (from to : string) (diff : VersionUpdate) : result VersionUpdateResult :=
  Ok {| r_from := from; r_to := to; r_diff := diff;
        r_summary := withVersion summary diff; r_path := wm_path module |}.

Definition unexpectedManualVersionUpdate {A} : result A :=
  Throw (Error "Unexpected manual version update: [object Object] -> [object Object]").

(** ** Values used in the examples *)

Definition exampleModules : list WorkspaceModule :=
  [ {| wm_name := "foo"; wm_version := "0.0.0"; wm_path := EmptyString |};
    {| wm_name := "bar"; wm_version := "0.0.0"; wm_path := EmptyString |} ].

Definition exampleCommit (subject : string) : Commit :=
  {| subject := subject; body := EmptyString;
     hash := "0000000000000000000000000000000000000000" |}.

Definition exampleParse (subject : string) : ParseResult :=
  defaultParseCommitMessage (exampleCommit subject) exampleModules.

Definition exampleBump (module tag : string) (version : VersionUpdate) (subject : string)
    : VersionBump :=
  {| vb_module := module; vb_tag := tag; vb_version := Version version;
     vb_commit := exampleCommit subject |}.

Definition exampleDiagnostic (type : DiagnosticType) (subject reason : string) : Diagnostic :=
  {| d_type := type; d_commit := exampleCommit subject; d_reason := reason |}.

(** The subject with the wildcard scope. *)
Definition wildcardSubject : string := "fix(" +:+ "*" +:+ "): a bug".

(** A constructor of regular expressions for the examples.  It accepts the
    sources that are the literal group of [applyVersionBump] between two
    runs of letters, digits and the signs [@ / - _ .], which are patterns of
    the language, and no other source. *)
Definition plainUnit (c : ascii) : bool :=
  let n := nat_of_ascii c in
  (48 <=? n) && (n <=? 57) || (65 <=? n) && (n <=? 90) || (97 <=? n) && (n <=? 122)
  || bool_decide (c ∈ ["@"; "/"; "-"; "_"; "."]%char).

Fixpoint examplePattern (source : string) : bool :=
  match source with
  | EmptyString => false
  | String c rest =>
      if Ascii.eqb c "("
      then String.prefix "([^~]?)" source && JsString.all plainUnit (JsString.drop 7 source)
      else plainUnit c && examplePattern rest
  end.

Definition exampleRegExp : RegExpConstructor :=
  fun source =>
    if examplePattern source then None else Some "Invalid regular expression".

Definition exampleApply (severity : VersionUpdate) (current : string) (old : option string)
    : result (string * string * VersionUpdate) :=
  mapResult (fun r => (r_from r, r_to r, r_diff r))
    (applyVersionBump exampleRegExp
       {| vs_module := "foo"; vs_version := severity; vs_commits := [] |}
       {| wm_name := "@scope/foo"; wm_version := current; wm_path := "foo/deno.json" |}
       (option_map (fun v => {| wm_name := "@scope/foo"; wm_version := v;
                                wm_path := "foo/deno.json" |}) old)).

(** A commit that the collecting loop hands to the classifier and that the
    classifier answers with a diagnostic. *)
Definition diagnosed (parseCommitMessage : Commit -> ParseResult) (commit : Commit) : bool :=
  negb (skippedSubject commit)
  && match parseCommitMessage commit with
     | Diag _ => true
     | VersionBumps _ => false
     end.


(** A run of digits, as [\d+] matches it. *)
Definition digits (s : string) : Prop :=
  s <> EmptyString /\ JsString.all JsString.isDigit s = true.

(** ** Scope lists *)

Definition noComma (s : string) : bool :=
  JsString.all (fun c => negb (Ascii.eqb c ",")) s.

(** A name as it is listed in a scope: not empty, without comma, without
    white space at either end. *)
Definition listedName (s : string) : Prop :=
  s <> EmptyString /\ noComma s = true /\ SemVer.trim s = s.

(** A scope that lists [first] and then the names of [rest], each after a
    comma with the white space [before] and [after] it. *)
Record listed : Type := {
  l_before : string;
  l_after : string;
  l_name : string
}.

Fixpoint scopeList (first : string) (rest : list listed) : string :=
  match rest with
  | [] => first
  | x :: rest' =>
      first +:+ l_before x +:+ "," +:+ l_after x +:+ scopeList (l_name x) rest'
  end.

Definition wellListed (x : listed) : Prop :=
  JsString.all Regex.space (l_before x) = true
  /\ JsString.all Regex.space (l_after x) = true
  /\ listedName (l_name x).

(** ** The commit log of [bumpWorkspaces] ([mod.ts])

    The text that [git log] prints is the input; [bumpWorkspaces] cuts it at
    the separator and reads a hash, a subject and a body from each piece. *)

Module GitLog.

(** [s.repeat(n)] *)
Fixpoint repeat (s : string) (n : nat) : string :=
  match n with
  | O => EmptyString
  | S n' => s +:+ repeat s n'
  end.

(** A random separator that is unlikely to be in a commit message. *)
Definition separator : string := repeat "#%$" 35.

(** [s.slice(0, n)] *)
Fixpoint take (n : nat) (s : string) : string :=
  match n, s with
  | S n', String c s' => String c (take n' s')
  | _, _ => EmptyString
  end.

(** [s.indexOf(c)] for a needle of one code unit; [None] is -1. *)
Fixpoint indexOf (c : ascii) (s : string) : option nat :=
  match s with
  | EmptyString => None
  | String d s' => if Ascii.eqb d c then Some 0 else option_map S (indexOf c s')
  end.

(** [s.startsWith(t)] *)
Fixpoint startsWith (s t : string) {struct t} : bool :=
  match t, s with
  | EmptyString, _ => true
  | String d t', String c s' => Ascii.eqb c d && startsWith s' t'
  | String _ _, EmptyString => false
  end.

(** [s.split(sep)] for a separator string that is not empty: [pending] is
    the text since the end of the previous separator, [skip] counts the code
    units of a separator found at an earlier index that are still to be
    passed. *)
Fixpoint split_from (sep : string) (skip : nat) (pending s : string) : list string :=
  match s with
  | EmptyString => [pending]
  | String c s' =>
      match skip with
      | S n => split_from sep n pending s'
      | O =>
          if startsWith s sep
          then pending :: split_from sep (String.length sep - 1) EmptyString s'
          else split_from sep 0 (pending +:+ String c EmptyString) s'
      end
  end.

Definition split (sep s : string) : list string := split_from sep 0 EmptyString s.

(** The line feed. *)
Definition LF : ascii := "010"%char.

(** The function mapped over the pieces of the log. *)
Definition readCommit (commit : string) : Commit :=
  let hash := take 40 commit in
  let commit := JsString.drop 40 commit in
  match indexOf LF commit with
  | None => {| hash := hash; subject := SemVer.trim commit; body := EmptyString |}
  | Some i =>
      let subject := SemVer.trim (take i commit) in
      let body := SemVer.trim (JsString.drop (i + 1) commit) in
      {| hash := hash; subject := subject; body := body |}
  end.

(** [commits], after [commits.shift()] has dropped the first item. *)
Definition commits (text : string) : list Commit :=
  tail (map readCommit (split separator text)).

End GitLog.

(** A text that holds no number sign followed by a percent sign, the first
    two code units of the separator. *)
Fixpoint unmarked (s : string) : bool :=
  match s with
  | EmptyString => true
  | String c s' =>
      negb (Ascii.eqb c "#"
            && match s' with
               | String d _ => Ascii.eqb d "%"
               | EmptyString => false
               end)
      && unmarked s'
  end.

(** One commit as it stands in the log after the separator: the hash, the
    subject, a line feed and the body between two runs of white space. *)
Record logged : Type := {
  e_commit : Commit;
  e_gap : string;
  e_end : string
}.

Definition logEntry (e : logged) : string :=
  hash (e_commit e) +:+ subject (e_commit e) +:+ String GitLog.LF EmptyString
  +:+ e_gap e +:+ body (e_commit e) +:+ e_end e.

Definition wellLogged (e : logged) : Prop :=
  String.length (hash (e_commit e)) = 40
  /\ JsString.all (fun c => negb (Ascii.eqb c GitLog.LF)) (subject (e_commit e)) = true
  /\ SemVer.trim (subject (e_commit e)) = subject (e_commit e)
  /\ SemVer.trim (body (e_commit e)) = body (e_commit e)
  /\ JsString.all JsString.isSpace (e_gap e) = true
  /\ JsString.all JsString.isSpace (e_end e) = true
  /\ unmarked (logEntry e) = true.

(** The log: what precedes the first separator, then each commit after a
    separator. *)
Fixpoint logText (preamble : string) (entries : list logged) : string :=
  match entries with
  | [] => preamble
  | e :: entries' => preamble +:+ GitLog.separator +:+ logText (logEntry e) entries'
  end.

(** ** The release title ([util.ts])

    A valid [Date] is taken by the fields that its UTC getters return. *)

Record Date : Type := {
  getUTCFullYear : Z;
  getUTCMonth : N;
  getUTCDate : N
}.

(** [String(n)] for an integer. *)
Definition Number_toString (n : Z) : string :=
  match n with
  | Zneg p => "-" +:+ SemVer.formatNumber (Npos p)
  | _ => SemVer.formatNumber (Z.to_N n)
  end.

(** [s.padStart(targetLength, c)] for a pad of one code unit. *)
Definition padStart (targetLength : nat) (c : ascii) (s : string) : string :=
  GitLog.repeat (String c EmptyString) (targetLength - String.length s) +:+ s.

Definition createReleaseTitle (d : Date) : string :=
  let year := getUTCFullYear d in
  let month := padStart 2 "0" (Number_toString (Z.of_N (getUTCMonth d) + 1)) in
  let date := padStart 2 "0" (Number_toString (Z.of_N (getUTCDate d))) in
  Number_toString year +:+ "." +:+ month +:+ "." +:+ date.

(** ** The update loop of [bumpWorkspaces] ([mod.ts])

    [getModule] returns the module object that is stored in [modules], and
    the third path of [applyVersionBump] assigns its new version to it: the
    later iterations of the loop see that version.  The state of the loop is
    the list of modules and the dictionary [updates]. *)

(** [module.version = version] on the module that [getModule] finds. *)
Fixpoint setVersion (module version : string) (modules : list WorkspaceModule)
    : list WorkspaceModule :=
  match modules with
  | [] => []
  | m :: rest =>
      if moduleMatches module m
      then {| wm_name := wm_name m; wm_version := version; wm_path := wm_path m |} :: rest
      else m :: setVersion module version rest
  end.

(** The version of [module] after [applyVersionBump] has returned
    [versionUpdate]: the third path assigns the new version, the two others
    leave the module as it is. *)
Definition versionAfter (module : WorkspaceModule) (oldModule : option WorkspaceModule)
    (versionUpdate : VersionUpdateResult) : string :=
  match oldModule with
  | None => wm_version module
  | Some oldModule =>
      if decide (wm_version oldModule <> wm_version module) then wm_version module
      else r_to versionUpdate
  end.

(** [updates[key] = v] on a plain object: the key [__proto__] sets the
    prototype and creates no property. *)
Definition assign {A} (key : string) (v : A) (o : JsObject.t A) : JsObject.t A :=
  if decide (key = "__proto__") then o else JsObject.set key v o.

(** Without a module for the summary, [applyVersionBump] reads a property of
    [undefined]: the name when there is no old module either, the version
    otherwise. *)
Definition readOfUndefined (oldModule : option WorkspaceModule) : exn :=
  match oldModule with
  | None => TypeError "Cannot read properties of undefined (reading 'name')"
  | Some _ => TypeError "Cannot read properties of undefined (reading 'version')"
  end.

Section updateLoop.
Variable RegExp : RegExpConstructor.

(** One iteration. *)
Definition updateStep (oldModules : list WorkspaceModule)
    (state : list WorkspaceModule * JsObject.t VersionUpdateResult)
    (summary : VersionBumpSummary)
    : result (list WorkspaceModule * JsObject.t VersionUpdateResult) :=
  let '(modules, updates) := state in
  let oldModule := getModule (vs_module summary) oldModules in
  match getModule (vs_module summary) modules with
  | None => Throw (readOfUndefined oldModule)
  | Some module =>
      versionUpdate <- applyVersionBump RegExp summary module oldModule ;;
      Ok (setVersion (vs_module summary) (versionAfter module oldModule versionUpdate) modules,
          assign (wm_name module) versionUpdate updates)
  end.

Fixpoint updateLoop (oldModules : list WorkspaceModule)
    (state : list WorkspaceModule * JsObject.t VersionUpdateResult)
    (summaries : list VersionBumpSummary)
    : result (list WorkspaceModule * JsObject.t VersionUpdateResult) :=
  match summaries with
  | [] => Ok state
  | summary :: rest =>
      state' <- updateStep oldModules state summary ;;
      updateLoop oldModules state' rest
  end.

(** The update of one summary on its own, under the name of its module. *)
Definition updateAlone (oldModules modules : list WorkspaceModule)
    (summary : VersionBumpSummary) : result (string * VersionUpdateResult) :=
  let oldModule := getModule (vs_module summary) oldModules in
  match getModule (vs_module summary) modules with
  | None => Throw (readOfUndefined oldModule)
  | Some module =>
      versionUpdate <- applyVersionBump RegExp summary module oldModule ;;
      Ok (wm_name module, versionUpdate)
  end.

End updateLoop.

(** The name of the module that a summary resolves to. *)
Definition resolvedName (modules : list WorkspaceModule) (summary : VersionBumpSummary)
    : option string :=
  option_map wm_name (getModule (vs_module summary) modules).

(** [f] on each element in turn, up to the first exception. *)
Fixpoint traverse {A B} (f : A -> result B) (l : list A) : result (list B) :=
  match l with
  | [] => Ok []
  | x :: rest =>
      y <- f x ;;
      ys <- traverse f rest ;;
      Ok (y :: ys)
  end.

(** ** The release note ([util.ts]) *)

(** The string that a [VersionUpdate] is. *)
Definition VersionUpdate_toString (v : VersionUpdate) : string :=
  match v with
  | Major => "major"
  | Minor => "minor"
  | Patch => "patch"
  | Prerelease => "prerelease"
  end.

(** The section of one update.  Without a module for the summary, the name
    is read from [undefined]. *)
Definition releaseNoteSection (modules : list WorkspaceModule) (u : VersionUpdateResult)
    : result string :=
  match getModule (vs_module (r_summary u)) modules with
  | None => Throw (TypeError "Cannot read properties of undefined (reading 'name')")
  | Some module =>
      Ok ("#### " +:+ wm_name module +:+ " " +:+ r_to u
          +:+ " (" +:+ VersionUpdate_toString (r_diff u) +:+ ") "
          +:+ String GitLog.LF EmptyString
          +:+ JsString.join EmptyString
                (map (fun c => "- " +:+ subject (cwt_commit c)
                               +:+ String GitLog.LF EmptyString)
                     (vs_commits (r_summary u))))
  end.

Definition createReleaseNote (updates : list VersionUpdateResult)
    (modules : list WorkspaceModule) (date : Date) : result string :=
  let heading :=
    "### " +:+ createReleaseTitle date
    +:+ String GitLog.LF (String GitLog.LF EmptyString) in
  sections <- traverse (releaseNoteSection modules) updates ;;
  Ok (heading +:+ JsString.join (String GitLog.LF EmptyString) sections).

(** * Properties *)

(** ** Strings *)

Lemma append_cons c (s t : string) : String c s +:+ t = String c (s +:+ t).
Proof. reflexivity. Qed.

Lemma append_nil_l (s : string) : EmptyString +:+ s = s.
Proof. reflexivity. Qed.

Lemma append_nil_r (s : string) : s +:+ EmptyString = s.
Proof. induction s as [|c s IH]; [done|]. by rewrite append_cons, IH. Qed.

Lemma append_assoc (s t u : string) : (s +:+ t) +:+ u = s +:+ (t +:+ u).
Proof. induction s as [|c s IH]; [done|]. by rewrite !append_cons, IH. Qed.

Lemma append_length (s t : string) :
  String.length (s +:+ t) = String.length s + String.length t.
Proof. induction s as [|c s IH]; [done|]. rewrite append_cons. simpl. by rewrite IH. Qed.

(** ** The matcher against what a pattern can match *)

Section matcher_correct.
Context {X : Type}.
Implicit Types (k : string -> string -> option X).

Lemma star_sound p s k x :
  Regex.star p s k = Some x ->
  exists m r, s = m +:+ r /\ JsString.all p m = true /\ k m r = Some x.
Proof.
  revert k. induction s as [|c s IH]; intros k; simpl.
  - intros Hk. by exists EmptyString, EmptyString.
  - destruct (p c) eqn:Hc.
    + destruct (Regex.star p s _) as [y|] eqn:Hs.
      * intros [= ->]. apply IH in Hs as (m & r & -> & Hm & Hk).
        exists (String c m), r. simpl. by rewrite Hc, Hm.
      * intros Hk. by exists EmptyString, (String c s).
    + intros Hk. by exists EmptyString, (String c s).
Qed.

Lemma star_complete p m r k :
  JsString.all p m = true -> is_Some (k m r) -> is_Some (Regex.star p (m +:+ r) k).
Proof.
  revert k. induction m as [|c m IH]; intros k Hm Hk.
  - rewrite append_nil_l. destruct r as [|d r]; simpl; [done|].
    destruct (p d); [|done]. by destruct (Regex.star p r _).
  - simpl in Hm. apply andb_prop in Hm as [Hc Hm].
    rewrite append_cons. simpl. rewrite Hc.
    destruct (IH (fun m' r' => k (String c m') r') Hm Hk) as [y ->]. done.
Qed.


Implicit Types (K : string -> string -> Regex.captures -> option X).

Lemma run_sound r s cs K x :
  Regex.run r s cs K = Some x ->
  exists m s' cs', Regex.Match r s cs m s' cs' /\ K m s' cs' = Some x.
Proof.
  revert s cs K. induction r as [p|p|p|r1 IH1 r2 IH2|r IH|n r IH|]; intros s cs K; simpl.
  - destruct s as [|c s]; [done|]. destruct (p c) eqn:Hc; [|done].
    intros HK. eexists _, _, _. split; [by constructor|done].
  - intros (m & r & -> & Hm & HK)%star_sound.
    eexists _, _, _. split; [by constructor|done].
  - destruct s as [|c s]; [done|]. destruct (p c) eqn:Hc; [|done].
    intros (m & r & -> & Hm & HK)%star_sound.
    exists (String c m), r, cs. split; [|done].
    rewrite <-append_cons. constructor; [done|]. simpl. by rewrite Hc, Hm.
  - intros (m1 & s1 & cs1 & HM1 & (m2 & s2 & cs2 & HM2 & HK)%IH2)%IH1.
    eexists _, _, _. split; [by econstructor|done].
  - destruct (Regex.run r s cs K) as [y|] eqn:Hr.
    + intros [= ->]. apply IH in Hr as (m & s' & cs' & HM & HK).
      eexists _, _, _. split; [by apply Regex.Match_Opt_taken|done].
    + intros HK. eexists _, _, _. split; [by apply Regex.Match_Opt_skipped|done].
  - intros (m & s' & cs' & HM & HK)%IH.
    eexists _, _, _. split; [by constructor|done].
  - destruct s; [|done]. intros HK. eexists _, _, _. split; [by constructor|done].
Qed.

Lemma run_complete r s cs m s' cs' :
  Regex.Match r s cs m s' cs' ->
  forall K, is_Some (K m s' cs') -> is_Some (Regex.run r s cs K).
Proof.
  induction 1 as [p c s cs Hc|p m s cs Hm|p m s cs Hne Hm
                 |r1 r2 s cs m1 s1 cs1 m2 s2 cs2 _ IH1 _ IH2
                 |r s cs m s' cs' _ IH|r s cs|n r s cs m s' cs' _ IH|cs];
    intros K HK; simpl.
  - by rewrite Hc.
  - by apply star_complete.
  - destruct m as [|c m]; [done|]. simpl in Hm. apply andb_prop in Hm as [Hc Hm].
    rewrite append_cons, Hc. by apply star_complete.
  - apply IH1, IH2, HK.
  - destruct (IH K HK) as [y ->]. done.
  - by destruct (Regex.run r s cs K).
  - by apply IH.
  - done.
Qed.

End matcher_correct.

Lemma Match_split r s cs m s' cs' : Regex.Match r s cs m s' cs' -> s = m +:+ s'.
Proof.
  induction 1; try done.
  subst. by rewrite append_assoc.
Qed.

Lemma exec_Some re s caps :
  Regex.exec re s = Some caps ->
  exists m s' cs, Regex.Match re s [] m s' cs /\ caps = (0, m) :: cs.
Proof.
  unfold Regex.exec. intros (m & s' & cs & HM & [= <-])%run_sound. by exists m, s', cs.
Qed.

Lemma exec_Recognises re s : is_Some (Regex.exec re s) <-> Regex.Recognises re s.
Proof.
  split.
  - intros [caps (m & s' & cs & HM & _)%exec_Some]. by exists m, s', cs.
  - intros (m & s' & cs & HM). by apply (run_complete _ _ _ _ _ _ HM).
Qed.

(** ** The subject pattern *)

Lemma Match_lit_inv c s cs m s' cs' :
  Regex.Match (Regex.lit c) s cs m s' cs' ->
  s = String c s' /\ m = String c EmptyString /\ cs' = cs.
Proof.
  unfold Regex.lit. inversion 1 as [p d ? ? Hd| | | | | | |]; subst.
  apply Ascii.eqb_eq in Hd as ->. done.
Qed.

Lemma Match_default_shape s m s' cs :
  Regex.Match RE_DEFAULT_PATTERN s [] m s' cs ->
  exists tag scope message,
    SubjectShape s tag scope message /\
    Regex.group 1 cs = Some tag /\ Regex.group 2 cs = scope /\
    Regex.group 3 cs = Some message.
Proof.
  unfold RE_DEFAULT_PATTERN. intros H.
  inversion H as [| | |? ? ? ? tag s1 cs1 m1 ? ? Hg1 Hrest| | | |]; subst; clear H.
  inversion Hg1 as [| | | | | |? ? ? ? ? ? ? Hp|]; subst; clear Hg1.
  inversion Hp as [| |? ? r1 ? Htag Hkind| | | | |]; subst; clear Hp.
  inversion Hrest as [| | |? ? ? ? mo s2 cs2 m2 ? ? Hopt Hrest2| | | |]; subst; clear Hrest.
  inversion Hrest2 as [| | |? ? ? ? ? s3 cs3 m3 ? ? Hcolon Hrest3| | | |]; subst; clear Hrest2.
  apply Match_lit_inv in Hcolon as (-> & -> & ->).
  inversion Hrest3 as [| | |? ? ? ? ? s4 cs4 m4 ? ? Hsp Hrest4| | | |]; subst; clear Hrest3.
  apply Match_lit_inv in Hsp as (-> & -> & ->).
  inversion Hrest4 as [| | |? ? ? ? message s5 cs5 m5 ? ? Hg3 Heos| | | |]; subst; clear Hrest4.
  inversion Heos; subst; clear Heos.
  inversion Hg3 as [| | | | | |? ? ? ? ? ? ? Hstar|]; subst; clear Hg3.
  inversion Hstar as [|? ? ? ? Hmsg| | | | | |]; subst; clear Hstar.
  inversion Hopt as [| | | |? ? ? ? ? ? Hscope|? ? ?| |]; subst; clear Hopt.
  - inversion Hscope as [| | |? ? ? ? ? t1 ct1 ? ? ? Hopen Hscope2| | | |]; subst; clear Hscope.
    apply Match_lit_inv in Hopen as (-> & -> & ->).
    inversion Hscope2 as [| | |? ? ? ? scope t2 ct2 ? ? ? Hg2 Hclose| | | |]; subst; clear Hscope2.
    apply Match_lit_inv in Hclose as (-> & -> & ->).
    inversion Hg2 as [| | | | | |? ? ? ? ? ? ? Hp2|]; subst; clear Hg2.
    inversion Hp2 as [| |? ? ? ? Hne Hdot| | | | |]; subst; clear Hp2.
    exists tag, (Some scope), message. split; [|done].
    apply Shape_scoped; try done.
    by rewrite append_nil_r.
  - exists tag, None, message. split; [|done].
    apply Shape_unscoped; try done.
    by rewrite append_nil_r.
Qed.


Section run_equations.
Context {X : Type}.
Implicit Types (K : string -> string -> Regex.captures -> option X).

Lemma run_Seq r1 r2 s cs K :
  Regex.run (r1 >> r2)%re s cs K =
  Regex.run r1 s cs (fun m1 s1 cs1 =>
    Regex.run r2 s1 cs1 (fun m2 s2 cs2 => K (m1 +:+ m2) s2 cs2)).
Proof. reflexivity. Qed.




Lemma run_lit c s cs K :
  Regex.run (Regex.lit c) s cs K =
  match s with
  | String d s' => if Ascii.eqb c d then K (String d EmptyString) s' cs else None
  | EmptyString => None
  end.
Proof. reflexivity. Qed.
End run_equations.





(** ** Commit classifier *)

(** A string is none of the strings of a literal list. *)
Ltac solve_not_elem :=
  let H := fresh in
  intros H;
  repeat (apply elem_of_cons in H as [H|H]; [discriminate H|]);
  by apply elem_of_nil in H.

Lemma getOwn_None {A} key (o : JsObject.t A) :
  key ∉ map fst o -> JsObject.getOwn key o = None.
Proof.
  induction o as [|[k v] o IH]; simpl; [done|].
  intros Hnot. destruct (decide (k = key)) as [->|Hne].
  - exfalso. apply Hnot. by left.
  - apply IH. intros Hin. apply Hnot. by right.
Qed.

Lemma split_from_not_nil sep skip pending s : Regex.split_from sep skip pending s <> [].
Proof.
  revert skip pending. induction s as [|c s IH]; intros skip pending; simpl; [done|].
  destruct skip; [|apply IH].
  destruct (Regex.run sep _ _ _) as [[|??]|]; [destruct pending| |]; done || apply IH.
Qed.

Lemma exec_default_shape s caps :
  Regex.exec RE_DEFAULT_PATTERN s = Some caps ->
  exists tag message,
    Regex.group 1 caps = Some tag /\ Regex.group 3 caps = Some message /\
    SubjectShape s tag (Regex.group 2 caps) message.
Proof.
  intros (m & s' & cs & HM & ->)%exec_Some.
  apply Match_default_shape in HM as (tag & scope & message & Hshape & H1 & H2 & H3).
  exists tag, message. simpl. by subst.
Qed.

Lemma exec_default_scope_nonempty s caps scope :
  Regex.exec RE_DEFAULT_PATTERN s = Some caps ->
  Regex.group 2 caps = Some scope -> scope <> EmptyString.
Proof.
  intros (tag & message & _ & _ & Hshape)%exec_default_shape Hscope.
  rewrite Hscope in Hshape. by inversion Hshape.
Qed.





(** C4, amended.  When the subject has the shape of the pattern and its kind
    is neither in the severity table nor the name of a member of
    [Object.prototype], classification returns [skipped_commit] if the
    subject has no scope, or the wildcard scope while no module is known, and
    [unknown_commit] citing the kind otherwise. *)
Theorem unknown_kind_classification
    (commit : Commit) (workspaceModules : list WorkspaceModule)
    (caps : Regex.captures) (tag : string) :
  Regex.exec RE_DEFAULT_PATTERN (subject commit) = Some caps ->
  Regex.group 1 caps = Some tag ->
  tag ∉ [ "BREAKING"; "feat"; "deprecation"; "fix"; "perf"; "docs"; "style";
           "refactor"; "test"; "chore" ] ->
  JsObject.inherited tag = false ->
  defaultParseCommitMessage commit workspaceModules =
  if bool_decide (Regex.group 2 caps = None
                  \/ (Regex.group 2 caps = Some "*" /\ workspaceModules = []))
  then Diag {| d_type := skipped_commit; d_commit := commit;
               d_reason := "The commit message does not specify a module." |}
  else Diag {| d_type := unknown_commit; d_commit := commit;
               d_reason := "Unknown commit tag: " +:+ tag +:+ "." |}.
Proof.
  intros Hexec Htag Hnot Hinh. unfold defaultParseCommitMessage.
  rewrite Hexec, Htag. simpl default.
  assert (JsString.includes DEFAULT_RANGE_REQUIRED tag = false) as Hreq.
  { apply bool_decide_eq_false. intros Hin. apply Hnot.
    revert Hin. unfold DEFAULT_RANGE_REQUIRED. rewrite !elem_of_cons, !elem_of_nil.
    intros [->|[->|[->|[->|[->|[]]]]]]; tauto. }
  assert (TAG_TO_VERSION_get tag = None) as Hget.
  { unfold TAG_TO_VERSION_get. rewrite getOwn_None, Hinh; done. }
  destruct (Regex.group 2 caps) as [scope|] eqn:Hscope.
  - destruct (decide (scope = "*")) as [->|Hw].
    + rewrite (bool_decide_eq_true_2 (Some "*" = Some "*")) by done.
      destruct workspaceModules as [|w ws].
      * rewrite bool_decide_eq_true_2 by (by right). simpl. by rewrite Hreq.
      * rewrite bool_decide_eq_false_2 by (intros [[=]|[_ [=]]]). simpl. by rewrite Hget.
    + rewrite (bool_decide_eq_false_2 (Some scope = Some "*")) by congruence.
      rewrite bool_decide_eq_false_2 by (intros [[=]|[[= ->] _]]; done).
      pose proof (exec_default_scope_nonempty _ _ _ Hexec Hscope) as Hne.
      destruct scope as [|c scope]; [done|].
      destruct (Regex.split RE_SCOPE_SEPARATOR (String c scope)) as [|m ms] eqn:Hsplit.
      { by apply split_from_not_nil in Hsplit. }
      by rewrite Hget.
  - rewrite (bool_decide_eq_false_2 (None = Some "*")) by done.
    rewrite bool_decide_eq_true_2 by (by left). by rewrite Hreq.
Qed.

Lemma unknown_kind_classification_witness :
  defaultParseCommitMessage
    {| subject := "hey(foo): update"; body := EmptyString; hash := EmptyString |} [] =
  Diag {| d_type := unknown_commit;
          d_commit := {| subject := "hey(foo): update"; body := EmptyString;
                         hash := EmptyString |};
          d_reason := "Unknown commit tag: hey." |}.
Proof.
  apply (unknown_kind_classification
           {| subject := "hey(foo): update"; body := EmptyString; hash := EmptyString |} []
           [(0, "hey(foo): update"); (3, "update"); (2, "foo"); (1, "hey")] "hey").
  - vm_compute. reflexivity.
  - reflexivity.
  - solve_not_elem.
  - reflexivity.
Defined.

(** C4: a subject of the shape of the grammar with a kind outside the table
    that is classified as skipped, not as unknown. *)
Lemma unknown_kind_counterexample :
  ~ (forall commit workspaceModules caps tag,
       Regex.exec RE_DEFAULT_PATTERN (subject commit) = Some caps ->
       Regex.group 1 caps = Some tag ->
       tag ∉ [ "BREAKING"; "feat"; "deprecation"; "fix"; "perf"; "docs"; "style";
                "refactor"; "test"; "chore" ] ->
       exists reason,
         defaultParseCommitMessage commit workspaceModules =
         Diag {| d_type := unknown_commit; d_commit := commit; d_reason := reason |}).
Proof.
  intros H.
  destruct (H {| subject := "bogus: x"; body := EmptyString; hash := EmptyString |} []
              [(0, "bogus: x"); (3, "x"); (1, "bogus")] "bogus")
    as [reason Hr].
  - by vm_compute.
  - reflexivity.
  - solve_not_elem.
  - vm_compute in Hr. discriminate Hr.
Qed.

(** C7.  When the subject has the shape of the pattern with a kind of the
    severity table: without scope, classification returns [missing_range]
    (the spec's missing_scope) for BREAKING, feat, fix, perf and deprecation
    and [skipped_commit] for every other kind of the table; with the
    wildcard scope it emits one proposal per known module, in their order,
    each with the kind, its severity and the commit. *)
Theorem scope_rules
    (commit : Commit) (workspaceModules : list WorkspaceModule)
    (caps : Regex.captures) (tag : string) (severity : VersionUpdate) :
  Regex.exec RE_DEFAULT_PATTERN (subject commit) = Some caps ->
  Regex.group 1 caps = Some tag ->
  (tag, severity) ∈ TAG_TO_VERSION ->
  (Regex.group 2 caps = None ->
   defaultParseCommitMessage commit workspaceModules =
   Diag {| d_type :=
             if bool_decide (tag ∈ ["BREAKING"; "feat"; "fix"; "perf"; "deprecation"])
             then missing_range else skipped_commit;
           d_commit := commit;
           d_reason := "The commit message does not specify a module." |})
  /\ (Regex.group 2 caps = Some "*" ->
      proposals (defaultParseCommitMessage commit workspaceModules) =
      map (fun w => {| vb_module := wm_name w; vb_tag := tag;
                       vb_version := Version severity; vb_commit := commit |})
          workspaceModules
      /\ (workspaceModules <> [] ->
          defaultParseCommitMessage commit workspaceModules =
          VersionBumps
            (map (fun w => {| vb_module := wm_name w; vb_tag := tag;
                              vb_version := Version severity; vb_commit := commit |})
                 workspaceModules))).
Proof.
  intros Hexec Htag Hin. unfold defaultParseCommitMessage.
  rewrite Hexec, Htag. simpl default.
  assert (TAG_TO_VERSION_get tag = Some (Version severity)) as Hget.
  { revert Hin. unfold TAG_TO_VERSION. rewrite !elem_of_cons, elem_of_nil.
    intros [[= -> ->]|[[= -> ->]|[[= -> ->]|[[= -> ->]|[[= -> ->]|[[= -> ->]
           |[[= -> ->]|[[= -> ->]|[[= -> ->]|[[= -> ->]|[]]]]]]]]]]]; reflexivity. }
  split.
  - intros ->. rewrite (bool_decide_eq_false_2 (None = Some "*")) by done.
    unfold JsString.includes, DEFAULT_RANGE_REQUIRED. by case_bool_decide.
  - intros ->. rewrite (bool_decide_eq_true_2 (Some "*" = Some "*")) by done.
    destruct workspaceModules as [|w ws].
    + split; [|done]. simpl. by destruct (JsString.includes _ _).
    + simpl map. rewrite Hget. simpl. split; [|intros _]; by rewrite map_map.
Qed.

Lemma scope_rules_witness :
  defaultParseCommitMessage
    {| subject := "fix: update"; body := EmptyString; hash := EmptyString |} [] =
  Diag {| d_type := missing_range;
          d_commit := {| subject := "fix: update"; body := EmptyString;
                         hash := EmptyString |};
          d_reason := "The commit message does not specify a module." |}.
Proof.
  refine (proj1 (scope_rules
            {| subject := "fix: update"; body := EmptyString; hash := EmptyString |} []
            [(0, "fix: update"); (3, "update"); (1, "fix")] "fix" Patch _ _ _) _).
  - vm_compute. reflexivity.
  - reflexivity.
  - unfold TAG_TO_VERSION. do 3 right. left.
  - reflexivity.
Defined.

(** ** Sorting *)

Lemma Array_sort_insert_Permutation {A} (cmp : A -> A -> Z) x l :
  Array_sort_insert cmp x l ≡ₚ x :: l.
Proof.
  induction l as [|y l IH]; simpl; [done|].
  destruct (cmp x y <=? 0)%Z; [done|]. rewrite IH. apply perm_swap.
Qed.

Lemma Array_sort_Permutation {A} (cmp : A -> A -> Z) l : Array_sort cmp l ≡ₚ l.
Proof.
  induction l as [|x l IH]; simpl; [done|].
  by rewrite Array_sort_insert_Permutation, IH.
Qed.

Section sort_by.
Context {A : Type} (cmp : A -> A -> Z) (le : A -> A -> Prop).
Hypothesis cmp_le : forall x y, (cmp x y <= 0)%Z -> le x y.
Hypothesis cmp_gt : forall x y, (cmp x y > 0)%Z -> le y x.

Lemma Array_sort_insert_Sorted x l :
  Sorted le l -> Sorted le (Array_sort_insert cmp x l).
Proof.
  induction 1 as [|y l Hl IH Hhd]; simpl; [by repeat constructor|].
  destruct (Z.leb_spec (cmp x y) 0) as [Hxy|Hxy].
  - constructor; [by constructor|]. constructor. by apply cmp_le.
  - constructor; [done|].
    destruct l as [|z l]; simpl.
    + constructor. apply cmp_gt. lia.
    + destruct (cmp x z <=? 0)%Z; constructor.
      * apply cmp_gt. lia.
      * by inversion Hhd.
Qed.

Lemma Array_sort_Sorted l : Sorted le (Array_sort cmp l).
Proof.
  induction l as [|x l IH]; simpl; [constructor|].
  by apply Array_sort_insert_Sorted.
Qed.
End sort_by.

Section sort_stable.
Context {A : Type} (cmp : A -> A -> Z) (key : A -> Z).
Hypothesis cmp_key : forall x y, (cmp x y <= 0)%Z <-> (key x <= key y)%Z.

Lemma Array_sort_insert_class i x l :
  filter (fun y => key y = i) (Array_sort_insert cmp x l) =
  filter (fun y => key y = i) (x :: l).
Proof.
  induction l as [|y l IH]; simpl; [done|].
  destruct (Z.leb_spec (cmp x y) 0) as [Hxy|Hxy]; [done|].
  assert (key y < key x)%Z as Hlt.
  { destruct (Z.le_gt_cases (key x) (key y)) as [Hle|]; [|lia].
    apply cmp_key in Hle. lia. }
  rewrite (filter_cons _ y), IH, !filter_cons.
  destruct (decide (key y = i)), (decide (key x = i)); try done. lia.
Qed.

(** Stability: the elements of one class keep their order. *)
Lemma Array_sort_class i l :
  filter (fun y => key y = i) (Array_sort cmp l) = filter (fun y => key y = i) l.
Proof.
  induction l as [|x l IH]; simpl; [done|].
  rewrite Array_sort_insert_class, !filter_cons, IH. done.
Qed.
End sort_stable.

(** ** The order of strings *)

Lemma Ascii_compare_N a b :
  Ascii.compare a b = N.compare (N_of_ascii a) (N_of_ascii b).
Proof. reflexivity. Qed.

Lemma String_compare_lt_trans a b c :
  String.compare a b = Lt -> String.compare b c = Lt -> String.compare a c = Lt.
Proof.
  revert b c. induction a as [|x a IH]; intros [|y b] [|z c]; simpl; try done.
  rewrite !Ascii_compare_N.
  destruct (N.compare_spec (N_of_ascii x) (N_of_ascii y)) as [Hxy|Hxy|Hxy]; [| |done];
    destruct (N.compare_spec (N_of_ascii y) (N_of_ascii z)) as [Hyz|Hyz|Hyz]; try done;
    destruct (N.compare_spec (N_of_ascii x) (N_of_ascii z)) as [Hxz|Hxz|Hxz];
    try done; try lia.
  apply IH.
Qed.

Lemma String_compare_refl a : String.compare a a = Eq.
Proof.
  induction a as [|x a IH]; simpl; [done|].
  by rewrite Ascii_compare_N, N.compare_refl.
Qed.

Global Instance JsString_lt_trans : Transitive JsString.lt.
Proof. intros a b c. apply String_compare_lt_trans. Qed.

Global Instance JsString_lt_irrefl : Irreflexive JsString.lt.
Proof. intros a Ha. unfold JsString.lt in Ha. by rewrite String_compare_refl in Ha. Qed.

Lemma String_compare_not_Gt_trans a b c :
  String.compare a b <> Gt -> String.compare b c <> Gt -> String.compare a c <> Gt.
Proof.
  intros H1 H2.
  destruct (String.compare a b) eqn:Hab; [| |done].
  - apply String.compare_eq_iff in Hab as ->. done.
  - destruct (String.compare b c) eqn:Hbc; [| |done].
    + apply String.compare_eq_iff in Hbc as ->. by rewrite Hab.
    + by rewrite (String_compare_lt_trans _ _ _ Hab Hbc).
Qed.

(** ** Bump aggregator *)

Lemma getOwn_map {A} (g : string -> A) key keys :
  JsObject.getOwn key (map (fun k => (k, g k)) keys) =
  if decide (key ∈ keys) then Some (g key) else None.
Proof.
  induction keys as [|k keys IH]; simpl; [done|].
  destruct (decide (k = key)) as [->|Hne].
  - rewrite decide_True; [done|by left].
  - rewrite IH. destruct (decide (key ∈ keys)) as [Hin|Hnot].
    + rewrite decide_True; [done|by right].
    + rewrite decide_False; [done|]. rewrite elem_of_cons. by intros [->|?].
Qed.

Lemma set_map_fresh {A} (g : string -> A) key v keys :
  key ∉ keys ->
  JsObject.set key v (map (fun k => (k, g k)) keys) =
  map (fun k => (k, g k)) keys ++ [(key, v)].
Proof.
  induction keys as [|k keys IH]; simpl; [done|].
  rewrite not_elem_of_cons. intros [Hne Hnot].
  rewrite decide_False by done. by rewrite IH.
Qed.

Lemma set_map_present {A} (g : string -> A) key v keys :
  NoDup keys -> key ∈ keys ->
  JsObject.set key v (map (fun k => (k, g k)) keys) =
  map (fun k => (k, if decide (k = key) then v else g k)) keys.
Proof.
  induction 1 as [|k keys Hnot Hnd IH]; simpl; [by intros ?%elem_of_nil|].
  destruct (decide (k = key)) as [->|Hne].
  - intros _. f_equal. apply map_ext_in. intros k Hk%list_elem_of_In.
    rewrite decide_False; [done|]. by intros ->.
  - rewrite elem_of_cons. intros [->|Hin]; [done|]. by rewrite IH.
Qed.

Lemma bumpsOf_snoc module bumps b :
  bumpsOf module (bumps ++ [b]) =
  bumpsOf module bumps ++ (if decide (vb_module b = module) then [b] else []).
Proof.
  unfold bumpsOf. by rewrite filter_app.
Qed.

Lemma bumpsOf_nil module bumps :
  module ∉ map vb_module bumps -> bumpsOf module bumps = [].
Proof.
  intros Hnot. unfold bumpsOf. induction bumps as [|b bumps IH]; [done|].
  simpl in Hnot. apply not_elem_of_cons in Hnot as [Hne Hnot].
  rewrite filter_cons, decide_False by done. by apply IH.
Qed.

Lemma maxSeverity_Major versions : maxSeverity versions = Major <-> Version Major ∈ versions.
Proof. unfold maxSeverity. repeat case_bool_decide; naive_solver. Qed.

Lemma maxSeverity_Minor versions :
  maxSeverity versions = Minor <-> (Version Major ∉ versions) /\ (Version Minor ∈ versions).
Proof. unfold maxSeverity. repeat case_bool_decide; intuition congruence. Qed.

Lemma maxVersion_snoc versions v :
  maxVersion (Version (maxSeverity versions)) v = maxSeverity (versions ++ [v]).
Proof.
  unfold maxVersion.
  destruct (maxSeverity versions) eqn:Hmax.
  - apply maxSeverity_Major in Hmax. simpl. symmetry. apply maxSeverity_Major.
    rewrite elem_of_app. by left.
  - apply maxSeverity_Minor in Hmax as [HM Hm].
    rewrite (bool_decide_eq_false_2 (Version Minor = Version Major)) by done.
    rewrite (bool_decide_eq_true_2 (Version Minor = Version Minor)) by done.
    simpl. case_bool_decide as Hv; symmetry.
    + subst. apply maxSeverity_Major. rewrite elem_of_app, list_elem_of_singleton. by right.
    + apply maxSeverity_Minor. rewrite !elem_of_app, !list_elem_of_singleton.
      intuition congruence.
  - rewrite (bool_decide_eq_false_2 (Version Patch = Version Major)) by done.
    rewrite (bool_decide_eq_false_2 (Version Patch = Version Minor)) by done.
    simpl. unfold maxSeverity in *.
    rewrite !(bool_decide_ext _ _ (elem_of_app _ _ _)).
    repeat case_bool_decide; try done;
      rewrite ?list_elem_of_singleton in *; intuition congruence.
  - unfold maxSeverity in Hmax. repeat case_bool_decide; done.
Qed.

Lemma maxVersion_self v : maxVersion v v = maxSeverity [v].
Proof.
  unfold maxVersion, maxSeverity.
  rewrite !(bool_decide_ext _ _ (list_elem_of_singleton _ _)).
  rewrite !orb_diag.
  rewrite (bool_decide_ext (Version Major = v) (v = Version Major)) by naive_solver.
  rewrite (bool_decide_ext (Version Minor = v) (v = Version Minor)) by naive_solver.
  done.
Qed.

Lemma summarized_nil : summarized [] [].
Proof.
  exists []. repeat split; try done; try constructor.
Qed.

Lemma rawSummary_snoc_other done b k :
  k <> vb_module b -> rawSummary (done ++ [b]) k = rawSummary done k.
Proof.
  intros Hne. unfold rawSummary. rewrite bumpsOf_snoc.
  rewrite decide_False by done. by rewrite app_nil_r.
Qed.

Lemma summarizeStep_Ok done o b :
  summarized done o -> JsObject.inherited (vb_module b) = false ->
  exists o', summarizeStep o b = Ok o' /\ summarized (done ++ [b]) o'.
Proof.
  intros (keys & -> & Hnd & Hkeys & Hinh) Hb. unfold summarizeStep.
  rewrite getOwn_map. destruct (decide (vb_module b ∈ keys)) as [Hin|Hnot].
  - eexists. split; [done|]. exists keys. repeat split; try done.
    + rewrite set_map_present by done. apply map_ext_in. intros k _.
      destruct (decide (k = vb_module b)) as [->|Hne].
      * unfold rawSummary at 4. rewrite bumpsOf_snoc, decide_True by done.
        simpl. rewrite maxVersion_snoc, !map_app. done.
      * by rewrite rawSummary_snoc_other.
    + rewrite Hkeys, map_app, elem_of_app. by left.
    + rewrite Hkeys, map_app, elem_of_app. intros [?|Hk]; [done|].
      simpl in Hk. apply list_elem_of_singleton in Hk as ->. by apply Hkeys.
  - rewrite Hb. eexists. split; [done|]. exists (keys ++ [vb_module b]).
    repeat split.
    + rewrite set_map_fresh by done. rewrite map_app. f_equal.
      * apply map_ext_in. intros k Hk%list_elem_of_In.
        rewrite rawSummary_snoc_other; [done|]. by intros ->.
      * simpl. unfold rawSummary. rewrite bumpsOf_snoc, decide_True by done.
        rewrite bumpsOf_nil by (by rewrite <-Hkeys). simpl.
        by rewrite maxVersion_self.
    + apply NoDup_app. repeat split; [done| |apply NoDup_singleton].
      intros k Hk ->%list_elem_of_singleton. done.
    + rewrite elem_of_app, map_app, elem_of_app, Hkeys. simpl.
      by rewrite !list_elem_of_singleton.
    + rewrite elem_of_app, map_app, elem_of_app, Hkeys. simpl.
      by rewrite !list_elem_of_singleton.
    + apply Forall_app. split; [done|]. by constructor.
Qed.

Lemma summarizeStep_Throw done o b :
  summarized done o -> JsObject.inherited (vb_module b) = true ->
  summarizeStep o b =
  Throw (TypeError "Cannot read properties of undefined (reading 'push')").
Proof.
  intros (keys & -> & Hnd & Hkeys & Hinh) Hb. unfold summarizeStep.
  rewrite getOwn_map. destruct (decide (vb_module b ∈ keys)) as [Hin|Hnot].
  - rewrite Forall_forall in Hinh. rewrite (Hinh _ Hin) in Hb. done.
  - by rewrite Hb.
Qed.

Lemma summarizeLoop_Ok done o bumps :
  summarized done o ->
  Forall (fun b => JsObject.inherited (vb_module b) = false) bumps ->
  exists o', summarizeLoop o bumps = Ok o' /\ summarized (done ++ bumps) o'.
Proof.
  intros Ho Hbumps. revert done o Ho.
  induction Hbumps as [|b bumps Hb _ IH]; intros done o Ho; simpl.
  - exists o. by rewrite app_nil_r.
  - destruct (summarizeStep_Ok _ _ _ Ho Hb) as (o1 & -> & Ho1). simpl.
    destruct (IH _ _ Ho1) as (o' & -> & Ho'). exists o'. split; [done|].
    by rewrite <-app_assoc in Ho'.
Qed.

Lemma summarizeLoop_Throw done o bumps :
  summarized done o ->
  Exists (fun b => JsObject.inherited (vb_module b) = true) bumps ->
  summarizeLoop o bumps =
  Throw (TypeError "Cannot read properties of undefined (reading 'push')").
Proof.
  intros Ho Hbumps. revert done o Ho.
  induction bumps as [|b bumps IH]; intros done o Ho; [by inversion Hbumps|].
  simpl. destruct (JsObject.inherited (vb_module b)) eqn:Hb.
  - by rewrite (summarizeStep_Throw _ _ _ Ho Hb).
  - destruct (summarizeStep_Ok _ _ _ Ho Hb) as (o1 & -> & Ho1). simpl.
    apply (IH ltac:(inversion Hbumps; [congruence|done]) _ _ Ho1).
Qed.

Lemma insertIndexed_Permutation {A} i (v : A) l :
  JsObject.insertIndexed i v l ≡ₚ (i, v) :: l.
Proof.
  induction l as [|[j w] l IH]; simpl; [done|].
  destruct (i <=? j)%N; [done|]. rewrite IH. apply perm_swap.
Qed.

(** [Object.values] lists every own property once. *)
Lemma values_Permutation {A} (o : JsObject.t A) : JsObject.values o ≡ₚ map snd o.
Proof.
  unfold JsObject.values. induction o as [|[k v] o IH]; simpl; [done|].
  destruct (JsObject.arrayIndex k) as [i|].
  - rewrite insertIndexed_Permutation. simpl. by rewrite IH.
  - rewrite <-Permutation_middle. by rewrite IH.
Qed.

Lemma compareModule_le a b :
  (compareModule a b <= 0)%Z -> String.compare (vs_module a) (vs_module b) <> Gt.
Proof.
  unfold compareModule, String.ltb.
  destruct (String.compare (vs_module a) (vs_module b)); done || lia.
Qed.

Lemma compareModule_gt a b :
  (compareModule a b > 0)%Z -> String.compare (vs_module b) (vs_module a) <> Gt.
Proof.
  unfold compareModule, String.ltb.
  rewrite (String.compare_antisym (vs_module b) (vs_module a)).
  destruct (String.compare (vs_module a) (vs_module b)); simpl; intros ?; done || lia.
Qed.

Lemma compareTagPriority_key a b :
  (compareTagPriority a b <= 0)%Z <-> (priority a <= priority b)%Z.
Proof.
  unfold compareTagPriority, priority. repeat case_decide; lia.
Qed.

Lemma StronglySorted_strict {A B} (R : relation A) (R' : relation B) (f : A -> B) l :
  (forall x y, R x y -> f x <> f y -> R' (f x) (f y)) ->
  StronglySorted R l -> NoDup (map f l) -> StronglySorted R' (map f l).
Proof.
  intros HR. induction 1 as [|x l Hl IH Hx]; simpl; [constructor|].
  intros [Hnot Hnd]%NoDup_cons. constructor; [by apply IH|].
  apply Forall_forall. intros y (z & -> & Hz)%list_elem_of_fmap.
  rewrite Forall_forall in Hx. apply HR; [by apply Hx|].
  intros Heq. apply Hnot. rewrite Heq. by apply list_elem_of_fmap_2.
Qed.

(** The outcome of the aggregator when no module names a member of
    [Object.prototype]: one summary per module of the bumps, in the strict
    order of their names. *)
Lemma summarize_Ok bumps :
  Forall (fun b => JsObject.inherited (vb_module b) = false) bumps ->
  exists out,
    summarizeVersionBumpsByModule bumps = Ok out /\
    out = map (finalSummary bumps) (map vs_module out) /\
    StronglySorted JsString.lt (map vs_module out) /\
    forall m, m ∈ map vs_module out <-> m ∈ map vb_module bumps.
Proof.
  intros Hbumps. unfold summarizeVersionBumpsByModule.
  destruct (summarizeLoop_Ok [] [] bumps summarized_nil Hbumps)
    as (o & -> & keys & -> & Hnd & Hkeys & _).
  simpl. eexists. split; [done|].
  set (out := Array_sort compareModule _).
  assert (out ≡ₚ map (finalSummary bumps) keys) as Hperm.
  { unfold out. rewrite Array_sort_Permutation, values_Permutation.
    rewrite !map_map. done. }
  assert (map vs_module out ≡ₚ keys) as Hmods.
  { rewrite Hperm, map_map. rewrite (map_ext _ id) by done. by rewrite map_id. }
  repeat split.
  - rewrite map_map. rewrite <-(map_id out) at 1. apply map_ext_in.
    intros s Hs%list_elem_of_In. rewrite Hperm in Hs.
    apply list_elem_of_fmap in Hs as (k & -> & _). done.
  - apply (StronglySorted_strict
             (fun a b => String.compare (vs_module a) (vs_module b) <> Gt)).
    + intros a b Hle Hne. unfold JsString.lt.
      destruct (String.compare (vs_module a) (vs_module b)) eqn:Hc; try done.
      by apply String.compare_eq_iff in Hc.
    + apply Sorted_StronglySorted.
      { intros a b c. apply String_compare_not_Gt_trans. }
      apply Array_sort_Sorted; [apply compareModule_le|apply compareModule_gt].
    + by rewrite Hmods.
  - rewrite Hmods. apply Hkeys.
  - rewrite Hmods. apply Hkeys.
Qed.

Lemma summarize_Throw bumps :
  Exists (fun b => JsObject.inherited (vb_module b) = true) bumps ->
  summarizeVersionBumpsByModule bumps =
  Throw (TypeError "Cannot read properties of undefined (reading 'push')").
Proof.
  intros Hbumps. unfold summarizeVersionBumpsByModule.
  by rewrite (summarizeLoop_Throw [] [] bumps summarized_nil Hbumps).
Qed.

Lemma inherited_cases bumps :
  Forall (fun b => JsObject.inherited (vb_module b) = false) bumps \/
  Exists (fun b => JsObject.inherited (vb_module b) = true) bumps.
Proof.
  induction bumps as [|b bumps [IH|IH]].
  - left. constructor.
  - destruct (JsObject.inherited (vb_module b)) eqn:Hb.
    + right. by left.
    + left. by constructor.
  - right. by right.
Qed.

Lemma summarize_Ok_inv bumps out :
  summarizeVersionBumpsByModule bumps = Ok out ->
  Forall (fun b => JsObject.inherited (vb_module b) = false) bumps.
Proof.
  intros Hout. destruct (inherited_cases bumps) as [H|H]; [done|].
  by rewrite (summarize_Throw _ H) in Hout.
Qed.

Lemma sorted_modules_unique (l1 l2 : list string) :
  StronglySorted JsString.lt l1 -> StronglySorted JsString.lt l2 ->
  (forall m, m ∈ l1 <-> m ∈ l2) -> l1 = l2.
Proof.
  intros H1 H2 Hsame.
  assert (forall l, StronglySorted JsString.lt l -> NoDup l) as Hnd.
  { induction 1 as [|x l _ IH Hx]; constructor; [|done].
    intros Hin. rewrite Forall_forall in Hx.
    by apply (irreflexivity JsString.lt x), Hx. }
  apply (StronglySorted_unique_strong JsString.lt); [|done..|].
  - intros x y _ _ Hxy Hyx. destruct (irreflexivity JsString.lt x). by etrans.
  - apply NoDup_Permutation; auto.
Qed.

Lemma maxSeverity_Permutation l1 l2 : l1 ≡ₚ l2 -> maxSeverity l1 = maxSeverity l2.
Proof.
  intros Hperm. unfold maxSeverity.
  rewrite (bool_decide_ext (Version Major ∈ l1) (Version Major ∈ l2)) by by rewrite Hperm.
  rewrite (bool_decide_ext (Version Minor ∈ l1) (Version Minor ∈ l2)) by by rewrite Hperm.
  done.
Qed.

Lemma maxSeverity_attained versions :
  versions <> [] -> exists v, v ∈ versions /\ asSeverity v = maxSeverity versions.
Proof.
  intros Hne. unfold maxSeverity.
  case_bool_decide as HM; [by exists (Version Major)|].
  case_bool_decide as Hm; [by exists (Version Minor)|].
  destruct versions as [|v versions]; [done|]. exists v. split; [by left|].
  destruct v as [[]|]; try done.
  - exfalso. apply HM. by left.
  - exfalso. apply Hm. by left.
Qed.

Lemma maxSeverity_bound versions v :
  v ∈ versions -> severityRank (asSeverity v) <= severityRank (maxSeverity versions).
Proof.
  intros Hv. unfold maxSeverity. repeat case_bool_decide; simpl.
  - destruct v as [[]|]; simpl; lia.
  - destruct v as [[]|]; simpl; try lia. done.
  - destruct v as [[]|]; simpl; try lia; done.
Qed.

Lemma summarize_modules_Permutation bumps bumps' out :
  bumps' ≡ₚ bumps ->
  summarizeVersionBumpsByModule bumps = Ok out ->
  exists out',
    summarizeVersionBumpsByModule bumps' = Ok out' /\
    map vs_module out' = map vs_module out /\
    out' = map (finalSummary bumps') (map vs_module out).
Proof.
  intros Hperm Hout.
  pose proof (summarize_Ok_inv _ _ Hout) as Hbumps.
  destruct (summarize_Ok bumps Hbumps) as (out0 & Hout0 & _ & Hsorted & Hmods).
  rewrite Hout in Hout0. injection Hout0 as <-.
  destruct (summarize_Ok bumps') as (out' & Hout' & Hrep' & Hsorted' & Hmods').
  { by rewrite Hperm. }
  exists out'. split; [done|].
  assert (map vs_module out' = map vs_module out) as Heq.
  { apply sorted_modules_unique; [done..|].
    intros m. rewrite Hmods, Hmods'. by rewrite Hperm. }
  split; [done|]. by rewrite <-Heq.
Qed.

Lemma filter_withTag (i : Z) (bumps : list VersionBump) :
  filter (fun c => priority c = i) (map withTag bumps)
  = map withTag (filter (fun b => JsString.indexOf TAG_PRIORITY (vb_tag b) = i) bumps).
Proof.
  induction bumps as [|b bumps IH]; [done|].
  simpl. rewrite !filter_cons. unfold priority at 1. simpl.
  destruct (decide (JsString.indexOf TAG_PRIORITY (vb_tag b) = i)); simpl; by rewrite IH.
Qed.

Lemma list_filter_filter_r {A} (P Q : A -> Prop) `{forall x, Decision (P x)}
    `{forall x, Decision (Q x)} (l : list A) :
  filter Q (filter P l) = filter (fun x => P x /\ Q x) l.
Proof.
  induction l as [|x l IH]; [done|].
  rewrite !filter_cons. destruct (decide (P x)) as [HP|HP].
  - rewrite filter_cons. destruct (decide (Q x)) as [HQ|HQ].
    + rewrite decide_True by done. by rewrite IH.
    + rewrite decide_False by tauto. done.
  - rewrite decide_False by tauto. done.
Qed.

(** C5.  Whenever the aggregator returns, its output lists one summary per
    module of the bumps in the strict code-unit order of the module names,
    the same list of names for every order of the input; in each summary the
    commits are ordered by the place of their tag in the table (BREAKING,
    feat, deprecation, fix, perf, docs, style, refactor, test, chore) and
    the commits of one tag keep the order in which they were met: the
    entries of a summary are the commits of the bumps of its module, each
    with the tag of its bump, and the entries of one place in the table are
    those of the bumps of that place, in the order of the input.  It returns
    exactly when no module is named like a member of [Object.prototype]. *)
Theorem aggregator_output_order (bumps : list VersionBump) :
  ((exists out, summarizeVersionBumpsByModule bumps = Ok out) <->
   Forall (fun b => JsObject.inherited (vb_module b) = false) bumps)
  /\ map (JsString.indexOf TAG_PRIORITY)
       [ "BREAKING"; "feat"; "deprecation"; "fix"; "perf"; "docs"; "style";
         "refactor"; "test"; "chore" ]
     = [0; 1; 2; 3; 4; 5; 6; 7; 8; 9]%Z
  /\ forall out, summarizeVersionBumpsByModule bumps = Ok out ->
       StronglySorted JsString.lt (map vs_module out)
       /\ (forall m, m ∈ map vs_module out <-> m ∈ map vb_module bumps)
       /\ (forall bumps', bumps' ≡ₚ bumps ->
             exists out', summarizeVersionBumpsByModule bumps' = Ok out' /\
                          map vs_module out' = map vs_module out)
       /\ (forall s, s ∈ out ->
             Sorted (fun a b => (JsString.indexOf TAG_PRIORITY (cwt_tag a)
                                 <= JsString.indexOf TAG_PRIORITY (cwt_tag b))%Z)
               (vs_commits s)
             /\ (forall c, c ∈ vs_commits s <->
                   exists b, b ∈ bumps /\ vb_module b = vs_module s
                             /\ c = {| cwt_commit := vb_commit b; cwt_tag := vb_tag b |})
             /\ forall i,
                  filter (fun c => JsString.indexOf TAG_PRIORITY (cwt_tag c) = i)
                    (vs_commits s) =
                  map (fun b => {| cwt_commit := vb_commit b; cwt_tag := vb_tag b |})
                    (filter (fun b => vb_module b = vs_module s
                                      /\ JsString.indexOf TAG_PRIORITY (vb_tag b) = i)
                       bumps)).
Proof.
  split; [|split; [reflexivity|]].
  - split.
    + intros [out Hout]. by eapply summarize_Ok_inv.
    + intros (out & Hout & _)%summarize_Ok. by exists out.
  - intros out Hout.
    pose proof (summarize_Ok_inv _ _ Hout) as Hbumps.
    destruct (summarize_Ok bumps Hbumps) as (out0 & Hout0 & Hrep & Hsorted & Hmods).
    rewrite Hout in Hout0. injection Hout0 as <-.
    split; [done|]. split; [done|]. split.
    + intros bumps' Hperm.
      destruct (summarize_modules_Permutation _ _ _ Hperm Hout) as (out' & ? & ? & _).
      by exists out'.
    + intros s Hs. rewrite Hrep in Hs. apply list_elem_of_fmap in Hs as (k & -> & _).
      split; [|split].
      * apply (Array_sort_Sorted compareTagPriority
                 (fun a b => (priority a <= priority b)%Z)).
        -- intros a b. by rewrite compareTagPriority_key.
        -- intros a b Hgt.
           destruct (Z.le_gt_cases (priority b) (priority a)) as [|Hlt]; [done|].
           assert (priority a <= priority b)%Z as Hle%compareTagPriority_key by lia. lia.
      * intros c. simpl.
        rewrite (Array_sort_Permutation compareTagPriority
                   (map withTag (bumpsOf k bumps))).
        rewrite list_elem_of_fmap. unfold bumpsOf. split.
        -- intros (b & -> & (Hm & Hb)%list_elem_of_filter). by exists b.
        -- intros (b & Hb & Hm & ->). exists b. split; [done|].
           by apply list_elem_of_filter.
      * intros i. simpl.
        etrans; [apply (Array_sort_class compareTagPriority priority
                          compareTagPriority_key)|].
        unfold bumpsOf. by rewrite filter_withTag, list_filter_filter_r.
Qed.

(** C9.  For a list of bumps and any permutation of it the aggregator gives
    the same severity to each module (or fails alike), and that severity is
    the maximum, in the order major > minor > patch, of the severities of
    the bumps of the module.  It returns whenever no module is named like a
    member of [Object.prototype]. *)
Theorem severity_is_maximum (bumps bumps' : list VersionBump) :
  bumps ≡ₚ bumps' ->
  mapResult (map (fun s => (vs_module s, vs_version s))) (summarizeVersionBumpsByModule bumps)
  = mapResult (map (fun s => (vs_module s, vs_version s))) (summarizeVersionBumpsByModule bumps')
  /\ (forall out, summarizeVersionBumpsByModule bumps = Ok out ->
        forall s, s ∈ out ->
          (exists b, b ∈ bumps /\ vb_module b = vs_module s /\
                     asSeverity (vb_version b) = vs_version s)
          /\ (forall b, b ∈ bumps -> vb_module b = vs_module s ->
                severityRank (asSeverity (vb_version b)) <= severityRank (vs_version s)))
  /\ (Forall (fun b => JsObject.inherited (vb_module b) = false) bumps ->
      exists out, summarizeVersionBumpsByModule bumps = Ok out /\
        forall b, b ∈ bumps -> vb_module b ∈ map vs_module out).
Proof.
  intros Hperm. split; [|split].
  - destruct (inherited_cases bumps) as [Hok|Hthrow].
    + destruct (summarize_Ok bumps Hok) as (out & Hout & Hrep & _).
      destruct (summarize_modules_Permutation bumps bumps' out) as (out' & Hout' & Hmods & Hrep');
        [done..|].
      rewrite Hout, Hout'. simpl. f_equal.
      rewrite Hrep, Hrep', !map_map. apply map_ext. intros m. simpl. f_equal.
      apply maxSeverity_Permutation. unfold bumpsOf. by rewrite Hperm.
    + rewrite (summarize_Throw _ Hthrow). rewrite summarize_Throw; [done|].
      by rewrite <-Hperm.
  - intros out Hout s Hs.
    pose proof (summarize_Ok_inv _ _ Hout) as Hbumps.
    destruct (summarize_Ok bumps Hbumps) as (out0 & Hout0 & Hrep & _ & Hmods).
    rewrite Hout in Hout0. injection Hout0 as <-.
    assert (vs_module s ∈ map vb_module bumps) as Hin.
    { apply Hmods. by apply list_elem_of_fmap_2. }
    rewrite Hrep in Hs. apply list_elem_of_fmap in Hs as (k & -> & _). simpl in *.
    split.
    + destruct (maxSeverity_attained (map vb_version (bumpsOf k bumps)))
        as (v & (b & -> & Hb)%list_elem_of_fmap & Hv).
      { apply list_elem_of_fmap in Hin as (b & -> & Hb).
        intros Hnil%fmap_nil_inv.
        assert (b ∈ bumpsOf (vb_module b) bumps) as Hb' by (by apply list_elem_of_filter).
        rewrite Hnil in Hb'. by apply elem_of_nil in Hb'. }
      apply list_elem_of_filter in Hb as [Hk Hb]. by exists b.
    + intros b Hb Hk. apply maxSeverity_bound. apply list_elem_of_fmap_2.
      by apply list_elem_of_filter.
  - intros Hok. destruct (summarize_Ok bumps Hok) as (out & Hout & _ & _ & Hmods).
    exists out. split; [done|]. intros b Hb. apply Hmods. by apply list_elem_of_fmap_2.
Qed.

Lemma severity_is_maximum_witness :
  let c := {| subject := "feat(foo): a"; body := EmptyString; hash := "1" |} in
  let d := {| subject := "fix(foo): b"; body := EmptyString; hash := "2" |} in
  let b1 := {| vb_module := "foo"; vb_tag := "feat"; vb_commit := c;
               vb_version := Version Minor |} in
  let b2 := {| vb_module := "foo"; vb_tag := "fix"; vb_commit := d;
               vb_version := Version Patch |} in
  mapResult (map (fun s => (vs_module s, vs_version s)))
    (summarizeVersionBumpsByModule [b1; b2])
  = mapResult (map (fun s => (vs_module s, vs_version s)))
      (summarizeVersionBumpsByModule [b2; b1]).
Proof.
  intros c d b1 b2.
  exact (proj1 (severity_is_maximum [b1; b2] [b2; b1] (perm_swap b2 b1 []))).
Defined.

Lemma aggregator_output_order_witness :
  let bumps :=
    [ {| vb_module := "b"; vb_tag := "fix"; vb_version := Version Patch;
         vb_commit := {| subject := "fix(b): one"; body := EmptyString; hash := "1" |} |};
      {| vb_module := "a"; vb_tag := "feat"; vb_version := Version Minor;
         vb_commit := {| subject := "feat(a): two"; body := EmptyString; hash := "2" |} |};
      {| vb_module := "b"; vb_tag := "BREAKING"; vb_version := Version Major;
         vb_commit := {| subject := "BREAKING(b): three"; body := EmptyString;
                         hash := "3" |} |} ] in
  exists out,
    summarizeVersionBumpsByModule bumps = Ok out
    /\ map vs_module out = ["a"; "b"]
    /\ StronglySorted JsString.lt (map vs_module out).
Proof.
  intros bumps.
  destruct (proj2 (proj1 (aggregator_output_order bumps))) as [out Hout].
  { repeat constructor. }
  exists out. split; [exact Hout|]. split.
  - vm_compute in Hout. injection Hout as <-. reflexivity.
  - exact (proj1 (proj2 (proj2 (aggregator_output_order bumps)) out Hout)).
Defined.

(** ** Module resolver *)

Lemma drop_append s t : JsString.drop (String.length s) (s +:+ t) = t.
Proof. induction s as [|c s IH]; [by destruct t|]. rewrite append_cons. simpl. done. Qed.

Lemma drop_split n s :
  exists p, s = p +:+ JsString.drop n s.
Proof.
  revert s. induction n as [|n IH]; intros s.
  - exists EmptyString. by destruct s.
  - destruct s as [|c s]; [by exists EmptyString|].
    destruct (IH s) as [p Hp]. exists (String c p). simpl. by rewrite append_cons, <-Hp.
Qed.

Lemma endsWith_spec s t : JsString.endsWith s t = true <-> exists p, s = p +:+ t.
Proof.
  unfold JsString.endsWith. split.
  - case_decide; [|done]. intros Hd%bool_decide_eq_true.
    destruct (drop_split (String.length s - String.length t) s) as [p Hp].
    exists p. by rewrite Hd in Hp.
  - intros [p ->]. rewrite append_length. rewrite decide_True by lia.
    apply bool_decide_eq_true.
    replace (String.length p + String.length t - String.length t) with (String.length p) by lia.
    apply drop_append.
Qed.

Lemma moduleMatches_spec module m :
  moduleMatches module m = true <-> refersTo module m.
Proof.
  unfold moduleMatches, refersTo.
  rewrite orb_true_iff, bool_decide_eq_true, endsWith_spec. done.
Qed.

Lemma getModule_first module modules :
  match getModule module modules with
  | Some m =>
      exists before after,
        modules = before ++ m :: after /\ refersTo module m /\
        forall x, x ∈ before -> ~ refersTo module x
  | None => forall x, x ∈ modules -> ~ refersTo module x
  end.
Proof.
  unfold getModule. induction modules as [|m modules IH]; simpl.
  - by intros x ?%elem_of_nil.
  - destruct (moduleMatches module m) eqn:Hm.
    + exists [], modules. rewrite moduleMatches_spec in Hm.
      repeat split; [done|]. by intros x ?%elem_of_nil.
    + assert (~ refersTo module m) as Hnot.
      { rewrite <-moduleMatches_spec. by rewrite Hm. }
      destruct (find (moduleMatches module) modules) as [m'|].
      * destruct IH as (before & after & -> & Hm' & Hbefore).
        exists (m :: before), after. repeat split; [done|].
        intros x [->|Hx]%elem_of_cons; auto.
      * intros x [->|Hx]%elem_of_cons; auto.
Qed.

(** ** The collecting loop *)

Lemma checkModuleName_cases b modules :
  (resolved modules b /\ checkModuleName b modules = None) \/
  (~ resolved modules b /\ checkModuleName b modules = Some (unresolvedDiagnostic b)).
Proof.
  unfold resolved, checkModuleName.
  destruct (getModule (vb_module b) modules) as [m|].
  - left. split; [by eexists|done].
  - right. split; [by intros [? [=]]|done].
Qed.

Section collect_spec.
Variable parseCommitMessage : Commit -> ParseResult.
Variable modules : list WorkspaceModule.

Lemma checkBumps_spec parsed versionBumps diagnostics :
checkBumps modules parsed (versionBumps, diagnostics) =
(versionBumps ++ filter (resolved modules) parsed,
 diagnostics
 ++ map unresolvedDiagnostic (filter (fun b => ~ resolved modules b) parsed)).
Proof.
unfold checkBumps. revert versionBumps diagnostics.
induction parsed as [|b parsed IH]; intros versionBumps diagnostics; simpl.
- by rewrite !app_nil_r.
- rewrite !filter_cons.
  destruct (checkModuleName_cases b modules) as [[Hr ->]|[Hr ->]]; rewrite IH.
  + rewrite decide_True by done. rewrite decide_False by tauto.
    by rewrite <-app_assoc.
  + rewrite decide_False by done. rewrite decide_True by done.
    simpl. by rewrite <-!app_assoc.
Qed.

Lemma collect_spec commits :
collect parseCommitMessage modules commits =
(filter (resolved modules) (runProposals parseCommitMessage commits),
 flat_map (stepDiagnostics parseCommitMessage modules) commits).
Proof.
unfold collect.
enough (forall versionBumps diagnostics,
           fold_left (collectStep parseCommitMessage modules) commits
             (versionBumps, diagnostics) =
           (versionBumps
            ++ filter (resolved modules) (runProposals parseCommitMessage commits),
            diagnostics
            ++ flat_map (stepDiagnostics parseCommitMessage modules) commits))
  as H by apply H.
induction commits as [|commit commits IH]; intros versionBumps diagnostics; simpl.
- by rewrite !app_nil_r.
- unfold collectStep at 2, stepDiagnostics at 1, skippedSubject.
  destruct (Regex.test RE_VERSION_SUBJECT (subject commit)); simpl; [apply IH|].
  destruct (Regex.test RE_RELEASE_SUBJECT (subject commit)); simpl; [apply IH|].
  destruct (parseCommitMessage commit) as [parsed|d]; simpl.
  + rewrite checkBumps_spec, IH, filter_app, <-!app_assoc. done.
  + rewrite IH, <-app_assoc. done.
Qed.
End collect_spec.

(** C8.  A reference resolves to the first module, in input order, whose
    name is the reference or ends with a slash and the reference.  In a run,
    every proposal whose reference resolves to no module adds an
    [unknown_range_commit] diagnostic (the spec's unresolved_module), is not
    passed to the aggregator and leaves no summary under its reference; the
    aggregator receives exactly the other proposals, in order. *)
Theorem unresolved_references
    (parseCommitMessage : Commit -> ParseResult)
    (modules : list WorkspaceModule) (commits : list Commit) :
  (forall module,
     match getModule module modules with
     | Some m =>
         exists before after,
           modules = before ++ m :: after /\ refersTo module m /\
           forall x, x ∈ before -> ~ refersTo module x
     | None => forall x, x ∈ modules -> ~ refersTo module x
     end)
  /\ fst (collect parseCommitMessage modules commits) =
     filter (fun b => is_Some (getModule (vb_module b) modules))
            (runProposals parseCommitMessage commits)
  /\ forall b,
       b ∈ runProposals parseCommitMessage commits ->
       getModule (vb_module b) modules = None ->
       {| d_type := unknown_range_commit; d_commit := vb_commit b;
          d_reason := "Unknown module: " +:+ vb_module b +:+ "." |}
         ∈ snd (collect parseCommitMessage modules commits)
       /\ (b ∉ fst (collect parseCommitMessage modules commits))
       /\ forall out,
            summarizeVersionBumpsByModule (fst (collect parseCommitMessage modules commits))
              = Ok out ->
            vb_module b ∉ map vs_module out.
Proof.
  rewrite collect_spec. simpl. split; [|split; [done|]].
  - intros module. apply getModule_first.
  - intros b Hb Hnone.
    assert (~ resolved modules b) as Hnot.
    { unfold resolved. rewrite Hnone. by intros [? [=]]. }
    repeat split.
    + unfold runProposals in Hb. apply list_elem_of_In, in_flat_map in Hb as (c & Hc & Hb).
      apply list_elem_of_In, in_flat_map. exists c. split; [done|].
      unfold stepDiagnostics. destruct (skippedSubject c); [done|].
      destruct (parseCommitMessage c) as [parsed|d]; [|done]. simpl in Hb.
      apply list_elem_of_In. apply (list_elem_of_fmap_2 unresolvedDiagnostic).
      apply list_elem_of_filter. split; [done|]. by apply list_elem_of_In.
    + intros [Hr _]%list_elem_of_filter. done.
    + intros out Hout Hin.
      pose proof (summarize_Ok_inv _ _ Hout) as Hok.
      destruct (summarize_Ok _ Hok) as (out0 & Hout0 & _ & _ & Hmods).
      rewrite Hout in Hout0. injection Hout0 as <-.
      apply Hmods in Hin. apply list_elem_of_fmap in Hin as (b' & Heq & Hb').
      apply list_elem_of_filter in Hb' as [Hr _]. unfold resolved in Hr.
      rewrite <-Heq, Hnone in Hr. by destruct Hr.
Qed.

Lemma unresolved_references_witness :
  let parse := fun commit =>
    defaultParseCommitMessage commit
      [ {| wm_name := "@scope/foo"; wm_version := "1.2.3"; wm_path := "foo/deno.json" |} ] in
  let modules :=
    [ {| wm_name := "@scope/foo"; wm_version := "1.2.3"; wm_path := "foo/deno.json" |} ] in
  let commit := {| subject := "fix(foo,baz): one"; body := EmptyString; hash := "1" |} in
  let commits := [commit] in
  let b := {| vb_module := "baz"; vb_tag := "fix"; vb_commit := commit;
              vb_version := Version Patch |} in
  {| d_type := unknown_range_commit; d_commit := commit;
     d_reason := "Unknown module: baz." |} ∈ snd (collect parse modules commits)
  /\ (b ∉ fst (collect parse modules commits)).
Proof.
  intros parse modules commit commits b.
  destruct (proj2 (proj2 (unresolved_references parse modules commits)) b)
    as (Hdiag & Hnot & _).
  - vm_compute. right. left.
  - reflexivity.
  - split; [exact Hdiag|exact Hnot].
Defined.

(** ** Version reconciler *)

Lemma hasPrerelease_true version :
  hasPrerelease version = true <-> SemVer.prerelease version <> [].
Proof.
  unfold hasPrerelease. rewrite bool_decide_eq_true.
  destruct (SemVer.prerelease version); simpl; split; (done || lia).
Qed.

Lemma hasPrerelease_false version :
  hasPrerelease version = false <-> SemVer.prerelease version = [].
Proof.
  unfold hasPrerelease. rewrite bool_decide_eq_false.
  destruct (SemVer.prerelease version); simpl; split; (done || lia).
Qed.

Lemma parse_zero :
  SemVer.parse "0.0.0" =
  Ok {| SemVer.major := 0; SemVer.minor := 0; SemVer.patch := 0;
        SemVer.prerelease := []; SemVer.build := [] |}.
Proof. reflexivity. Qed.

(** [calcVersionDiff] on two versions that parse, case by case. *)
Lemma calcVersionDiff_cases newVersionStr oldVersionStr newVersion oldVersion :
  SemVer.parse newVersionStr = Ok newVersion ->
  SemVer.parse oldVersionStr = Ok oldVersion ->
  let diff := calcVersionDiff newVersionStr oldVersionStr in
  (SemVer.prerelease newVersion <> [] -> diff = Ok Prerelease)
  /\ (SemVer.prerelease newVersion = [] ->
      SemVer.major newVersion <> SemVer.major oldVersion -> diff = Ok Major)
  /\ (SemVer.prerelease newVersion = [] ->
      SemVer.major newVersion = SemVer.major oldVersion ->
      SemVer.minor newVersion <> SemVer.minor oldVersion -> diff = Ok Minor)
  /\ (SemVer.prerelease newVersion = [] ->
      SemVer.major newVersion = SemVer.major oldVersion ->
      SemVer.minor newVersion = SemVer.minor oldVersion ->
      SemVer.patch newVersion <> SemVer.patch oldVersion -> diff = Ok Patch)
  /\ (SemVer.prerelease newVersion = [] ->
      SemVer.major newVersion = SemVer.major oldVersion ->
      SemVer.minor newVersion = SemVer.minor oldVersion ->
      SemVer.patch newVersion = SemVer.patch oldVersion ->
      (SemVer.prerelease oldVersion <> [] ->
       (SemVer.patch newVersion <> 0%N -> diff = Ok Patch)
       /\ (SemVer.patch newVersion = 0%N -> SemVer.minor newVersion <> 0%N ->
           diff = Ok Minor)
       /\ (SemVer.patch newVersion = 0%N -> SemVer.minor newVersion = 0%N ->
           SemVer.major newVersion <> 0%N -> diff = Ok Major)
       /\ (SemVer.patch newVersion = 0%N -> SemVer.minor newVersion = 0%N ->
           SemVer.major newVersion = 0%N -> diff = unexpectedManualVersionUpdate))
      /\ (SemVer.prerelease oldVersion = [] -> diff = unexpectedManualVersionUpdate)).
Proof.
  intros Hnew Hold. unfold calcVersionDiff. rewrite Hnew, Hold. simpl.
  destruct (hasPrerelease newVersion) eqn:Hpn;
    [apply hasPrerelease_true in Hpn|apply hasPrerelease_false in Hpn].
  { repeat split; intros; congruence. }
  destruct (N.eqb_spec (SemVer.major newVersion) (SemVer.major oldVersion)) as [HM|HM]; simpl.
  2: { repeat split; intros; congruence. }
  destruct (N.eqb_spec (SemVer.minor newVersion) (SemVer.minor oldVersion)) as [Hm|Hm]; simpl.
  2: { repeat split; intros; congruence. }
  destruct (N.eqb_spec (SemVer.patch newVersion) (SemVer.patch oldVersion)) as [Hp|Hp]; simpl.
  2: { repeat split; intros; congruence. }
  destruct (hasPrerelease oldVersion) eqn:Hpo;
    [apply hasPrerelease_true in Hpo|apply hasPrerelease_false in Hpo]; simpl.
  2: { repeat split; intros; congruence. }
  destruct (N.eqb_spec (SemVer.patch newVersion) 0) as [Hp0|Hp0]; simpl.
  2: { repeat split; intros; congruence. }
  destruct (N.eqb_spec (SemVer.minor newVersion) 0) as [Hm0|Hm0]; simpl.
  2: { repeat split; intros; congruence. }
  destruct (N.eqb_spec (SemVer.major newVersion) 0) as [HM0|HM0]; simpl.
  2: { repeat split; intros; congruence. }
  repeat split; intros; congruence.
Qed.

Lemma applyVersionBump_manual RegExp summary module oldModule :
  wm_version oldModule <> wm_version module ->
  applyVersionBump RegExp summary module (Some oldModule) =
  bind (calcVersionDiff (wm_version module) (wm_version oldModule))
       (resolution summary module (wm_version oldModule) (wm_version module)).
Proof. intros Hne. unfold applyVersionBump. by rewrite decide_True. Qed.

(** C1, amended.  For a manual edit (the current version string differs
    from the prior one, both parse) the result goes from the prior to the
    current version with the magnitude: prerelease if the current version
    has a prerelease; else the first of major, minor, patch that differs;
    else, when the prior version had a prerelease, patch if the patch is not
    zero, else minor if the minor is not zero, else major if the major is
    not zero.  The other combinations, a prerelease promoted to 0.0.0 among
    them, raise the error of an unexpected manual version update. *)
Theorem manual_edit_diff
    (RegExp : RegExpConstructor) (summary : VersionBumpSummary) (module oldModule : WorkspaceModule)
    (newVersion oldVersion : SemVer.t) :
  wm_version oldModule <> wm_version module ->
  SemVer.parse (wm_version module) = Ok newVersion ->
  SemVer.parse (wm_version oldModule) = Ok oldVersion ->
  let outcome := applyVersionBump RegExp summary module (Some oldModule) in
  let magnitude := resolution summary module (wm_version oldModule) (wm_version module) in
  (SemVer.prerelease newVersion <> [] -> outcome = magnitude Prerelease)
  /\ (SemVer.prerelease newVersion = [] ->
      SemVer.major newVersion <> SemVer.major oldVersion -> outcome = magnitude Major)
  /\ (SemVer.prerelease newVersion = [] ->
      SemVer.major newVersion = SemVer.major oldVersion ->
      SemVer.minor newVersion <> SemVer.minor oldVersion -> outcome = magnitude Minor)
  /\ (SemVer.prerelease newVersion = [] ->
      SemVer.major newVersion = SemVer.major oldVersion ->
      SemVer.minor newVersion = SemVer.minor oldVersion ->
      SemVer.patch newVersion <> SemVer.patch oldVersion -> outcome = magnitude Patch)
  /\ (SemVer.prerelease newVersion = [] ->
      SemVer.major newVersion = SemVer.major oldVersion ->
      SemVer.minor newVersion = SemVer.minor oldVersion ->
      SemVer.patch newVersion = SemVer.patch oldVersion ->
      (SemVer.prerelease oldVersion <> [] ->
       (SemVer.patch newVersion <> 0%N -> outcome = magnitude Patch)
       /\ (SemVer.patch newVersion = 0%N -> SemVer.minor newVersion <> 0%N ->
           outcome = magnitude Minor)
       /\ (SemVer.patch newVersion = 0%N -> SemVer.minor newVersion = 0%N ->
           SemVer.major newVersion <> 0%N -> outcome = magnitude Major)
       /\ (SemVer.patch newVersion = 0%N -> SemVer.minor newVersion = 0%N ->
           SemVer.major newVersion = 0%N -> outcome = unexpectedManualVersionUpdate))
      /\ (SemVer.prerelease oldVersion = [] -> outcome = unexpectedManualVersionUpdate)).
Proof.
  intros Hne Hnew Hold outcome magnitude. unfold outcome.
  rewrite applyVersionBump_manual by done.
  destruct (calcVersionDiff_cases _ _ _ _ Hnew Hold)
    as (H1 & H2 & H3 & H4 & H5).
  repeat split.
  - intros. by rewrite H1.
  - intros. by rewrite H2.
  - intros. by rewrite H3.
  - intros. by rewrite H4.
  - intros. edestruct H5 as [(-> & _) _]; done.
  - intros. edestruct H5 as [(_ & -> & _) _]; done.
  - intros. edestruct H5 as [(_ & _ & -> & _) _]; done.
  - intros. edestruct H5 as [(_ & _ & _ & ->) _]; done.
  - intros. edestruct H5 as [_ ->]; done.
Qed.

Lemma manual_edit_diff_witness :
  applyVersionBump exampleRegExp
    {| vs_module := "foo"; vs_version := Patch; vs_commits := [] |}
    {| wm_name := "@scope/foo"; wm_version := "1.0.0"; wm_path := "foo/deno.jsonc" |}
    (Some {| wm_name := "@scope/foo"; wm_version := "1.0.0-rc.1";
             wm_path := "foo/deno.jsonc" |})
  = Ok {| r_from := "1.0.0-rc.1"; r_to := "1.0.0"; r_diff := Major;
          r_summary := {| vs_module := "foo"; vs_version := Major; vs_commits := [] |};
          r_path := "foo/deno.jsonc" |}.
Proof.
  refine (proj1 (proj2 (proj2 (proj1 (proj2 (proj2 (proj2 (proj2
            (manual_edit_diff _ _ _ _ _ _ _ _ _)))) _ _ _ _) _))) _ _ _).
  all: try reflexivity; done.
Defined.

(** C1: the prior version 0.0.0-rc.1 promoted by hand to 0.0.0 has
    magnitude major in the rule of the spec, and raises the error in the
    code, whatever the constructor of regular expressions. *)
Lemma manual_edit_counterexample :
  ~ (exists RegExp, forall summary module oldModule newVersion oldVersion,
       wm_version oldModule <> wm_version module ->
       SemVer.parse (wm_version module) = Ok newVersion ->
       SemVer.parse (wm_version oldModule) = Ok oldVersion ->
       match specVersionDiff newVersion oldVersion with
       | Some diff =>
           mapResult r_diff (applyVersionBump RegExp summary module (Some oldModule)) = Ok diff
       | None => exists e, applyVersionBump RegExp summary module (Some oldModule) = Throw e
       end).
Proof.
  intros [RegExp H].
  specialize (H {| vs_module := "foo"; vs_version := Patch; vs_commits := [] |}
                {| wm_name := "foo"; wm_version := "0.0.0"; wm_path := "foo/deno.json" |}
                {| wm_name := "foo"; wm_version := "0.0.0-rc.1"; wm_path := "foo/deno.json" |}
                _ _ ltac:(done) eq_refl eq_refl).
  vm_compute in H. discriminate H.
Qed.

Lemma applyVersionBump_unedited RegExp summary module oldModule currentVersion :
  wm_version oldModule = wm_version module ->
  SemVer.parse (wm_version module) = Ok currentVersion ->
  applyVersionBump RegExp summary module (Some oldModule) =
  let diff :=
    if hasPrerelease currentVersion then Prerelease
    else if (SemVer.major currentVersion =? 0)%N then
      match vs_version summary with
      | Major => Minor
      | Minor => Patch
      | diff => diff
      end
    else vs_version summary in
  match RegExp (wm_name module +:+ "@([^~]?)" +:+ wm_version module) with
  | Some message => Throw (SyntaxError message)
  | None =>
      resolution summary module (wm_version module)
        (SemVer.format (SemVer.increment currentVersion diff)) diff
  end.
Proof.
  intros Heq Hparse. unfold applyVersionBump.
  rewrite decide_False by (by intros []). rewrite Hparse. simpl.
  change (bool_decide (0 < length (SemVer.prerelease currentVersion)))
    with (hasPrerelease currentVersion).
  destruct (hasPrerelease currentVersion), (SemVer.major currentVersion =? 0)%N,
    (vs_version summary); reflexivity.
Qed.

Lemma bumpLastNumber_names (names : list string) :
  SemVer.bumpLastNumber (map SemVer.Id names) = None.
Proof. induction names as [|name names IH]; [done|]. simpl. by rewrite IH. Qed.

Lemma bumpLastNumber_last (before : list SemVer.identifier) (n : N) (after : list string) :
  SemVer.bumpLastNumber (before ++ SemVer.Num n :: map SemVer.Id after)
  = Some (before ++ SemVer.Num (n + 1)%N :: map SemVer.Id after).
Proof.
  induction before as [|x before IH]; simpl.
  - by rewrite bumpLastNumber_names.
  - by rewrite IH.
Qed.

Lemma prerelease_shape (identifiers : list SemVer.identifier) :
  (exists before n after, identifiers = before ++ SemVer.Num n :: map SemVer.Id after)
  \/ (exists names, identifiers = map SemVer.Id names).
Proof.
  induction identifiers as [|x identifiers IH].
  - right. by exists [].
  - destruct IH as [(before & n & after & ->)|(names & ->)].
    + left. by exists (x :: before), n, after.
    + destruct x as [n|name].
      * left. by exists [], n, names.
      * right. by exists (name :: names).
Qed.

(** C2.  For a module whose current version is the one of the prior
    snapshot: a version with a prerelease gets the magnitude prerelease,
    whatever the severity, and its last numeric prerelease identifier is
    incremented, a 0 being added at the end when none is numeric; below
    1.0.0 the severity major becomes minor and minor becomes patch;
    otherwise the severity is the magnitude.  The new version is the current
    one incremented by the magnitude: major resets minor and patch, minor
    resets patch, patch adds one to the patch.  This is the result exactly
    when the name of the module, [@([^~]?)] and the version make a regular
    expression: when they do not, the [SyntaxError] of the constructor is
    thrown and there is no result. *)
Theorem severity_bump
    (RegExp : RegExpConstructor) (summary : VersionBumpSummary)
    (module oldModule : WorkspaceModule) (currentVersion : SemVer.t) :
  wm_version oldModule = wm_version module ->
  SemVer.parse (wm_version module) = Ok currentVersion ->
  let outcome := applyVersionBump RegExp summary module (Some oldModule) in
  let source := wm_name module +:+ "@([^~]?)" +:+ wm_version module in
  let bumped magnitude newVersion :=
    Ok {| r_from := wm_version module; r_to := SemVer.format newVersion;
          r_diff := magnitude;
          r_summary := {| vs_module := vs_module summary; vs_version := magnitude;
                          vs_commits := vs_commits summary |};
          r_path := wm_path module |} in
  let major := SemVer.major currentVersion in
  let minor := SemVer.minor currentVersion in
  let patch := SemVer.patch currentVersion in
  let prereleased identifiers :=
    {| SemVer.major := major; SemVer.minor := minor; SemVer.patch := patch;
       SemVer.prerelease := identifiers; SemVer.build := SemVer.build currentVersion |} in
  let released major minor patch :=
    {| SemVer.major := major; SemVer.minor := minor; SemVer.patch := patch;
       SemVer.prerelease := []; SemVer.build := SemVer.build currentVersion |} in
  (forall message, RegExp source = Some message -> outcome = Throw (SyntaxError message))
  /\ (RegExp source = None ->
      (forall before n after,
         SemVer.prerelease currentVersion = before ++ SemVer.Num n :: map SemVer.Id after ->
         outcome = bumped Prerelease
                     (prereleased (before ++ SemVer.Num (n + 1)%N :: map SemVer.Id after)))
      /\ (forall names,
            names <> [] -> SemVer.prerelease currentVersion = map SemVer.Id names ->
            outcome = bumped Prerelease (prereleased (map SemVer.Id names ++ [SemVer.Num 0])))
      /\ (SemVer.prerelease currentVersion = [] ->
          (major = 0%N ->
           (vs_version summary = Major -> outcome = bumped Minor (released major (minor + 1)%N 0%N))
           /\ (vs_version summary = Minor ->
               outcome = bumped Patch (released major minor (patch + 1)%N))
           /\ (vs_version summary = Patch ->
               outcome = bumped Patch (released major minor (patch + 1)%N)))
          /\ (major <> 0%N ->
              (vs_version summary = Major ->
               outcome = bumped Major (released (major + 1)%N 0%N 0%N))
              /\ (vs_version summary = Minor ->
                  outcome = bumped Minor (released major (minor + 1)%N 0%N))
              /\ (vs_version summary = Patch ->
                  outcome = bumped Patch (released major minor (patch + 1)%N)))))
  /\ ((exists before n after,
         SemVer.prerelease currentVersion = before ++ SemVer.Num n :: map SemVer.Id after)
      \/ (exists names, SemVer.prerelease currentVersion = map SemVer.Id names)).
Proof.
  intros Heq Hparse outcome source bumped major minor patch prereleased released.
  unfold outcome, source, bumped, major, minor, patch, prereleased, released.
  rewrite (applyVersionBump_unedited _ _ _ _ _ Heq Hparse). cbv zeta.
  split; [|split; [|apply prerelease_shape]].
  - by intros message ->.
  - intros ->. unfold resolution, withVersion. split; [|split].
    + intros before n after Hpre.
      rewrite (proj2 (hasPrerelease_true _)) by (rewrite Hpre; by destruct before).
      unfold SemVer.increment, SemVer.isRelease, SemVer.bumpPrerelease.
      rewrite Hpre, bumpLastNumber_last. by destruct before.
    + intros names Hne Hpre.
      rewrite (proj2 (hasPrerelease_true _)) by (rewrite Hpre; by destruct names).
      unfold SemVer.increment, SemVer.isRelease, SemVer.bumpPrerelease.
      rewrite Hpre, bumpLastNumber_names. by destruct names.
    + intros Hpre. rewrite (proj2 (hasPrerelease_false _) Hpre).
      unfold SemVer.increment, SemVer.isRelease. rewrite Hpre.
      split.
      * intros ->. repeat split; intros ->; reflexivity.
      * intros Hne. rewrite (proj2 (N.eqb_neq _ _) Hne).
        repeat split; intros ->; reflexivity.
Qed.

Lemma severity_bump_witness :
  let foo version :=
    {| wm_name := "@scope/foo"; wm_version := version; wm_path := "foo/deno.json" |} in
  let summary := {| vs_module := "foo"; vs_version := Patch; vs_commits := [] |} in
  applyVersionBump exampleRegExp summary (foo "1.2.3") (Some (foo "1.2.3"))
  = Ok {| r_from := "1.2.3"; r_to := "1.2.4"; r_diff := Patch;
          r_summary := summary; r_path := "foo/deno.json" |}
  /\ applyVersionBump exampleRegExp summary (foo "1.0.0-rc.1") (Some (foo "1.0.0-rc.1"))
     = Ok {| r_from := "1.0.0-rc.1"; r_to := "1.0.0-rc.2"; r_diff := Prerelease;
             r_summary := {| vs_module := "foo"; vs_version := Prerelease;
                             vs_commits := [] |};
             r_path := "foo/deno.json" |}.
Proof.
  intros foo summary. split.
  - exact (proj2 (proj2 (proj2 (proj2 (proj2 (proj1 (proj2
             (severity_bump exampleRegExp summary (foo "1.2.3") (foo "1.2.3")
                {| SemVer.major := 1; SemVer.minor := 2; SemVer.patch := 3;
                   SemVer.prerelease := []; SemVer.build := [] |}
                eq_refl eq_refl)) eq_refl)) eq_refl) ltac:(discriminate))) eq_refl).
  - exact (proj1 (proj1 (proj2
             (severity_bump exampleRegExp summary (foo "1.0.0-rc.1") (foo "1.0.0-rc.1")
                {| SemVer.major := 1; SemVer.minor := 0; SemVer.patch := 0;
                   SemVer.prerelease := [SemVer.Id "rc"; SemVer.Num 1];
                   SemVer.build := [] |}
                eq_refl eq_refl)) eq_refl) [SemVer.Id "rc"] 1%N [] eq_refl).
Defined.

(** The other examples of the spec for an unedited version, and a module
    whose name is no pattern for the constructor of the examples. *)
Lemma severity_bump_examples :
  let bump name version severity :=
    mapResult (fun r => (r_to r, r_diff r))
      (applyVersionBump exampleRegExp
         {| vs_module := "foo"; vs_version := severity; vs_commits := [] |}
         {| wm_name := name; wm_version := version; wm_path := "foo/deno.json" |}
         (Some {| wm_name := name; wm_version := version;
                  wm_path := "foo/deno.json" |})) in
  bump "@scope/foo" "1.2.3" Patch = Ok ("1.2.4", Patch)
  /\ bump "@scope/foo" "0.5.0" Major = Ok ("0.6.0", Minor)
  /\ bump "@scope/foo" "0.5.0" Minor = Ok ("0.5.1", Patch)
  /\ bump "@scope/foo" "1.0.0-rc.1" Major = Ok ("1.0.0-rc.2", Prerelease)
  /\ bump "@scope/foo" "1.0.0-rc.1" Minor = Ok ("1.0.0-rc.2", Prerelease)
  /\ bump "@scope/foo" "1.0.0-rc.1" Patch = Ok ("1.0.0-rc.2", Prerelease)
  /\ bump "@scope/foo" "1.0.0-rc" Patch = Ok ("1.0.0-rc.0", Prerelease)
  /\ bump "@scope/foo" "1.0.0-1.rc" Patch = Ok ("1.0.0-2.rc", Prerelease)
  /\ exists message, bump "c++" "1.2.3" Patch = Throw (SyntaxError message).
Proof. repeat split; try reflexivity. by eexists. Qed.

(** C6.  For a module without prior snapshot the result goes from 0.0.0 to
    the current version, with the magnitude of the diff of the current
    version against 0.0.0: prerelease if it has a prerelease, else the first
    of major, minor, patch that is not zero.  The severity of the summary
    plays no part. *)
Theorem new_module_diff
    (RegExp : RegExpConstructor) (summary : VersionBumpSummary) (module : WorkspaceModule)
    (currentVersion : SemVer.t) :
  SemVer.parse (wm_version module) = Ok currentVersion ->
  let outcome := applyVersionBump RegExp summary module None in
  let magnitude := resolution summary module "0.0.0" (wm_version module) in
  outcome = bind (calcVersionDiff (wm_version module) "0.0.0") magnitude
  /\ (SemVer.prerelease currentVersion <> [] -> outcome = magnitude Prerelease)
  /\ (SemVer.prerelease currentVersion = [] ->
      (SemVer.major currentVersion <> 0%N -> outcome = magnitude Major)
      /\ (SemVer.major currentVersion = 0%N ->
          SemVer.minor currentVersion <> 0%N -> outcome = magnitude Minor)
      /\ (SemVer.major currentVersion = 0%N -> SemVer.minor currentVersion = 0%N ->
          SemVer.patch currentVersion <> 0%N -> outcome = magnitude Patch))
  /\ (forall summary',
        mapResult (fun r => (r_from r, r_to r, r_diff r))
          (applyVersionBump RegExp summary' module None) =
        mapResult (fun r => (r_from r, r_to r, r_diff r)) outcome).
Proof.
  intros Hparse outcome magnitude.
  assert (outcome = bind (calcVersionDiff (wm_version module) "0.0.0") magnitude) as Hout
    by reflexivity.
  destruct (calcVersionDiff_cases _ _ _ _ Hparse parse_zero) as (H1 & H2 & H3 & H4 & _).
  simpl in H2, H3, H4.
  split; [done|]. rewrite Hout. repeat split.
  - intros. by rewrite H1.
  - intros. by rewrite H2.
  - intros. by rewrite H3.
  - intros. by rewrite H4.
  - intros summary'. unfold applyVersionBump.
    by destruct (calcVersionDiff (wm_version module) "0.0.0").
Qed.

Lemma new_module_diff_witness :
  applyVersionBump exampleRegExp
    {| vs_module := "foo"; vs_version := Patch; vs_commits := [] |}
    {| wm_name := "@scope/foo"; wm_version := "0.1.0"; wm_path := "foo/deno.jsonc" |}
    None
  = Ok {| r_from := "0.0.0"; r_to := "0.1.0"; r_diff := Minor;
          r_summary := {| vs_module := "foo"; vs_version := Minor; vs_commits := [] |};
          r_path := "foo/deno.jsonc" |}.
Proof.
  exact (proj1 (proj2 (proj1 (proj2 (proj2
           (new_module_diff exampleRegExp
              {| vs_module := "foo"; vs_version := Patch; vs_commits := [] |}
              {| wm_name := "@scope/foo"; wm_version := "0.1.0"; wm_path := "foo/deno.jsonc" |}
              {| SemVer.major := 0; SemVer.minor := 1; SemVer.patch := 0;
                 SemVer.prerelease := []; SemVer.build := [] |}
              eq_refl))) eq_refl)) eq_refl ltac:(discriminate)).
Defined.

(** C10.  A module without prior snapshot whose current version is 0.0.0
    gets no resolution: the diff of 0.0.0 against the baseline 0.0.0 raises
    the error of an unexpected manual version update. *)
Theorem new_module_at_zero
    (RegExp : RegExpConstructor) (summary : VersionBumpSummary) (name path : string) :
  applyVersionBump RegExp summary
    {| wm_name := name; wm_version := "0.0.0"; wm_path := path |} None
  = Throw (Error "Unexpected manual version update: [object Object] -> [object Object]").
Proof. reflexivity. Qed.

(** ** The tests of the repository, replayed on the model *)

Example parse_single_module :
  exampleParse "feat(foo): add a feature" =
  VersionBumps [exampleBump "foo" "feat" Minor "feat(foo): add a feature"].
Proof. reflexivity. Qed.

Example parse_two_modules :
  exampleParse "fix(foo,bar): add a feature" =
  VersionBumps [exampleBump "foo" "fix" Patch "fix(foo,bar): add a feature";
                exampleBump "bar" "fix" Patch "fix(foo,bar): add a feature"].
Proof. reflexivity. Qed.

Example parse_wildcard :
  exampleParse wildcardSubject =
  VersionBumps [exampleBump "foo" "fix" Patch wildcardSubject;
                exampleBump "bar" "fix" Patch wildcardSubject].
Proof. reflexivity. Qed.

Example parse_breaking :
  exampleParse "BREAKING(foo): some breaking change" =
  VersionBumps [exampleBump "foo" "BREAKING" Major "BREAKING(foo): some breaking change"].
Proof. reflexivity. Qed.

Example parse_patch_kinds :
  map (fun tag => exampleParse (tag +:+ "(foo): update"))
      ["perf"; "docs"; "style"; "refactor"; "test"; "chore"; "deprecation"] =
  map (fun tag => VersionBumps [exampleBump "foo" tag Patch (tag +:+ "(foo): update")])
      ["perf"; "docs"; "style"; "refactor"; "test"; "chore"; "deprecation"].
Proof. reflexivity. Qed.

Example parse_invalid_subjects :
  exampleParse "random commit" =
    Diag (exampleDiagnostic unknown_commit "random commit"
            "The commit message does not match the default pattern.")
  /\ exampleParse "fix: update" =
       Diag (exampleDiagnostic missing_range "fix: update"
               "The commit message does not specify a module.")
  /\ exampleParse "chore: update" =
       Diag (exampleDiagnostic skipped_commit "chore: update"
               "The commit message does not specify a module.")
  /\ exampleParse "hey(foo): update" =
       Diag (exampleDiagnostic unknown_commit "hey(foo): update"
               "Unknown commit tag: hey.").
Proof. repeat split; reflexivity. Qed.

Example checkModuleName_tests :
  checkModuleName (exampleBump "foo" "chore" Patch EmptyString)
    [ {| wm_name := "foo"; wm_version := "0.0.0"; wm_path := EmptyString |} ] = None
  /\ checkModuleName (exampleBump "foo" "chore" Patch EmptyString)
       [ {| wm_name := "bar"; wm_version := "0.0.0"; wm_path := EmptyString |} ] =
     Some (exampleDiagnostic unknown_range_commit EmptyString "Unknown module: foo.").
Proof. split; reflexivity. Qed.

Example maxVersion_tests :
  maxVersion (Version Major) (Version Minor) = Major
  /\ maxVersion (Version Minor) (Version Major) = Major
  /\ maxVersion (Version Major) (Version Patch) = Major
  /\ maxVersion (Version Patch) (Version Major) = Major
  /\ maxVersion (Version Minor) (Version Patch) = Minor
  /\ maxVersion (Version Patch) (Version Minor) = Minor
  /\ maxVersion (Version Patch) (Version Patch) = Patch.
Proof. repeat split; reflexivity. Qed.

Example getModule_short_name :
  getModule "foo"
    [ {| wm_name := "@scope/bar"; wm_version := "2.3.4"; wm_path := "bar/deno.json" |};
      {| wm_name := "@scope/foo"; wm_version := "1.2.3"; wm_path := "foo/deno.json" |} ] =
  Some {| wm_name := "@scope/foo"; wm_version := "1.2.3"; wm_path := "foo/deno.json" |}.
Proof. reflexivity. Qed.

Example applyVersionBump_tests :
  exampleApply Minor "1.0.0" (Some "1.0.0") = Ok ("1.0.0", "1.1.0", Minor)
  /\ exampleApply Major "0.0.0" (Some "0.0.0") = Ok ("0.0.0", "0.1.0", Minor)
  /\ exampleApply Minor "0.1.0" (Some "0.1.0") = Ok ("0.1.0", "0.1.1", Patch)
  /\ exampleApply Minor "1.0.0-rc.1" (Some "1.0.0-rc.1") =
     Ok ("1.0.0-rc.1", "1.0.0-rc.2", Prerelease)
  /\ exampleApply Minor "1.0.0-rc.1" (Some "0.224.0") =
     Ok ("0.224.0", "1.0.0-rc.1", Prerelease)
  /\ exampleApply Patch "1.0.0" (Some "1.0.0-rc.1") = Ok ("1.0.0-rc.1", "1.0.0", Major)
  /\ exampleApply Patch "0.1.0" None = Ok ("0.0.0", "0.1.0", Minor).
Proof. repeat split; reflexivity. Qed.

(** A kind or a module named like a member of [Object.prototype]. *)
Example inherited_kind :
  exampleParse "toString(foo): update" =
  VersionBumps [ {| vb_module := "foo"; vb_tag := "toString";
                    vb_version := PrototypeMember "toString";
                    vb_commit := exampleCommit "toString(foo): update" |} ].
Proof. reflexivity. Qed.

Example inherited_module :
  summarizeVersionBumpsByModule
    [exampleBump "constructor" "fix" Patch "fix(constructor): update"] =
  Throw (TypeError "Cannot read properties of undefined (reading 'push')").
Proof. reflexivity. Qed.

(** Further runs of the model. *)

Example summarize_example :
  mapResult
    (map (fun s => (vs_module s, vs_version s,
                    map (fun c => (cwt_tag c, subject (cwt_commit c))) (vs_commits s))))
    (summarizeVersionBumpsByModule
       [ exampleBump "b" "fix" Patch "one";
         exampleBump "a" "feat" Minor "two";
         exampleBump "b" "BREAKING" Major "three";
         exampleBump "10" "chore" Patch "four";
         exampleBump "b" "fix" Patch "five";
         exampleBump "9" "docs" Patch "six" ]) =
  Ok [ ("10", Patch, [("chore", "four")]);
       ("9", Patch, [("docs", "six")]);
       ("a", Minor, [("feat", "two")]);
       ("b", Major, [("BREAKING", "three"); ("fix", "one"); ("fix", "five")]) ].
Proof. reflexivity. Qed.

Example collect_example :
  let '(versionBumps, diagnostics) :=
    collect (fun commit => defaultParseCommitMessage commit exampleModules) exampleModules
      [ exampleCommit "fix(foo,baz): one";
        exampleCommit "v1.2.3";
        exampleCommit "Release 2024.01.02";
        exampleCommit "chore: two";
        exampleCommit "feat(bar): three" ] in
  versionBumps = [ exampleBump "foo" "fix" Patch "fix(foo,baz): one";
                   exampleBump "bar" "feat" Minor "feat(bar): three" ]
  /\ diagnostics =
     [ exampleDiagnostic unknown_range_commit "fix(foo,baz): one" "Unknown module: baz.";
       exampleDiagnostic skipped_commit "chore: two"
         "The commit message does not specify a module." ].
Proof. split; reflexivity. Qed.

(** ** Further properties of the classifier, the aggregator and the reconciler *)

(** X1.  [maxVersion] is commutative and associative, gives the rank of the
    higher of its arguments in the order major > minor > patch, where every
    value other than major and minor counts as patch, and never returns
    prerelease: on two prereleases it returns patch. *)
Theorem maxVersion_laws (v0 v1 v2 : VersionValue) :
  maxVersion v0 v1 = maxVersion v1 v0
  /\ maxVersion (Version (maxVersion v0 v1)) v2 = maxVersion v0 (Version (maxVersion v1 v2))
  /\ severityRank (maxVersion v0 v1)
     = severityRank (asSeverity v0) `max` severityRank (asSeverity v1)
  /\ maxVersion v0 v1 <> Prerelease
  /\ maxVersion (Version Prerelease) (Version Prerelease) = Patch.
Proof.
  repeat split; destruct v0 as [[]|k0], v1 as [[]|k1]; try destruct v2 as [[]|k2];
    by vm_compute.
Qed.

Lemma classify_cites_commit (commit : Commit) (workspaceModules : list WorkspaceModule) :
  match defaultParseCommitMessage commit workspaceModules with
  | VersionBumps bumps => bumps <> [] /\ Forall (fun b => vb_commit b = commit) bumps
  | Diag d => d_commit d = commit
  end.
Proof.
  unfold defaultParseCommitMessage.
  destruct (Regex.exec RE_DEFAULT_PATTERN (subject commit)) as [caps|]; [|done].
  generalize (if bool_decide (Regex.group 2 caps = Some "*")
              then map wm_name workspaceModules
              else match Regex.group 2 caps with
                   | Some (String _ _ as module) => Regex.split RE_SCOPE_SEPARATOR module
                   | _ => []
                   end).
  intros [|m ms].
  - by destruct (JsString.includes DEFAULT_RANGE_REQUIRED _).
  - destruct (TAG_TO_VERSION_get _); [|done].
    split; [done|]. apply Forall_fmap, Forall_forall. done.
Qed.

(** X2.  The classifier returns either at least one proposal, each for the
    given commit, with the kind of the subject and the value that the
    severity table holds for that kind, or a diagnostic for the given commit
    whose type is not [unknown_range_commit]. *)
Theorem classification_outcomes (commit : Commit) (workspaceModules : list WorkspaceModule) :
  match defaultParseCommitMessage commit workspaceModules with
  | VersionBumps bumps =>
      bumps <> []
      /\ exists caps tag version,
           Regex.exec RE_DEFAULT_PATTERN (subject commit) = Some caps
           /\ Regex.group 1 caps = Some tag
           /\ TAG_TO_VERSION_get tag = Some version
           /\ Forall (fun b => vb_commit b = commit /\ vb_tag b = tag
                               /\ vb_version b = version) bumps
  | Diag d => d_commit d = commit /\ d_type d <> unknown_range_commit
  end.
Proof.
  unfold defaultParseCommitMessage.
  destruct (Regex.exec RE_DEFAULT_PATTERN (subject commit)) as [caps|] eqn:He; [|done].
  destruct (exec_default_shape _ _ He) as (tag & message & Hg1 & _).
  rewrite Hg1. simpl default.
  generalize (if bool_decide (Regex.group 2 caps = Some "*")
              then map wm_name workspaceModules
              else match Regex.group 2 caps with
                   | Some (String _ _ as module) => Regex.split RE_SCOPE_SEPARATOR module
                   | _ => []
                   end).
  intros [|m ms].
  - by destruct (JsString.includes DEFAULT_RANGE_REQUIRED tag).
  - destruct (TAG_TO_VERSION_get tag) as [version|] eqn:Ht; [|done].
    split; [done|]. exists caps, tag, version. repeat split; try done.
    apply Forall_fmap, Forall_forall. done.
Qed.

(** X6.  Between two versions without prerelease the diff does not depend on
    the direction: a decrease is reported with the magnitude of the
    increase, and equal numbers raise the error both ways. *)
Theorem calcVersionDiff_symmetric (a b : string) (va vb : SemVer.t) :
  SemVer.parse a = Ok va -> SemVer.parse b = Ok vb ->
  SemVer.prerelease va = [] -> SemVer.prerelease vb = [] ->
  calcVersionDiff a b = calcVersionDiff b a.
Proof.
  intros Ha Hb Hpa%hasPrerelease_false Hpb%hasPrerelease_false.
  unfold calcVersionDiff. rewrite Ha, Hb. simpl. rewrite Hpa, Hpb. simpl.
  rewrite (N.eqb_sym (SemVer.major vb)), (N.eqb_sym (SemVer.minor vb)),
    (N.eqb_sym (SemVer.patch vb)).
  by destruct (SemVer.major va =? SemVer.major vb)%N,
    (SemVer.minor va =? SemVer.minor vb)%N, (SemVer.patch va =? SemVer.patch vb)%N.
Qed.

Lemma calcVersionDiff_symmetric_witness :
  calcVersionDiff "1.2.3" "2.0.0" = Ok Major
  /\ calcVersionDiff "2.0.0" "1.2.3" = Ok Major.
Proof.
  split; [|reflexivity].
  exact (eq_trans
           (calcVersionDiff_symmetric "1.2.3" "2.0.0" _ _ eq_refl eq_refl eq_refl eq_refl)
           eq_refl).
Defined.



Lemma format_zero_major (version : SemVer.t) :
  SemVer.major version = 0%N -> exists rest, SemVer.format version = "0." +:+ rest.
Proof.
  intros H0. unfold SemVer.format. rewrite H0.
  change (SemVer.formatNumber 0) with "0".
  set (rest := SemVer.formatNumber (SemVer.minor version) +:+ "."
               +:+ SemVer.formatNumber (SemVer.patch version)).
  set (pre := JsString.join "." (map SemVer.formatIdentifier (SemVer.prerelease version))).
  set (build := JsString.join "." (SemVer.build version)).
  change ("0" +:+ "." +:+ rest) with (String "0" (String "." rest)).
  assert (exists rest', JsString.join "-"
            (filter (fun v => v <> EmptyString) [String "0" (String "." rest); pre])
          = String "0" (String "." rest')) as [rest' ->].
  { rewrite filter_cons, decide_True by done.
    destruct (decide (pre = EmptyString)) as [->|Hne].
    - exists rest. by rewrite filter_cons, decide_False, filter_nil by tauto.
    - exists (rest +:+ "-" +:+ pre).
      rewrite filter_cons, decide_True, filter_nil by done. simpl.
      by rewrite !append_cons. }
  rewrite filter_cons, decide_True by done.
  destruct (decide (build = EmptyString)) as [->|Hne].
  - exists rest'. by rewrite filter_cons, decide_False, filter_nil by tauto.
  - exists (rest' +:+ "+" +:+ build).
    rewrite filter_cons, decide_True, filter_nil by done. simpl.
    by rewrite !append_cons.
Qed.

(** X8.  The automated bump never takes a module out of major version 0:
    when the version was not edited and its major number is 0, either the
    constructor of regular expressions refuses the pattern built from the
    name and the version, and its [SyntaxError] is thrown, or there is a
    result, its magnitude is not major and its new version string starts
    with [0.], whatever the severity of the summary. *)
Theorem zero_major_preserved
    (RegExp : RegExpConstructor) (summary : VersionBumpSummary)
    (module oldModule : WorkspaceModule) (currentVersion : SemVer.t) :
  wm_version oldModule = wm_version module ->
  SemVer.parse (wm_version module) = Ok currentVersion ->
  SemVer.major currentVersion = 0%N ->
  match RegExp (wm_name module +:+ "@([^~]?)" +:+ wm_version module) with
  | Some message =>
      applyVersionBump RegExp summary module (Some oldModule) = Throw (SyntaxError message)
  | None =>
      exists r rest,
        applyVersionBump RegExp summary module (Some oldModule) = Ok r
        /\ r_diff r <> Major
        /\ r_to r = "0." +:+ rest
  end.
Proof.
  intros Heq Hp H0.
  rewrite (applyVersionBump_unedited _ _ _ _ _ Heq Hp). rewrite H0. simpl.
  destruct (RegExp _); [done|].
  unfold resolution.
  set (diff := if hasPrerelease currentVersion then Prerelease
               else match vs_version summary with
                    | Major => Minor
                    | Minor => Patch
                    | diff => diff
                    end).
  assert (diff <> Major) as Hd.
  { unfold diff. destruct (hasPrerelease currentVersion); [done|].
    by destruct (vs_version summary). }
  destruct (format_zero_major (SemVer.increment currentVersion diff)) as [rest Hrest].
  { destruct diff; simpl; done. }
  eexists _, rest. split; [reflexivity|]. simpl. done.
Qed.

Lemma zero_major_preserved_witness :
  exists r rest,
    applyVersionBump exampleRegExp
      {| vs_module := "foo"; vs_version := Major; vs_commits := [] |}
      {| wm_name := "@scope/foo"; wm_version := "0.9.9"; wm_path := "foo/deno.json" |}
      (Some {| wm_name := "@scope/foo"; wm_version := "0.9.9"; wm_path := "foo/deno.json" |})
    = Ok r
    /\ r_diff r <> Major
    /\ r_to r = "0." +:+ rest.
Proof.
  exact (zero_major_preserved exampleRegExp
           {| vs_module := "foo"; vs_version := Major; vs_commits := [] |}
           {| wm_name := "@scope/foo"; wm_version := "0.9.9"; wm_path := "foo/deno.json" |}
           {| wm_name := "@scope/foo"; wm_version := "0.9.9"; wm_path := "foo/deno.json" |}
           _ eq_refl eq_refl eq_refl).
Defined.

(** ** Further properties of the collecting loop *)

Lemma elem_of_flat_map {A B} (f : A -> list B) (l : list A) (y : B) :
  y ∈ flat_map f l <-> exists x, x ∈ l /\ y ∈ f x.
Proof.
  rewrite list_elem_of_In, in_flat_map.
  split; intros (x & Hx & Hy); exists x; by rewrite ?list_elem_of_In in *.
Qed.

Lemma flat_map_filter_nil {A B} (f : A -> list B) (P : A -> Prop)
    `{forall x, Decision (P x)} (l : list A) :
  (forall x, ~ P x -> f x = []) -> flat_map f (filter P l) = flat_map f l.
Proof.
  intros Hf. induction l as [|x l IH]; [done|].
  rewrite filter_cons. destruct (decide (P x)) as [HP|HP]; simpl.
  - by rewrite IH.
  - by rewrite (Hf x HP), IH.
Qed.

Lemma filter_complement_length {A} (P : A -> Prop) `{forall x, Decision (P x)} (l : list A) :
  length (filter P l) + length (filter (fun x => ~ P x) l) = length l.
Proof.
  induction l as [|x l IH]; [done|].
  rewrite !filter_cons. destruct (decide (P x)) as [HP|HP].
  - rewrite decide_False by tauto. simpl. lia.
  - rewrite decide_True by done. simpl. lia.
Qed.

Lemma runProposals_cons parseCommitMessage commit commits :
  runProposals parseCommitMessage (commit :: commits) =
  (if skippedSubject commit then [] else proposals (parseCommitMessage commit))
  ++ runProposals parseCommitMessage commits.
Proof. done. Qed.

(** X9.  The collecting loop handles the commits one by one: the commits
    whose subject is a version or a release leave neither a bump nor a
    diagnostic, and the bumps and diagnostics of a log in two parts are
    those of the first part followed by those of the second. *)
Theorem collect_commit_by_commit
    (parseCommitMessage : Commit -> ParseResult) (modules : list WorkspaceModule)
    (commits commits' : list Commit) :
  collect parseCommitMessage modules commits
  = collect parseCommitMessage modules
      (filter (fun commit => skippedSubject commit = false) commits)
  /\ collect parseCommitMessage modules (commits ++ commits')
     = (fst (collect parseCommitMessage modules commits)
        ++ fst (collect parseCommitMessage modules commits'),
        snd (collect parseCommitMessage modules commits)
        ++ snd (collect parseCommitMessage modules commits')).
Proof.
  rewrite !collect_spec. unfold runProposals. simpl. split.
  - f_equal.
    + f_equal. symmetry. apply flat_map_filter_nil.
      intros c Hc. by destruct (skippedSubject c).
    + symmetry. apply flat_map_filter_nil.
      intros c Hc. unfold stepDiagnostics. by destruct (skippedSubject c).
  - by rewrite !flat_map_app, filter_app.
Qed.

(** X10.  No proposal is lost in the collecting loop: the bumps it keeps and
    the diagnostics it reports are together as many as the proposals of the
    commits it does not skip plus the commits that the classifier answers
    with a diagnostic. *)
Theorem collect_accounts_for_every_proposal
    (parseCommitMessage : Commit -> ParseResult) (modules : list WorkspaceModule)
    (commits : list Commit) :
  length (fst (collect parseCommitMessage modules commits))
  + length (snd (collect parseCommitMessage modules commits))
  = length (runProposals parseCommitMessage commits)
    + length (filter (fun commit => diagnosed parseCommitMessage commit = true) commits).
Proof.
  rewrite collect_spec. simpl.
  induction commits as [|c commits IH]; [done|].
  rewrite runProposals_cons, filter_app, filter_cons. simpl flat_map.
  rewrite !length_app. unfold stepDiagnostics at 1.
  destruct (skippedSubject c) eqn:Hs; simpl.
  - rewrite decide_False by (unfold diagnosed; by rewrite Hs). simpl. lia.
  - destruct (parseCommitMessage c) as [parsed|d] eqn:Hp; simpl.
    + rewrite decide_False by (unfold diagnosed; by rewrite Hs, Hp).
      rewrite length_map.
      pose proof (filter_complement_length (resolved modules) parsed). lia.
    + rewrite decide_True by (unfold diagnosed; by rewrite Hs, Hp). simpl. lia.
Qed.

(** X11.  With a classifier that answers every commit of the log either with
    a diagnostic for that commit or with at least one proposal, each for
    that commit, no commit is dropped silently: every commit whose subject
    is not skipped is cited by a kept bump or by a diagnostic, and every
    kept bump and every diagnostic cites a commit of the log whose subject
    is not skipped. *)
Theorem every_commit_leaves_a_trace
    (parseCommitMessage : Commit -> ParseResult) (modules : list WorkspaceModule)
    (commits : list Commit) :
  (forall commit, commit ∈ commits ->
     match parseCommitMessage commit with
     | VersionBumps bumps => bumps <> [] /\ Forall (fun b => vb_commit b = commit) bumps
     | Diag d => d_commit d = commit
     end) ->
  let run := collect parseCommitMessage modules commits in
  (forall commit, commit ∈ commits -> skippedSubject commit = false ->
     (exists b, b ∈ fst run /\ vb_commit b = commit)
     \/ (exists d, d ∈ snd run /\ d_commit d = commit))
  /\ (forall b, b ∈ fst run ->
        vb_commit b ∈ commits /\ skippedSubject (vb_commit b) = false)
  /\ (forall d, d ∈ snd run ->
        d_commit d ∈ commits /\ skippedSubject (d_commit d) = false).
Proof.
  intros Hcite run. unfold run. rewrite collect_spec. simpl. clear run.
  unfold runProposals. repeat split.
  - intros c Hc Hs.
    pose proof (Hcite c Hc) as Ho.
    destruct (parseCommitMessage c) as [bumps|d] eqn:Hd.
    + destruct Ho as (Hne & Hall).
      destruct bumps as [|b bumps]; [done|].
      apply Forall_cons in Hall as [Hb _].
      destruct (decide (resolved modules b)) as [Hr|Hr].
      * left. exists b. split; [|done].
        apply list_elem_of_filter. split; [done|].
        apply elem_of_flat_map. exists c. split; [done|].
        rewrite Hs, Hd. simpl. left.
      * right. exists (unresolvedDiagnostic b). split; [|done].
        apply elem_of_flat_map. exists c. split; [done|].
        unfold stepDiagnostics. rewrite Hs, Hd.
        apply list_elem_of_fmap_2, list_elem_of_filter. split; [done|left].
    + right. exists d. split; [|done].
      apply elem_of_flat_map. exists c. split; [done|].
      unfold stepDiagnostics. rewrite Hs, Hd. left.
  - apply list_elem_of_filter in H as [_ H].
    apply elem_of_flat_map in H as (c & Hc & Hb).
    destruct (skippedSubject c) eqn:Hs; [by apply elem_of_nil in Hb|].
    pose proof (Hcite c Hc) as Ho.
    destruct (parseCommitMessage c) as [bumps|d'];
      [|by apply elem_of_nil in Hb].
    destruct Ho as (_ & Hall).
    rewrite Forall_forall in Hall. by rewrite (Hall _ Hb).
  - apply list_elem_of_filter in H as [_ H].
    apply elem_of_flat_map in H as (c & Hc & Hb).
    destruct (skippedSubject c) eqn:Hs; [by apply elem_of_nil in Hb|].
    pose proof (Hcite c Hc) as Ho.
    destruct (parseCommitMessage c) as [bumps|d'];
      [|by apply elem_of_nil in Hb].
    destruct Ho as (_ & Hall).
    rewrite Forall_forall in Hall. by rewrite (Hall _ Hb).
  - apply elem_of_flat_map in H as (c & Hc & Hd).
    unfold stepDiagnostics in Hd.
    destruct (skippedSubject c) eqn:Hs; [by apply elem_of_nil in Hd|].
    pose proof (Hcite c Hc) as Ho.
    destruct (parseCommitMessage c) as [bumps|d'].
    + apply list_elem_of_fmap in Hd as (b & -> & Hb).
      apply list_elem_of_filter in Hb as [_ Hb].
      destruct Ho as (_ & Hall).
      rewrite Forall_forall in Hall. simpl. by rewrite (Hall _ Hb).
    + apply list_elem_of_singleton in Hd as ->. by rewrite Ho.
  - apply elem_of_flat_map in H as (c & Hc & Hd).
    unfold stepDiagnostics in Hd.
    destruct (skippedSubject c) eqn:Hs; [by apply elem_of_nil in Hd|].
    pose proof (Hcite c Hc) as Ho.
    destruct (parseCommitMessage c) as [bumps|d'].
    + apply list_elem_of_fmap in Hd as (b & -> & Hb).
      apply list_elem_of_filter in Hb as [_ Hb].
      destruct Ho as (_ & Hall).
      rewrite Forall_forall in Hall. simpl. by rewrite (Hall _ Hb).
    + apply list_elem_of_singleton in Hd as ->. by rewrite Ho.
Qed.

Lemma every_commit_leaves_a_trace_witness :
  let parseCommitMessage commit := defaultParseCommitMessage commit exampleModules in
  let commits := [exampleCommit "fix(foo,baz): a bug"; exampleCommit "1.2.3";
                  exampleCommit "hello"] in
  let run := collect parseCommitMessage exampleModules commits in
  run = ([exampleBump "foo" "fix" Patch "fix(foo,baz): a bug"],
         [unresolvedDiagnostic (exampleBump "baz" "fix" Patch "fix(foo,baz): a bug");
          exampleDiagnostic unknown_commit "hello"
            "The commit message does not match the default pattern."])
  /\ exampleCommit "fix(foo,baz): a bug" ∈ commits
  /\ skippedSubject (exampleCommit "fix(foo,baz): a bug") = false.
Proof.
  intros parseCommitMessage commits run. split; [by vm_compute|].
  exact (proj1 (proj2 (every_commit_leaves_a_trace parseCommitMessage exampleModules commits
                         (fun commit _ => classify_cites_commit commit exampleModules)))
           (exampleBump "foo" "fix" Patch "fix(foo,baz): a bug")
           (list_elem_of_here _ _)).
Defined.

(** ** The subjects that the collecting loop skips *)

Lemma Match_Seq_inv r1 r2 s cs m s' cs' :
  Regex.Match (r1 >> r2)%re s cs m s' cs' ->
  exists m1 s1 cs1 m2,
    Regex.Match r1 s cs m1 s1 cs1 /\ Regex.Match r2 s1 cs1 m2 s' cs' /\ m = m1 +:+ m2.
Proof.
  inversion 1 as [| | |? ? ? ? m1 s1 cs1 m2 ? ? H1 H2| | | |]; subst.
  by exists m1, s1, cs1, m2.
Qed.

Lemma Match_Plus_inv p s cs m s' cs' :
  Regex.Match (Regex.Plus p) s cs m s' cs' ->
  s = m +:+ s' /\ m <> EmptyString /\ JsString.all p m = true /\ cs' = cs.
Proof. inversion 1 as [| |? ? ? ? Hne Hp| | | | |]; subst. done. Qed.

Lemma Match_text_inv t s cs m s' cs' :
  Regex.Match (Regex.text t) s cs m s' cs' -> s = t +:+ s' /\ m = t /\ cs' = cs.
Proof.
  revert s cs m s' cs'. induction t as [|c t IH]; intros s cs m s' cs'; simpl.
  - inversion 1 as [|? m' ? ? Hm| | | | | |]; subst.
    destruct m as [|d m]; [done|]. simpl in Hm. done.
  - destruct t as [|d t].
    + intros (-> & -> & ->)%Match_lit_inv. done.
    + intros (m1 & s1 & cs1 & m2 & (-> & -> & ->)%Match_lit_inv & H2 & ->)%Match_Seq_inv.
      apply IH in H2 as (-> & -> & ->). done.
Qed.

Lemma Match_text_intro t s cs :
  t <> EmptyString -> Regex.Match (Regex.text t) (t +:+ s) cs t s cs.
Proof.
  induction t as [|c t IH]; [done|]. intros _.
  destruct t as [|d t].
  - simpl. apply Regex.Match_Chr, Ascii.eqb_refl.
  - change (Regex.text (String c (String d t)))
      with (Regex.lit c >> Regex.text (String d t))%re.
    rewrite append_cons.
    apply (Regex.Match_Seq (Regex.lit c) (Regex.text (String d t)) _ cs
             (String c EmptyString) (String d t +:+ s) cs (String d t) s cs);
      [apply Regex.Match_Chr, Ascii.eqb_refl|].
    by apply IH.
Qed.


Lemma Match_numbers_inv s cs m s' cs' :
  Regex.Match
    (Regex.Plus Regex.digit >> Regex.lit "." >> Regex.Plus Regex.digit >> Regex.lit "."
     >> Regex.Plus Regex.digit)%re s cs m s' cs' ->
  exists a b c,
    s = a +:+ "." +:+ b +:+ "." +:+ c +:+ s' /\ digits a /\ digits b /\ digits c.
Proof.
  intros (a & s1 & cs1 & m1 & (-> & Ha & Ha' & ->)%Match_Plus_inv & H & ->)%Match_Seq_inv.
  apply Match_Seq_inv in H
    as (? & s2 & cs2 & m2 & (-> & -> & ->)%Match_lit_inv & H & ->).
  apply Match_Seq_inv in H
    as (b & s3 & cs3 & m3 & (-> & Hb & Hb' & ->)%Match_Plus_inv & H & ->).
  apply Match_Seq_inv in H
    as (? & s4 & cs4 & m4 & (-> & -> & ->)%Match_lit_inv & H & ->).
  apply Match_Plus_inv in H as (-> & Hc & Hc' & ->).
  by exists a, b, m4.
Qed.

Lemma Match_numbers_intro a b c rest cs :
  digits a -> digits b -> digits c ->
  exists m,
    Regex.Match
      (Regex.Plus Regex.digit >> Regex.lit "." >> Regex.Plus Regex.digit >> Regex.lit "."
       >> Regex.Plus Regex.digit)%re
      (a +:+ "." +:+ b +:+ "." +:+ c +:+ rest) cs m rest cs.
Proof.
  intros [Ha Ha'] [Hb Hb'] [Hc Hc']. eexists.
  eapply Regex.Match_Seq; [by apply Regex.Match_Plus|].
  eapply Regex.Match_Seq; [apply Regex.Match_Chr, Ascii.eqb_refl|].
  eapply Regex.Match_Seq; [by apply Regex.Match_Plus|].
  eapply Regex.Match_Seq; [apply Regex.Match_Chr, Ascii.eqb_refl|].
  by apply Regex.Match_Plus.
Qed.

Lemma test_Recognises re s : Regex.test re s = true <-> Regex.Recognises re s.
Proof.
  rewrite <-exec_Recognises. unfold Regex.test.
  destruct (Regex.exec re s); split; try done; by intros [? [=]].
Qed.

Lemma version_subject_shape s :
  Regex.test RE_VERSION_SUBJECT s = true <->
  exists prefix a b c rest,
    s = prefix +:+ a +:+ "." +:+ b +:+ "." +:+ c +:+ rest
    /\ prefix ∈ [EmptyString; "v"] /\ digits a /\ digits b /\ digits c.
Proof.
  rewrite test_Recognises. unfold RE_VERSION_SUBJECT. split.
  - intros (m & s' & cs & H).
    apply Match_Seq_inv in H as (m1 & s1 & cs1 & m2 & Hopt & H & ->).
    apply Match_numbers_inv in H as (a & b & c & -> & Ha & Hb & Hc).
    inversion Hopt as [| | | |? ? ? ? ? ? Hv|? ? ?| |]; subst; clear Hopt.
    + apply Match_lit_inv in Hv as (-> & -> & ->).
      exists "v", a, b, c, s'. split; [done|]. split; [|done].
      apply list_elem_of_further, list_elem_of_here.
    + exists EmptyString, a, b, c, s'. split; [done|]. split; [|done].
      apply list_elem_of_here.
  - intros (prefix & a & b & c & rest & -> & Hp & Ha & Hb & Hc).
    destruct (Match_numbers_intro a b c rest [] Ha Hb Hc) as [m Hm].
    apply elem_of_cons in Hp as [->|Hp].
    + eexists _, _, _. eapply Regex.Match_Seq; [apply Regex.Match_Opt_skipped|].
      rewrite append_nil_l. apply Hm.
    + apply list_elem_of_singleton in Hp as ->.
      eexists _, _, _. eapply Regex.Match_Seq; [|apply Hm].
      apply Regex.Match_Opt_taken.
      change ("v" +:+ ?x) with (String "v" x).
      apply Regex.Match_Chr, Ascii.eqb_refl.
Qed.

Lemma release_subject_shape s :
  Regex.test RE_RELEASE_SUBJECT s = true <->
  exists a b c rest,
    s = "Release " +:+ a +:+ "." +:+ b +:+ "." +:+ c +:+ rest
    /\ digits a /\ digits b /\ digits c.
Proof.
  rewrite test_Recognises. unfold RE_RELEASE_SUBJECT. split.
  - intros (m & s' & cs & H).
    apply Match_Seq_inv in H as (m1 & s1 & cs1 & m2 & Ht & H & ->).
    apply Match_numbers_inv in H as (a & b & c & -> & Ha & Hb & Hc).
    apply Match_text_inv in Ht as (-> & -> & ->).
    by exists a, b, c, s'.
  - intros (a & b & c & rest & -> & Ha & Hb & Hc).
    destruct (Match_numbers_intro a b c rest [] Ha Hb Hc) as [m Hm].
    eexists _, _, _. eapply Regex.Match_Seq; [|apply Hm].
    by apply Match_text_intro.
Qed.

(** X12.  The collecting loop skips a commit exactly when its subject
    starts with three runs of digits separated by dots, after nothing, after
    the letter v or after the word Release and a space; what follows the
    third run is free. *)
Theorem skipped_subject_shape (commit : Commit) :
  skippedSubject commit = true <->
  exists prefix a b c rest,
    subject commit = prefix +:+ a +:+ "." +:+ b +:+ "." +:+ c +:+ rest
    /\ prefix ∈ [EmptyString; "v"; "Release "]
    /\ digits a /\ digits b /\ digits c.
Proof.
  unfold skippedSubject. rewrite orb_true_iff, version_subject_shape, release_subject_shape.
  split.
  - intros [(prefix & a & b & c & rest & Hs & Hp & H)|(a & b & c & rest & Hs & H)].
    + exists prefix, a, b, c, rest. split; [done|]. split; [|done].
      apply elem_of_cons in Hp as [->|Hp]; [apply list_elem_of_here|].
      apply list_elem_of_singleton in Hp as ->.
      apply list_elem_of_further, list_elem_of_here.
    + exists "Release ", a, b, c, rest. split; [done|]. split; [|done].
      do 2 apply list_elem_of_further. apply list_elem_of_here.
  - intros (prefix & a & b & c & rest & Hs & Hp & H).
    apply elem_of_cons in Hp as [->|Hp]; [|apply elem_of_cons in Hp as [->|Hp]].
    + left. exists EmptyString, a, b, c, rest. split; [done|]. split; [|done].
      apply list_elem_of_here.
    + left. exists "v", a, b, c, rest. split; [done|]. split; [|done].
      apply list_elem_of_further, list_elem_of_here.
    + apply list_elem_of_singleton in Hp as ->. right. by exists a, b, c, rest.
Qed.

(** X13.  A subject that starts with a kind of the severity table is never
    skipped as a version or release commit. *)
Theorem known_kinds_are_not_skipped (commit : Commit) (tag rest : string) :
  tag ∈ TAG_PRIORITY -> subject commit = tag +:+ rest -> skippedSubject commit = false.
Proof.
  intros Ht Hs. unfold skippedSubject. rewrite Hs. clear Hs.
  unfold TAG_PRIORITY in Ht. simpl in Ht.
  repeat (apply elem_of_cons in Ht as [->|Ht]); [..|by apply elem_of_nil in Ht];
    by vm_compute.
Qed.

Lemma known_kinds_are_not_skipped_witness :
  skippedSubject (exampleCommit "feat(foo): add a feature") = false.
Proof.
  refine (known_kinds_are_not_skipped (exampleCommit "feat(foo): add a feature")
            "feat" "(foo): add a feature" _ eq_refl).
  apply list_elem_of_further, list_elem_of_here.
Defined.

(** ** Conservation in the aggregator *)

Lemma StronglySorted_lt_NoDup (l : list string) :
  StronglySorted JsString.lt l -> NoDup l.
Proof.
  induction 1 as [|x l Hs IH Hall]; constructor; [|done].
  intros Hx. rewrite Forall_forall in Hall.
  by apply (irreflexivity JsString.lt x), Hall.
Qed.

Lemma sum_list_indicator (x : string) (ks : list string) :
  NoDup ks ->
  sum_list_with (fun k => if decide (x = k) then 1 else 0) ks
  = if decide (x ∈ ks) then 1 else 0.
Proof.
  induction 1 as [|k ks Hk Hnd IH]; [done|]. simpl. rewrite IH.
  destruct (decide (x = k)) as [->|Hne].
  - rewrite decide_False by done. rewrite decide_True by left. done.
  - destruct (decide (x ∈ ks)) as [Hin|Hin].
    + rewrite decide_True by by right. done.
    + rewrite decide_False; [done|]. by intros [?|?]%elem_of_cons.
Qed.

Lemma sum_list_with_add {A} (f g : A -> nat) (l : list A) :
  sum_list_with (fun x => f x + g x) l = sum_list_with f l + sum_list_with g l.
Proof. induction l as [|x l IH]; [done|]. simpl. lia. Qed.

Lemma bumpsOf_count (ks : list string) (bumps : list VersionBump) :
  NoDup ks -> (forall b, b ∈ bumps -> vb_module b ∈ ks) ->
  sum_list_with (fun k => length (bumpsOf k bumps)) ks = length bumps.
Proof.
  intros Hnd. induction bumps as [|b bumps IH]; intros Hin.
  - clear. induction ks as [|k ks IH]; [done|]. simpl in *. lia.
  - simpl. rewrite <-IH by (intros b' Hb'; apply Hin; by right).
    assert (vb_module b ∈ ks) as Hb by (apply Hin; left).
    pose proof (sum_list_indicator (vb_module b) ks Hnd) as Hone.
    rewrite decide_True in Hone by done.
    change (S ?n) with (1 + n). rewrite <-Hone, <-sum_list_with_add.
    clear. induction ks as [|k ks IH]; [done|]. simpl. rewrite IH. f_equal.
    unfold bumpsOf. rewrite filter_cons.
    by destruct (decide (vb_module b = k)).
Qed.

(** X14.  Whenever the aggregator returns, every bump has gone into the
    summary of its module and nowhere else: the commits of a summary are the
    commits of the bumps of its module, each with its tag, in some order;
    the commits of all the summaries are as many as the bumps; no summary is
    without commits or has the severity prerelease; and there is no summary
    exactly when there is no bump. *)
Theorem aggregator_conservation (bumps : list VersionBump) (out : list VersionBumpSummary) :
  summarizeVersionBumpsByModule bumps = Ok out ->
  (forall s, s ∈ out ->
     vs_commits s ≡ₚ map (fun b => {| cwt_commit := vb_commit b; cwt_tag := vb_tag b |})
                       (bumpsOf (vs_module s) bumps)
     /\ vs_commits s <> [] /\ vs_version s <> Prerelease)
  /\ sum_list_with (fun s => length (vs_commits s)) out = length bumps
  /\ (out = [] <-> bumps = []).
Proof.
  intros Hout.
  change (fun b => {| cwt_commit := vb_commit b; cwt_tag := vb_tag b |}) with withTag.
  destruct (summarize_Ok bumps (summarize_Ok_inv _ _ Hout))
    as (out' & Hout' & Heq & Hsorted & Hmem).
  rewrite Hout in Hout'. injection Hout' as <-.
  assert (sum_list_with (fun s => length (vs_commits s)) out = length bumps) as Hsum.
  { rewrite <-(bumpsOf_count (map vs_module out) bumps).
    - rewrite Heq at 1. generalize (map vs_module out). intros ks.
      induction ks as [|k ks IH]; [done|]. simpl. rewrite IH. f_equal.
      by rewrite (Permutation_length (Array_sort_Permutation _ _)), length_map.
    - by apply StronglySorted_lt_NoDup.
    - intros b Hb. apply Hmem. by apply list_elem_of_fmap_2. }
  split; [|split; [done|]].
  - intros s Hs. rewrite Heq in Hs.
    apply list_elem_of_fmap in Hs as (k & -> & Hk). simpl.
    assert (vs_commits (finalSummary bumps k) ≡ₚ map withTag (bumpsOf k bumps)) as Hp
      by apply Array_sort_Permutation.
    split; [done|]. split.
    + intros Hnil. simpl in Hnil, Hp. rewrite Hnil in Hp.
      apply Permutation_nil_l in Hp. symmetry in Hp. apply fmap_nil_inv in Hp.
      apply Hmem in Hk. apply list_elem_of_fmap in Hk as (b & Hb & Hin).
      assert (b ∈ bumpsOf k bumps) as Hbk by (by apply list_elem_of_filter).
      rewrite Hp in Hbk. by apply elem_of_nil in Hbk.
    + unfold maxSeverity. by repeat case_bool_decide.
  - split; [intros ->|intros ->].
    + simpl in Hsum. by destruct bumps.
    + destruct out as [|s out]; [done|].
      assert (vs_module s ∈ map vb_module []) as Hx by (apply Hmem; left).
      by apply elem_of_nil in Hx.
Qed.

Lemma aggregator_conservation_witness :
  sum_list_with (fun s => length (vs_commits s))
    [ {| vs_module := "a"; vs_version := Minor;
         vs_commits := [ {| cwt_commit := exampleCommit "two"; cwt_tag := "feat" |} ] |};
      {| vs_module := "b"; vs_version := Patch;
         vs_commits := [ {| cwt_commit := exampleCommit "one"; cwt_tag := "fix" |} ] |} ]
  = 2.
Proof.
  exact (proj1 (proj2 (aggregator_conservation
                         [ exampleBump "b" "fix" Patch "one";
                           exampleBump "a" "feat" Minor "two" ]
                         _ eq_refl))).
Defined.

(** ** Scope lists *)

Lemma all_append p (s t : string) :
  JsString.all p (s +:+ t) = JsString.all p s && JsString.all p t.
Proof.
  induction s as [|c s IH]; [done|]. rewrite append_cons. simpl.
  by rewrite IH, andb_assoc.
Qed.

Lemma trimStart_split (s : string) :
  exists w, s = w +:+ SemVer.trimStart s /\ JsString.all JsString.isSpace w = true.
Proof.
  induction s as [|c s (w & IH & Hw)]; [by exists EmptyString|]. simpl.
  destruct (JsString.isSpace c) eqn:Hc.
  - exists (String c w). rewrite append_cons, <-IH. simpl. by rewrite Hc.
  - by exists EmptyString.
Qed.

Lemma trimStart_length (s : string) :
  String.length (SemVer.trimStart s) <= String.length s.
Proof.
  destruct (trimStart_split s) as (w & Hs & _).
  rewrite Hs at 2. rewrite append_length. lia.
Qed.

Lemma trimEnd_length (s : string) :
  String.length (SemVer.trimEnd s) <= String.length s.
Proof.
  induction s as [|c s IH]; [done|]. simpl.
  destruct (SemVer.trimEnd s) as [|d t].
  - destruct (JsString.isSpace c); simpl; lia.
  - simpl in *. lia.
Qed.

Lemma trimStart_fixed (s : string) :
  String.length (SemVer.trimStart s) = String.length s -> SemVer.trimStart s = s.
Proof.
  destruct (trimStart_split s) as (w & Hs & _). intros Hlen.
  rewrite Hs in Hlen at 2. rewrite append_length in Hlen.
  destruct w as [|c w]; [by rewrite append_nil_l in Hs|]. simpl in Hlen. lia.
Qed.

(** A string that [trim] leaves as it is has no white space at either end. *)
Lemma trim_fixed (s : string) :
  SemVer.trim s = s -> SemVer.trimStart s = s /\ SemVer.trimEnd s = s.
Proof.
  unfold SemVer.trim. intros H.
  assert (SemVer.trimStart s = s) as Hs.
  { apply trimStart_fixed.
    pose proof (trimEnd_length (SemVer.trimStart s)) as H1.
    pose proof (trimStart_length s) as H2.
    rewrite H in H1. lia. }
  split; [done|]. by rewrite Hs in H.
Qed.

Lemma trimStart_fixed_head c (s : string) :
  SemVer.trimStart (String c s) = String c s -> JsString.isSpace c = false.
Proof.
  simpl. destruct (JsString.isSpace c); [|done]. intros H.
  pose proof (trimStart_length s) as Hlen. rewrite H in Hlen. simpl in Hlen. lia.
Qed.

Lemma trimEnd_fixed_tail c (s : string) :
  SemVer.trimEnd (String c s) = String c s ->
  SemVer.trimEnd s = s /\ (s = EmptyString -> JsString.isSpace c = false).
Proof.
  simpl. destruct (SemVer.trimEnd s) as [|d t] eqn:Ht.
  - destruct (JsString.isSpace c); [done|]. intros [= <-]. done.
  - intros [= <-]. done.
Qed.


Section star_runs.
Context {X : Type}.

Lemma star_longest p w t (k : string -> string -> option X) x :
  JsString.all p w = true ->
  match t with String c _ => p c = false | EmptyString => True end ->
  k w t = Some x ->
  Regex.star p (w +:+ t) k = Some x.
Proof.
  revert k. induction w as [|c w IH]; intros k Hw Ht Hk.
  - rewrite append_nil_l. destruct t as [|d t]; [done|]. simpl. by rewrite Ht.
  - rewrite append_cons. simpl in *. apply andb_true_iff in Hw as [-> Hw].
    by rewrite (IH (fun m r => k (String c m) r)).
Qed.

Lemma star_None p (Q : string -> Prop) s (k : string -> string -> option X) :
  (forall m r, Q r -> k m r = None) ->
  (forall c r, Q (String c r) -> p c = true -> Q r) ->
  Q s -> Regex.star p s k = None.
Proof.
  intros Hk Hclosed. revert k Hk.
  induction s as [|c s IH]; intros k Hk HQ; simpl; [by apply Hk|].
  destruct (p c) eqn:Hc; [|by apply Hk].
  rewrite IH; [by apply Hk| |by apply (Hclosed c)].
  intros m r Hr. by apply Hk.
Qed.
End star_runs.

(** The separator does not match at the start of a string of a family [Q]
    whose members do not start with a comma and which is closed under
    removing a white space from the front. *)
Lemma separator_None (Q : string -> Prop) (s : string) :
  (forall d r, Q (String d r) -> d <> ","%char) ->
  (forall c r, Q (String c r) -> Regex.space c = true -> Q r) ->
  Q s ->
  Regex.run RE_SCOPE_SEPARATOR s [] (fun m _ _ => Some m) = None.
Proof.
  intros Hcomma Hclosed HQ. unfold RE_SCOPE_SEPARATOR. rewrite run_Seq.
  apply (star_None _ Q); [|done|done].
  intros m r Hr. rewrite run_Seq, run_lit.
  destruct r as [|d r]; [done|].
  destruct (Ascii.eqb_spec "," d) as [<-|Hne]; [|done].
  by destruct (Hcomma _ _ Hr).
Qed.

(** The separator at the start of a string: all the white space before the
    comma and all the white space after it. *)
Lemma separator_Some (w1 w2 t : string) :
  JsString.all Regex.space w1 = true -> JsString.all Regex.space w2 = true ->
  match t with String c _ => Regex.space c = false | EmptyString => True end ->
  Regex.run RE_SCOPE_SEPARATOR (w1 +:+ "," +:+ w2 +:+ t) [] (fun m _ _ => Some m)
  = Some (w1 +:+ "," +:+ w2).
Proof.
  intros H1 H2 Ht. unfold RE_SCOPE_SEPARATOR. rewrite run_Seq.
  apply (star_longest Regex.space w1); [done|done|].
  rewrite run_Seq, run_lit.
  change ("," +:+ w2 +:+ t) with (String "," (w2 +:+ t)). simpl Ascii.eqb. cbv iota.
  by apply (star_longest Regex.space w2).
Qed.

Lemma separator_at_comma (s : string) :
  Regex.run RE_SCOPE_SEPARATOR (String "," s) [] (fun m _ _ => Some m) <> None.
Proof.
  intros H.
  assert (is_Some (Regex.run RE_SCOPE_SEPARATOR (String "," s) []
                     (fun m _ _ => Some m))) as [x Hx]; [|congruence].
  eapply run_complete; [|done]. unfold RE_SCOPE_SEPARATOR.
  apply (Regex.Match_Seq _ _ (String "," s) [] EmptyString (String "," s) []
           (String "," EmptyString) s []).
  { by apply (Regex.Match_Star Regex.space EmptyString (String "," s)). }
  apply (Regex.Match_Seq _ _ (String "," s) [] (String "," EmptyString) s []
           EmptyString s []).
  { apply Regex.Match_Chr, Ascii.eqb_refl. }
  by apply (Regex.Match_Star Regex.space EmptyString s).
Qed.

Lemma separator_not_empty (s : string) :
  Regex.run RE_SCOPE_SEPARATOR s [] (fun m _ _ => Some m) <> Some EmptyString.
Proof.
  intros (m & s' & cs' & HM & [= ->])%run_sound.
  unfold RE_SCOPE_SEPARATOR in HM.
  apply Match_Seq_inv in HM as (m1 & s1 & cs1 & m2 & _ & HM & Hm).
  apply Match_Seq_inv in HM as (m3 & s3 & cs3 & m4 & (_ & -> & _)%Match_lit_inv & _ & ->).
  destruct m1; discriminate Hm.
Qed.

Lemma split_from_skip sep (u pending rest : string) :
  Regex.split_from sep (String.length u) pending (u +:+ rest)
  = Regex.split_from sep 0 pending rest.
Proof.
  induction u as [|c u IH]; [by rewrite append_nil_l|].
  rewrite append_cons. simpl. done.
Qed.

Lemma split_from_cons sep (pending : string) c (s : string) :
  Regex.split_from sep 0 pending (String c s) =
  match Regex.run sep (String c s) [] (fun m _ _ => Some m) with
  | Some (String _ m') =>
      pending :: Regex.split_from sep (String.length m') EmptyString s
  | Some EmptyString =>
      match pending with
      | EmptyString => Regex.split_from sep 0 (String c EmptyString) s
      | _ => pending :: Regex.split_from sep 0 (String c EmptyString) s
      end
  | None => Regex.split_from sep 0 (pending +:+ String c EmptyString) s
  end.
Proof. done. Qed.

(** A name is passed as a whole. *)
Lemma split_from_name (n rest pending : string) :
  noComma n = true -> SemVer.trimEnd n = n ->
  Regex.split_from RE_SCOPE_SEPARATOR 0 pending (n +:+ rest)
  = Regex.split_from RE_SCOPE_SEPARATOR 0 (pending +:+ n) rest.
Proof.
  revert pending. induction n as [|c n IH]; intros pending Hn Ht.
  - by rewrite append_nil_l, append_nil_r.
  - rewrite append_cons. rewrite split_from_cons.
    rewrite (separator_None
               (fun r => exists n', r = n' +:+ rest /\ n' <> EmptyString
                                    /\ noComma n' = true /\ SemVer.trimEnd n' = n')).
    + apply trimEnd_fixed_tail in Ht as [Ht _].
      apply andb_true_iff in Hn as [_ Hn].
      rewrite (IH _ Hn Ht), append_assoc. done.
    + intros d r ([|d' n'] & Hr & Hne & Hc & _); [done|].
      rewrite append_cons in Hr. injection Hr as -> _.
      apply andb_true_iff in Hc as [Hc _]. intros ->. done.
    + intros d r ([|d' n'] & Hr & Hne & Hc & Hte) Hd; [done|].
      rewrite append_cons in Hr. injection Hr as -> ->.
      apply trimEnd_fixed_tail in Hte as [Hte Hlast].
      apply andb_true_iff in Hc as [_ Hc].
      exists n'. repeat split; try done.
      intros ->. specialize (Hlast eq_refl). unfold Regex.space in Hd. congruence.
    + exists (String c n). by rewrite append_cons.
Qed.

(** A separator ends the pending name. *)
Lemma split_from_separator (w1 w2 t pending : string) :
  JsString.all Regex.space w1 = true -> JsString.all Regex.space w2 = true ->
  match t with String c _ => Regex.space c = false | EmptyString => True end ->
  Regex.split_from RE_SCOPE_SEPARATOR 0 pending (w1 +:+ "," +:+ w2 +:+ t)
  = pending :: Regex.split_from RE_SCOPE_SEPARATOR 0 EmptyString t.
Proof.
  intros H1 H2 Ht.
  pose proof (separator_Some w1 w2 t H1 H2 Ht) as Hsep.
  rewrite <-(append_assoc w1), <-(append_assoc (w1 +:+ ",")) in Hsep |- *.
  rewrite (append_assoc w1) in Hsep |- *.
  destruct (w1 +:+ "," +:+ w2) as [|c m] eqn:Hm.
  { destruct w1; discriminate Hm. }
  rewrite append_cons in Hsep |- *. rewrite split_from_cons. rewrite Hsep.
  by rewrite split_from_skip.
Qed.

Lemma scopeList_head (first : string) (rest : list listed) :
  exists tail, scopeList first rest = first +:+ tail.
Proof.
  destruct rest as [|x rest]; simpl.
  - exists EmptyString. by rewrite append_nil_r.
  - by eexists.
Qed.

Lemma listedName_head (n tail : string) :
  listedName n ->
  match n +:+ tail with String c _ => Regex.space c = false | EmptyString => True end.
Proof.
  intros (Hne & _ & [Hs _]%trim_fixed). destruct n as [|c n]; [done|].
  rewrite append_cons. by apply trimStart_fixed_head in Hs.
Qed.

Lemma split_from_scopeList (first : string) (rest : list listed) (pending : string) :
  noComma first = true -> SemVer.trimEnd first = first -> Forall wellListed rest ->
  Regex.split_from RE_SCOPE_SEPARATOR 0 pending (scopeList first rest)
  = (pending +:+ first) :: map l_name rest.
Proof.
  revert first pending. induction rest as [|x rest IH]; intros first pending Hc Ht Hrest.
  - simpl. rewrite <-(append_nil_r first) at 1. by rewrite split_from_name.
  - apply Forall_cons in Hrest as [(H1 & H2 & Hx) Hrest]. simpl.
    rewrite split_from_name by done.
    destruct (scopeList_head (l_name x) rest) as [tail Htail].
    rewrite split_from_separator; [|done|done|rewrite Htail; by apply listedName_head].
    destruct Hx as (Hne & Hcx & [_ Htx]%trim_fixed).
    by rewrite IH, append_nil_l.
Qed.

Lemma split_noComma (s pending : string) :
  noComma s = true ->
  Regex.split_from RE_SCOPE_SEPARATOR 0 pending s = [pending +:+ s].
Proof.
  revert pending. induction s as [|c s IH]; intros pending Hs.
  - by rewrite append_nil_r.
  - rewrite split_from_cons.
    rewrite (separator_None (fun r => noComma r = true)).
    + apply andb_true_iff in Hs as [_ Hs]. by rewrite IH, append_assoc.
    + intros d r [Hd _]%andb_true_iff ->. done.
    + by intros d r [_ Hr]%andb_true_iff _.
    + done.
Qed.

Lemma split_from_noComma (skip : nat) (pending s : string) :
  noComma pending = true ->
  Forall (fun x => noComma x = true) (Regex.split_from RE_SCOPE_SEPARATOR skip pending s).
Proof.
  revert skip pending. induction s as [|c s IH]; intros skip pending Hp.
  - by apply Forall_singleton.
  - destruct skip as [|n]; [|by apply IH].
    rewrite split_from_cons.
    destruct (Regex.run RE_SCOPE_SEPARATOR (String c s) [] (fun m _ _ => Some m))
      as [[|d m]|] eqn:Hrun.
    + by apply separator_not_empty in Hrun.
    + apply Forall_cons. split; [done|]. by apply IH.
    + apply IH. unfold noComma. rewrite all_append. fold (noComma pending).
      rewrite Hp. simpl. rewrite andb_true_r.
      destruct (Ascii.eqb_spec c ",") as [->|Hne]; [|done].
      by apply separator_at_comma in Hrun.
Qed.

(** The wildcard is the scope that consists of one asterisk. *)
Lemma classify_listed (commit : Commit) (workspaceModules : list WorkspaceModule)
    (caps : Regex.captures) (tag scope : string) (version : VersionValue) :
  Regex.exec RE_DEFAULT_PATTERN (subject commit) = Some caps ->
  Regex.group 1 caps = Some tag ->
  Regex.group 2 caps = Some scope ->
  TAG_TO_VERSION_get tag = Some version ->
  scope <> "*" ->
  defaultParseCommitMessage commit workspaceModules =
  VersionBumps
    (map (fun module => {| vb_module := module; vb_tag := tag;
                           vb_version := version; vb_commit := commit |})
         (Regex.split RE_SCOPE_SEPARATOR scope)).
Proof.
  intros He Hg1 Hg2 Ht Hw.
  pose proof (exec_default_scope_nonempty _ _ _ He Hg2) as Hne.
  unfold defaultParseCommitMessage. rewrite He, Hg1, Hg2. simpl default.
  rewrite bool_decide_eq_false_2 by congruence.
  destruct scope as [|c scope]; [done|].
  destruct (Regex.split RE_SCOPE_SEPARATOR (String c scope)) as [|m ms] eqn:Hsplit.
  { by apply split_from_not_nil in Hsplit. }
  by rewrite Ht.
Qed.

(** X3.  A scope that lists names separated by commas, each comma with any
    white space around it, yields one proposal per name, in order, with the
    kind of the subject, its severity and the commit; the names are not
    empty, hold no comma and have no white space at either end. *)
Theorem listed_scopes_are_split
    (commit : Commit) (workspaceModules : list WorkspaceModule)
    (caps : Regex.captures) (tag : string) (version : VersionValue)
    (first : string) (rest : list listed) :
  Regex.exec RE_DEFAULT_PATTERN (subject commit) = Some caps ->
  Regex.group 1 caps = Some tag ->
  Regex.group 2 caps = Some (scopeList first rest) ->
  TAG_TO_VERSION_get tag = Some version ->
  listedName first -> Forall wellListed rest ->
  scopeList first rest <> "*" ->
  defaultParseCommitMessage commit workspaceModules =
  VersionBumps
    (map (fun module => {| vb_module := module; vb_tag := tag;
                           vb_version := version; vb_commit := commit |})
         (first :: map l_name rest)).
Proof.
  intros He Hg1 Hg2 Ht (Hne & Hc & [_ Hte]%trim_fixed) Hrest Hw.
  rewrite (classify_listed _ _ _ _ _ _ He Hg1 Hg2 Ht Hw).
  unfold Regex.split. by rewrite split_from_scopeList, append_nil_l.
Qed.

Lemma listed_scopes_are_split_witness :
  exampleParse "fix(foo , bar,baz): a bug" =
  VersionBumps [ exampleBump "foo" "fix" Patch "fix(foo , bar,baz): a bug";
                 exampleBump "bar" "fix" Patch "fix(foo , bar,baz): a bug";
                 exampleBump "baz" "fix" Patch "fix(foo , bar,baz): a bug" ].
Proof.
  refine (listed_scopes_are_split
            (exampleCommit "fix(foo , bar,baz): a bug") exampleModules _ "fix" (Version Patch)
            "foo"
            [ {| l_before := " "; l_after := " "; l_name := "bar" |};
              {| l_before := EmptyString; l_after := EmptyString; l_name := "baz" |} ]
            eq_refl eq_refl eq_refl eq_refl _ _ _).
  - by vm_compute.
  - repeat constructor; by vm_compute.
  - by vm_compute.
Defined.

(** X4.  A scope without comma other than the wildcard yields exactly one
    proposal, whose module is the scope as written: white space is removed
    around commas only. *)
Theorem single_scope_is_kept_as_written
    (commit : Commit) (workspaceModules : list WorkspaceModule)
    (caps : Regex.captures) (tag scope : string) (version : VersionValue) :
  Regex.exec RE_DEFAULT_PATTERN (subject commit) = Some caps ->
  Regex.group 1 caps = Some tag ->
  Regex.group 2 caps = Some scope ->
  TAG_TO_VERSION_get tag = Some version ->
  noComma scope = true -> scope <> "*" ->
  defaultParseCommitMessage commit workspaceModules =
  VersionBumps [ {| vb_module := scope; vb_tag := tag;
                    vb_version := version; vb_commit := commit |} ].
Proof.
  intros He Hg1 Hg2 Ht Hc Hw.
  rewrite (classify_listed _ _ _ _ _ _ He Hg1 Hg2 Ht Hw).
  unfold Regex.split. by rewrite split_noComma, append_nil_l.
Qed.

Lemma single_scope_is_kept_as_written_witness :
  exampleParse "fix( foo ): a bug" =
  VersionBumps [ exampleBump " foo " "fix" Patch "fix( foo ): a bug" ].
Proof.
  exact (single_scope_is_kept_as_written
           (exampleCommit "fix( foo ): a bug") exampleModules _ "fix" " foo " (Version Patch)
           eq_refl eq_refl eq_refl eq_refl eq_refl ltac:(discriminate)).
Defined.

(** X5.  Unless the scope is the wildcard, no proposal refers to a module
    by a name that holds a comma. *)
Theorem no_reference_holds_a_comma
    (commit : Commit) (workspaceModules : list WorkspaceModule) (caps : Regex.captures) :
  Regex.exec RE_DEFAULT_PATTERN (subject commit) = Some caps ->
  Regex.group 2 caps <> Some "*" ->
  Forall (fun b => noComma (vb_module b) = true)
         (proposals (defaultParseCommitMessage commit workspaceModules)).
Proof.
  intros He Hw. unfold defaultParseCommitMessage. rewrite He.
  rewrite bool_decide_eq_false_2 by done.
  destruct (Regex.group 2 caps) as [[|c scope]|]; simpl;
    try (destruct (JsString.includes _ _); by apply Forall_nil).
  pose proof (split_from_noComma 0 EmptyString (String c scope) eq_refl) as Hall.
  fold (Regex.split RE_SCOPE_SEPARATOR (String c scope)) in Hall.
  destruct (Regex.split RE_SCOPE_SEPARATOR (String c scope)) as [|m ms].
  { destruct (JsString.includes _ _); by apply Forall_nil. }
  destruct (TAG_TO_VERSION_get _); cbn [proposals]; [|by apply Forall_nil].
  apply Forall_fmap. by apply (Forall_impl _ _ _ Hall).
Qed.

Lemma no_reference_holds_a_comma_witness :
  Forall (fun b => noComma (vb_module b) = true)
         (proposals (exampleParse "fix(foo , bar,baz): a bug")).
Proof.
  exact (no_reference_holds_a_comma
           (exampleCommit "fix(foo , bar,baz): a bug") exampleModules _
           eq_refl ltac:(discriminate)).
Defined.

(** ** The commit log *)

Lemma take_append (a b : string) : GitLog.take (String.length a) (a +:+ b) = a.
Proof. induction a as [|c a IH]; [by destruct b|]. rewrite append_cons. simpl. by rewrite IH. Qed.

Lemma take_length (n : nat) (s : string) : String.length (GitLog.take n s) <= n.
Proof.
  revert s. induction n as [|n IH]; intros [|c s]; simpl; try lia.
  specialize (IH s). lia.
Qed.

Lemma indexOf_None c (s : string) :
  GitLog.indexOf c s = None ->
  JsString.all (fun d => negb (Ascii.eqb d c)) s = true.
Proof.
  induction s as [|d s IH]; [done|]. simpl.
  destruct (Ascii.eqb d c); [done|].
  destruct (GitLog.indexOf c s); [done|]. intros _. by apply IH.
Qed.

Lemma indexOf_Some c (s : string) (i : nat) :
  GitLog.indexOf c s = Some i ->
  JsString.all (fun d => negb (Ascii.eqb d c)) (GitLog.take i s) = true.
Proof.
  revert i. induction s as [|d s IH]; intros i; [done|]. simpl.
  destruct (Ascii.eqb d c) eqn:Hd; [by intros [= <-]|].
  destruct (GitLog.indexOf c s) as [j|]; [|done].
  intros [= <-]. simpl. rewrite Hd. by apply IH.
Qed.

Lemma indexOf_append c (a b : string) :
  JsString.all (fun d => negb (Ascii.eqb d c)) a = true ->
  GitLog.indexOf c (a +:+ String c b) = Some (String.length a).
Proof.
  induction a as [|d a IH]; simpl.
  - by rewrite Ascii.eqb_refl.
  - intros [Hd Ha]%andb_true_iff.
    apply negb_true_iff in Hd as ->. by rewrite IH.
Qed.

Lemma all_trimStart p (s : string) :
  JsString.all p s = true -> JsString.all p (SemVer.trimStart s) = true.
Proof.
  induction s as [|c s IH]; [done|]. simpl.
  intros [Hc Hs]%andb_true_iff.
  destruct (JsString.isSpace c); [by apply IH|]. simpl. by rewrite Hc.
Qed.

Lemma all_trimEnd p (s : string) :
  JsString.all p s = true -> JsString.all p (SemVer.trimEnd s) = true.
Proof.
  induction s as [|c s IH]; [done|]. simpl.
  intros [Hc Hs]%andb_true_iff. specialize (IH Hs).
  destruct (SemVer.trimEnd s) as [|d t].
  - destruct (JsString.isSpace c); [done|]. simpl. by rewrite Hc.
  - simpl in *. by rewrite Hc.
Qed.

Lemma trimStart_space_append (w s : string) :
  JsString.all JsString.isSpace w = true ->
  SemVer.trimStart (w +:+ s) = SemVer.trimStart s.
Proof.
  induction w as [|c w IH]; [by rewrite append_nil_l|].
  simpl. intros [Hc Hw]%andb_true_iff.
  rewrite Hc. by apply IH.
Qed.

Lemma trimEnd_space (w : string) :
  JsString.all JsString.isSpace w = true -> SemVer.trimEnd w = EmptyString.
Proof.
  induction w as [|c w IH]; [done|]. simpl.
  intros [Hc Hw]%andb_true_iff. by rewrite IH, Hc.
Qed.

Lemma trimEnd_append_space (s w : string) :
  JsString.all JsString.isSpace w = true ->
  SemVer.trimEnd (s +:+ w) = SemVer.trimEnd s.
Proof.
  intros Hw. induction s as [|c s IH].
  - rewrite append_nil_l. by apply trimEnd_space.
  - rewrite append_cons. simpl. by rewrite IH.
Qed.

Lemma trim_padded (w1 b w2 : string) :
  JsString.all JsString.isSpace w1 = true -> JsString.all JsString.isSpace w2 = true ->
  SemVer.trim b = b -> SemVer.trim (w1 +:+ b +:+ w2) = b.
Proof.
  intros H1 H2 [Hs He]%trim_fixed. unfold SemVer.trim.
  rewrite trimStart_space_append by done.
  destruct b as [|c b].
  - rewrite append_nil_l.
    rewrite <-(append_nil_r w2), trimStart_space_append by done. done.
  - pose proof (trimStart_fixed_head _ _ Hs) as Hc.
    rewrite append_cons. simpl SemVer.trimStart. rewrite Hc.
    rewrite <-append_cons. by rewrite trimEnd_append_space.
Qed.

Lemma trimEnd_head c (s : string) :
  SemVer.trimEnd (String c s) = EmptyString
  \/ exists t, SemVer.trimEnd (String c s) = String c t.
Proof.
  simpl. destruct (SemVer.trimEnd s) as [|d t].
  - destruct (JsString.isSpace c); [by left|right; by eexists].
  - right. by eexists.
Qed.

Lemma trimEnd_idempotent (s : string) :
  SemVer.trimEnd (SemVer.trimEnd s) = SemVer.trimEnd s.
Proof.
  induction s as [|c s IH]; [done|]. simpl.
  destruct (SemVer.trimEnd s) as [|d t] eqn:Ht.
  - destruct (JsString.isSpace c) eqn:Hc; [done|]. simpl. by rewrite Hc.
  - change (SemVer.trimEnd (String c (String d t))) with
      (match SemVer.trimEnd (String d t) with
       | EmptyString => if JsString.isSpace c then EmptyString else String c EmptyString
       | t' => String c t'
       end).
    by rewrite IH.
Qed.

Lemma trim_idempotent (s : string) : SemVer.trim (SemVer.trim s) = SemVer.trim s.
Proof.
  unfold SemVer.trim.
  assert (SemVer.trimStart (SemVer.trimEnd (SemVer.trimStart s))
          = SemVer.trimEnd (SemVer.trimStart s)) as ->.
  { destruct (SemVer.trimStart s) as [|c t] eqn:Hs; [done|].
    assert (JsString.isSpace c = false) as Hc.
    { clear -Hs. induction s as [|d s IH]; [done|]. simpl in Hs.
      destruct (JsString.isSpace d) eqn:Hd; [by apply IH|]. by injection Hs as <- _. }
    destruct (trimEnd_head c t) as [->|[t' ->]]; [done|]. simpl. by rewrite Hc. }
  apply trimEnd_idempotent.
Qed.

Lemma all_trim p (s : string) :
  JsString.all p s = true -> JsString.all p (SemVer.trim s) = true.
Proof. intros H. by apply all_trimEnd, all_trimStart. Qed.

(** X15.  Every commit read from a log has a subject without line feed and
    without white space at either end, a body without white space at either
    end, and a hash of at most 40 code units. *)
Theorem commits_read_are_trimmed (text : string) :
  Forall (fun commit =>
            JsString.all (fun c => negb (Ascii.eqb c GitLog.LF)) (subject commit) = true
            /\ SemVer.trim (subject commit) = subject commit
            /\ SemVer.trim (body commit) = body commit
            /\ String.length (hash commit) <= 40)
         (GitLog.commits text).
Proof.
  unfold GitLog.commits.
  assert (forall l : list Commit, forall P, Forall P l -> Forall P (tail l)) as Htail
    by (intros l P [|x l' _ H]; done).
  apply Htail, Forall_fmap, Forall_forall. intros piece _.
  unfold GitLog.readCommit, compose.
  destruct (GitLog.indexOf GitLog.LF (JsString.drop 40 piece)) as [i|] eqn:Hi;
    cbn [subject body hash].
  - repeat split; try apply trim_idempotent; [|apply take_length].
    by apply all_trim, indexOf_Some.
  - repeat split; try apply trim_idempotent; [|apply take_length].
    by apply all_trim, indexOf_None.
Qed.

Lemma separator_head :
  exists t, GitLog.separator = String "#" (String "%" t).
Proof. eexists. by vm_compute. Qed.

Lemma startsWith_append (t r : string) : GitLog.startsWith (t +:+ r) t = true.
Proof.
  induction t as [|c t IH]; [done|]. rewrite append_cons. simpl.
  by rewrite Ascii.eqb_refl, IH.
Qed.

(** What follows a piece of the log: nothing, or a separator. *)
Lemma startsWith_unmarked c (s rest : string) :
  unmarked (String c s) = true ->
  (rest = EmptyString \/ exists rest', rest = GitLog.separator +:+ rest') ->
  GitLog.startsWith (String c (s +:+ rest)) GitLog.separator = false.
Proof.
  destruct separator_head as [t Hsep]. rewrite Hsep. simpl.
  intros [Hc _]%andb_true_iff Hrest.
  destruct (Ascii.eqb c "#"); [|done]. simpl in *.
  destruct s as [|d s].
  - rewrite append_nil_l. destruct Hrest as [->|[rest' ->]]; [done|].
    by rewrite !append_cons.
  - rewrite append_cons. apply negb_true_iff in Hc as ->. done.
Qed.

Lemma log_split_from_cons sep (pending : string) c (s : string) :
  GitLog.split_from sep 0 pending (String c s) =
  if GitLog.startsWith (String c s) sep
  then pending :: GitLog.split_from sep (String.length sep - 1) EmptyString s
  else GitLog.split_from sep 0 (pending +:+ String c EmptyString) s.
Proof. done. Qed.

Lemma log_split_from_skip sep (u pending rest : string) :
  GitLog.split_from sep (String.length u) pending (u +:+ rest)
  = GitLog.split_from sep 0 pending rest.
Proof.
  induction u as [|c u IH]; [by rewrite append_nil_l|].
  rewrite append_cons. simpl. done.
Qed.

Lemma log_split_unmarked (t rest pending : string) :
  unmarked t = true ->
  (rest = EmptyString \/ exists rest', rest = GitLog.separator +:+ rest') ->
  GitLog.split_from GitLog.separator 0 pending (t +:+ rest)
  = GitLog.split_from GitLog.separator 0 (pending +:+ t) rest.
Proof.
  intros Ht Hrest. revert pending Ht. induction t as [|c t IH]; intros pending Ht.
  - by rewrite append_nil_l, append_nil_r.
  - rewrite append_cons, log_split_from_cons, startsWith_unmarked by done.
    assert (unmarked t = true) as Ht' by (by apply andb_true_iff in Ht as [_ ?]).
    by rewrite IH, append_assoc.
Qed.

Lemma log_split_at sep c (u rest pending : string) :
  sep = String c u ->
  GitLog.split_from sep 0 pending (sep +:+ rest)
  = pending :: GitLog.split_from sep 0 EmptyString rest.
Proof.
  intros ->. pose proof (startsWith_append (String c u) rest) as Hs.
  rewrite append_cons in Hs |- *. rewrite log_split_from_cons, Hs.
  replace (String.length (String c u) - 1) with (String.length u) by (simpl; lia).
  by rewrite log_split_from_skip.
Qed.

Lemma log_split_separator (rest pending : string) :
  GitLog.split_from GitLog.separator 0 pending (GitLog.separator +:+ rest)
  = pending :: GitLog.split_from GitLog.separator 0 EmptyString rest.
Proof. destruct separator_head as [t Hsep]. by eapply log_split_at. Qed.

Lemma log_split (t : string) (entries : list logged) (pending : string) :
  unmarked t = true -> Forall (fun e => unmarked (logEntry e) = true) entries ->
  GitLog.split_from GitLog.separator 0 pending (logText t entries)
  = (pending +:+ t) :: map logEntry entries.
Proof.
  revert t pending. induction entries as [|e entries IH]; intros t pending Ht Hall.
  - simpl. rewrite <-(append_nil_r t) at 1. by rewrite log_split_unmarked by auto.
  - apply Forall_cons in Hall as [He Hall]. simpl.
    rewrite log_split_unmarked by eauto.
    by rewrite log_split_separator, IH, append_nil_l.
Qed.

Lemma drop_append_cons (a : string) c (b : string) :
  JsString.drop (String.length a + 1) (a +:+ String c b) = b.
Proof. induction a as [|d a IH]; [done|]. rewrite append_cons. simpl. done. Qed.

Lemma readCommit_logEntry (e : logged) :
  wellLogged e -> GitLog.readCommit (logEntry e) = e_commit e.
Proof.
  intros (Hh & Hs & Hts & Htb & Hg & Hend & _).
  destruct e as [[s b h] gap end_].
  cbn [e_commit e_gap e_end hash subject body] in *.
  unfold GitLog.readCommit, logEntry.
  cbn [e_commit e_gap e_end hash subject body].
  rewrite <-Hh, take_append, drop_append.
  change (String GitLog.LF EmptyString +:+ ?x) with (String GitLog.LF x).
  rewrite indexOf_append by done. rewrite take_append, drop_append_cons.
  by rewrite Hts, trim_padded.
Qed.

(** X16.  A log that holds, after any text, each commit behind a separator
    as the 40 code units of its hash, its subject, a line feed and its body
    between white space is read back as the list of these commits, when no
    number sign followed by a percent sign stands in the texts, the subjects
    hold no line feed and subjects and bodies have no white space at either
    end.  The text before the first separator is dropped. *)
Theorem log_round_trip (preamble : string) (entries : list logged) :
  unmarked preamble = true -> Forall wellLogged entries ->
  GitLog.commits (logText preamble entries) = map e_commit entries.
Proof.
  intros Hp Hall. unfold GitLog.commits, GitLog.split.
  rewrite log_split; [|done|].
  - simpl. rewrite <-list_fmap_compose. apply Forall_fmap_ext_1.
    apply (Forall_impl _ _ _ Hall). intros e He. by apply readCommit_logEntry.
  - apply (Forall_impl _ _ _ Hall). by intros e (_ & _ & _ & _ & _ & _ & He).
Qed.

Lemma log_round_trip_witness :
  GitLog.commits
    (GitLog.separator
     +:+ "0123456789abcdef0123456789abcdef01234567fix(foo): a bug (#12)"
     +:+ String GitLog.LF (String GitLog.LF "Closes #11.") +:+ String GitLog.LF EmptyString)
  = [ {| subject := "fix(foo): a bug (#12)"; body := "Closes #11.";
         hash := "0123456789abcdef0123456789abcdef01234567" |} ].
Proof.
  refine (log_round_trip EmptyString
            [ {| e_commit := {| subject := "fix(foo): a bug (#12)"; body := "Closes #11.";
                                hash := "0123456789abcdef0123456789abcdef01234567" |};
                 e_gap := String GitLog.LF EmptyString;
                 e_end := String GitLog.LF EmptyString |} ]
            eq_refl _).
  repeat constructor; by vm_compute.
Defined.

(** ** The release title *)

Lemma string_of_uint_digits (u : Decimal.uint) :
  JsString.all JsString.isDigit (NilEmpty.string_of_uint u) = true.
Proof. induction u; simpl; by rewrite ?IHu. Qed.

Lemma formatNumber_digits (n : N) : digits (SemVer.formatNumber n).
Proof.
  unfold SemVer.formatNumber. split; [|apply string_of_uint_digits].
  assert (N.to_uint n <> Decimal.Nil) as Hn.
  { destruct n as [|p]; [done|]. apply DecimalPos.Unsigned.to_uint_nonnil. }
  by destruct (N.to_uint n).
Qed.

Lemma padStart_digits (n : nat) (s : string) : digits s -> digits (padStart n "0" s).
Proof.
  intros [Hne Hs]. unfold padStart.
  induction (n - String.length s) as [|k [IH1 IH2]]; [done|]. simpl.
  split; [done|]. apply IH2.
Qed.

Lemma Number_toString_digits (n : Z) : (0 <= n)%Z -> digits (Number_toString n).
Proof.
  destruct n as [|p|p]; [intros _; apply formatNumber_digits..|lia].
Qed.

(** X17.  The title of a release, for a date whose year is not negative, is
    made of three runs of digits separated by dots, so that a commit whose
    subject is the word Release, a space and the title, as the pull request
    of the release is named, with any text after it, is skipped by the
    collecting loop of the next run. *)
Theorem release_commit_is_skipped (d : Date) (commit : Commit) (rest : string) :
  (0 <= getUTCFullYear d)%Z ->
  subject commit = "Release " +:+ createReleaseTitle d +:+ rest ->
  skippedSubject commit = true.
Proof.
  intros Hy Hs. unfold skippedSubject. apply orb_true_iff. right.
  apply release_subject_shape. rewrite Hs. unfold createReleaseTitle.
  exists (Number_toString (getUTCFullYear d)),
    (padStart 2 "0" (Number_toString (Z.of_N (getUTCMonth d) + 1))),
    (padStart 2 "0" (Number_toString (Z.of_N (getUTCDate d)))), rest.
  split; [by rewrite !append_assoc|].
  repeat split; try apply padStart_digits; apply Number_toString_digits; lia.
Qed.

Lemma release_commit_is_skipped_witness :
  skippedSubject (exampleCommit "Release 1970.01.01 (#123)") = true.
Proof.
  refine (release_commit_is_skipped
            {| getUTCFullYear := 1970; getUTCMonth := 0; getUTCDate := 1 |}
            (exampleCommit "Release 1970.01.01 (#123)") " (#123)" _ eq_refl).
  simpl. lia.
Defined.

(** ** The update loop *)

Lemma moduleMatches_name (module : string) (m m' : WorkspaceModule) :
  wm_name m = wm_name m' -> moduleMatches module m = moduleMatches module m'.
Proof. unfold moduleMatches. by intros ->. Qed.

Lemma getModule_matches (module : string) (modules : list WorkspaceModule) (m : WorkspaceModule) :
  getModule module modules = Some m -> m ∈ modules /\ moduleMatches module m = true.
Proof.
  unfold getModule. intros [Hin Hm]%find_some. by rewrite list_elem_of_In.
Qed.

(** After the assignment of a version, a reference resolves to the module
    at the same place: the one with the new version if it is the module
    that was assigned to. *)
Lemma getModule_setVersion (module module' version : string) (modules : list WorkspaceModule) :
  getModule module' (setVersion module version modules) =
  match getModule module' modules with
  | None => None
  | Some m' =>
      Some (if decide (option_map wm_name (getModule module modules) = Some (wm_name m'))
            then {| wm_name := wm_name m'; wm_version := version; wm_path := wm_path m' |}
            else m')
  end.
Proof.
  unfold getModule. induction modules as [|x modules IH]; [done|]. simpl.
  destruct (moduleMatches module x) eqn:Ha, (moduleMatches module' x) eqn:Hb; simpl.
  - rewrite (moduleMatches_name module' _ x) by done. rewrite Hb.
    by rewrite decide_True.
  - rewrite (moduleMatches_name module' _ x) by done. rewrite Hb.
    destruct (find (moduleMatches module') modules) as [m'|] eqn:Hm'; [|done].
    rewrite decide_False; [done|]. intros [= Hname].
    apply find_some in Hm' as [_ Hm'].
    rewrite (moduleMatches_name module' x m') in Hb by done. congruence.
  - rewrite Hb. rewrite decide_False; [done|].
    destruct (find (moduleMatches module) modules) as [m|] eqn:Hm; [|done].
    intros [= Hname]. apply find_some in Hm as [_ Hm].
    rewrite (moduleMatches_name module m x) in Hm by done. congruence.
  - rewrite Hb. apply IH.
Qed.

Lemma getModule_setVersion_is_Some (module module' version : string)
    (modules : list WorkspaceModule) :
  is_Some (getModule module' modules) ->
  is_Some (getModule module' (setVersion module version modules)).
Proof. intros [m Hm]. rewrite getModule_setVersion, Hm. by eexists. Qed.

Lemma updateLoop_Throw (RegExp : RegExpConstructor) (oldModules : list WorkspaceModule)
    (summaries : list VersionBumpSummary)
    (modules : list WorkspaceModule) (updates : JsObject.t VersionUpdateResult) (e : exn) :
  Forall (fun s => is_Some (getModule (vs_module s) modules)) summaries ->
  updateLoop RegExp oldModules (modules, updates) summaries = Throw e ->
  exists summary module,
    summary ∈ summaries
    /\ applyVersionBump RegExp summary module (getModule (vs_module summary) oldModules) = Throw e.
Proof.
  revert modules updates.
  induction summaries as [|s summaries IH]; intros modules updates Hall; [done|].
  apply Forall_cons in Hall as [[m Hm] Hall]. simpl. rewrite Hm.
  destruct (applyVersionBump RegExp s m (getModule (vs_module s) oldModules)) as [r|e'] eqn:Hr; simpl.
  - intros Hloop. apply IH in Hloop as (s' & m' & Hs' & He).
    + exists s', m'. split; [by right|done].
    + apply (Forall_impl _ _ _ Hall). intros s'. apply getModule_setVersion_is_Some.
  - intros [= <-]. exists s, m. split; [left|done].
Qed.

(** X18.  In a run every summary refers to a module that resolves, so that
    the update loop finds a module for each of them: when the loop throws,
    the exception is one that [applyVersionBump] has thrown for a summary of
    the run. *)
Theorem run_summaries_resolve
    (RegExp : RegExpConstructor) (parseCommitMessage : Commit -> ParseResult)
    (modules oldModules : list WorkspaceModule) (commits : list Commit)
    (summaries : list VersionBumpSummary) :
  summarizeVersionBumpsByModule (fst (collect parseCommitMessage modules commits))
    = Ok summaries ->
  Forall (fun s => exists m, getModule (vs_module s) modules = Some m
                             /\ m ∈ modules /\ refersTo (vs_module s) m) summaries
  /\ forall e,
       updateLoop RegExp oldModules (modules, []) summaries = Throw e ->
       exists summary module,
         summary ∈ summaries
         /\ applyVersionBump RegExp summary module (getModule (vs_module summary) oldModules)
            = Throw e.
Proof.
  intros Hout.
  assert (Forall (fun s => is_Some (getModule (vs_module s) modules)) summaries) as Hres.
  { destruct (summarize_Ok _ (summarize_Ok_inv _ _ Hout)) as (out & Hout' & _ & _ & Hmem).
    rewrite Hout in Hout'. injection Hout' as <-.
    apply Forall_forall. intros s Hs.
    assert (vs_module s ∈ map vs_module summaries) as Hm by by apply list_elem_of_fmap_2.
    apply Hmem in Hm. apply list_elem_of_fmap in Hm as (b & Hb & Hin).
    rewrite collect_spec in Hin. simpl in Hin.
    apply list_elem_of_filter in Hin as [Hr _]. by rewrite Hb. }
  split.
  - apply (Forall_impl _ _ _ Hres). intros s [m Hm]. exists m.
    destruct (getModule_matches _ _ _ Hm) as [Hin Hmatch].
    by apply moduleMatches_spec in Hmatch.
  - intros e. by apply updateLoop_Throw.
Qed.

Lemma run_summaries_resolve_witness :
  Forall (fun s => exists m, getModule (vs_module s) exampleModules = Some m
                             /\ m ∈ exampleModules /\ refersTo (vs_module s) m)
         [ {| vs_module := "foo"; vs_version := Patch;
              vs_commits := [ {| cwt_commit := exampleCommit "fix(foo): a bug";
                                 cwt_tag := "fix" |} ] |} ].
Proof.
  exact (proj1 (run_summaries_resolve exampleRegExp
                  (fun commit => defaultParseCommitMessage commit exampleModules)
                  exampleModules exampleModules [exampleCommit "fix(foo): a bug"]
                  _ eq_refl)).
Defined.

Lemma updateStep_found (RegExp : RegExpConstructor)
    (oldModules modules : list WorkspaceModule)
    (updates : JsObject.t VersionUpdateResult) (summary : VersionBumpSummary)
    (module : WorkspaceModule) :
  getModule (vs_module summary) modules = Some module ->
  updateStep RegExp oldModules (modules, updates) summary =
  (versionUpdate <-
     applyVersionBump RegExp summary module (getModule (vs_module summary) oldModules) ;;
   Ok (setVersion (vs_module summary)
         (versionAfter module (getModule (vs_module summary) oldModules) versionUpdate)
         modules,
       assign (wm_name module) versionUpdate updates)).
Proof. unfold updateStep. by intros ->. Qed.

Lemma set_fresh {A} (key : string) (v : A) (o : JsObject.t A) :
  key ∉ map fst o -> JsObject.set key v o = o ++ [(key, v)].
Proof.
  induction o as [|[k w] o IH]; [done|]. simpl. intros Hk.
  rewrite decide_False by (intros ->; apply Hk; left).
  rewrite IH; [done|]. intros Hin. apply Hk. by right.
Qed.

Lemma updateLoop_distinct (RegExp : RegExpConstructor)
    (oldModules modules0 : list WorkspaceModule)
    (summaries : list VersionBumpSummary) (done_ : list string)
    (modules : list WorkspaceModule) (updates : JsObject.t VersionUpdateResult) :
  (forall module m, getModule module modules0 = Some m -> wm_name m ∉ done_ ->
                    getModule module modules = Some m) ->
  (forall module, getModule module modules0 = None -> getModule module modules = None) ->
  (forall key, key ∈ map fst updates -> key ∈ done_) ->
  NoDup (map (resolvedName modules0) summaries) ->
  Some "__proto__" ∉ map (resolvedName modules0) summaries ->
  (forall s, s ∈ summaries -> forall name, resolvedName modules0 s = Some name ->
             name ∉ done_) ->
  mapResult snd (updateLoop RegExp oldModules (modules, updates) summaries)
  = mapResult (app updates) (traverse (updateAlone RegExp oldModules modules0) summaries).
Proof.
  revert done_ modules updates.
  induction summaries as [|s summaries IH];
    intros done_ modules updates Hsome Hnone Hkeys Hnd Hproto Hfresh.
  - simpl. by rewrite app_nil_r.
  - simpl in Hnd, Hproto. apply NoDup_cons in Hnd as [Hs Hnd].
    apply not_elem_of_cons in Hproto as [Hp Hproto].
    simpl. unfold updateAlone at 1. unfold resolvedName in Hs, Hp, Hfresh.
    destruct (getModule (vs_module s) modules0) as [m|] eqn:Hm.
    + assert (wm_name m ∉ done_) as Hm_fresh.
      { apply (Hfresh s); [left|]. by rewrite Hm. }
      rewrite (Hsome _ _ Hm Hm_fresh).
      destruct (applyVersionBump RegExp s m (getModule (vs_module s) oldModules)) as [r|e];
        simpl; [|done].
      unfold assign. rewrite decide_False by (intros Heq; apply Hp; simpl; by rewrite Heq).
      rewrite set_fresh by (intros Hin; by apply Hm_fresh, Hkeys).
      rewrite (IH (wm_name m :: done_)); try done.
      * destruct (traverse (updateAlone RegExp oldModules modules0) summaries); simpl; [|done].
        by rewrite <-app_assoc.
      * intros module m' Hm' Hfresh'. apply not_elem_of_cons in Hfresh' as [Hne Hfresh'].
        rewrite getModule_setVersion, (Hsome _ _ Hm' Hfresh'), (Hsome _ _ Hm Hm_fresh).
        simpl. by rewrite decide_False by congruence.
      * intros module Hnone'. by rewrite getModule_setVersion, (Hnone _ Hnone').
      * intros key. rewrite map_app. simpl.
        intros [Hin| ->%list_elem_of_singleton]%elem_of_app; [right; by apply Hkeys|left].
      * intros s' Hs' name Hname. apply not_elem_of_cons. split.
        -- intros ->. apply Hs. simpl. rewrite <-Hname. by apply list_elem_of_fmap_2.
        -- apply (Hfresh s'); [by right|done].
    + rewrite (Hnone _ Hm). done.
Qed.

(** X19.  When the summaries resolve to modules that differ from one another
    and none of which is named [__proto__], the update loop fills the
    dictionary [updates], in the order of the summaries, with what
    [applyVersionBump] returns for each summary and its module as they were
    before the loop, under the name of the module; it throws what the first
    failing of these calls throws. *)
Theorem distinct_modules_update_independently
    (RegExp : RegExpConstructor) (oldModules modules : list WorkspaceModule) (summaries : list VersionBumpSummary) :
  NoDup (map (resolvedName modules) summaries) ->
  Some "__proto__" ∉ map (resolvedName modules) summaries ->
  mapResult snd (updateLoop RegExp oldModules (modules, []) summaries)
  = traverse (updateAlone RegExp oldModules modules) summaries.
Proof.
  intros Hnd Hproto.
  etrans; [apply (updateLoop_distinct RegExp oldModules modules summaries [] modules [])|].
  - done.
  - done.
  - intros key Hkey. simpl in Hkey. by apply elem_of_nil in Hkey.
  - done.
  - done.
  - intros s _ name _. apply not_elem_of_nil.
  - by destruct (traverse (updateAlone RegExp oldModules modules) summaries).
Qed.

Lemma distinct_modules_update_independently_witness :
  let modules :=
    [ {| wm_name := "@scope/foo"; wm_version := "1.2.3"; wm_path := "foo/deno.json" |};
      {| wm_name := "@scope/bar"; wm_version := "0.2.0"; wm_path := "bar/deno.json" |} ] in
  let summaries :=
    [ {| vs_module := "bar"; vs_version := Major; vs_commits := [] |};
      {| vs_module := "foo"; vs_version := Patch; vs_commits := [] |} ] in
  mapResult (fun state => map (fun '(name, r) => (name, r_from r, r_to r, r_diff r))
                              (snd state))
    (updateLoop exampleRegExp modules (modules, []) summaries)
  = Ok [ ("@scope/bar", "0.2.0", "0.3.0", Minor);
         ("@scope/foo", "1.2.3", "1.2.4", Patch) ].
Proof.
  intros modules summaries.
  assert (NoDup (map (resolvedName modules) summaries)) as Hnd
    by (apply (bool_decide_unpack _); by vm_compute).
  assert (Some "__proto__" ∉ map (resolvedName modules) summaries) as Hproto
    by (apply (bool_decide_unpack _); by vm_compute).
  pose proof (distinct_modules_update_independently exampleRegExp modules modules summaries Hnd
                Hproto)
    as H.
  destruct (updateLoop exampleRegExp modules (modules, []) summaries) as [[mods updates]|e];
    simpl in H |- *.
  - injection H as ->. reflexivity.
  - discriminate H.
Defined.

(** X20.  When two summaries resolve to the same module, whose version was
    not edited, the second is reconciled against the version that the first
    has just assigned: the bump of the first is taken for a manual edit.
    The one entry of the module in [updates] then goes from the old version
    to the bumped one with the magnitude that [calcVersionDiff] gives, and
    it carries the commits of the second summary only. *)
Theorem aliased_references_are_reconciled_twice
    (RegExp : RegExpConstructor) (oldModules modules : list WorkspaceModule) (s1 s2 : VersionBumpSummary)
    (m o : WorkspaceModule) (r1 : VersionUpdateResult) :
  getModule (vs_module s1) modules = Some m ->
  getModule (vs_module s2) modules = Some m ->
  getModule (vs_module s1) oldModules = Some o ->
  getModule (vs_module s2) oldModules = Some o ->
  wm_version o = wm_version m ->
  applyVersionBump RegExp s1 m (Some o) = Ok r1 ->
  r_to r1 <> wm_version m ->
  wm_name m <> "__proto__" ->
  mapResult snd (updateLoop RegExp oldModules (modules, []) [s1; s2])
  = (diff <- calcVersionDiff (r_to r1) (wm_version m) ;;
     Ok [ (wm_name m,
           {| r_from := wm_version m; r_to := r_to r1; r_diff := diff;
              r_summary := withVersion s2 diff; r_path := wm_path m |}) ]).
Proof.
  intros Hm1 Hm2 Ho1 Ho2 Hv Hr1 Hne Hproto.
  change (updateLoop RegExp oldModules (modules, []) [s1; s2])
    with (state' <- updateStep RegExp oldModules (modules, []) s1 ;;
          state'' <- updateStep RegExp oldModules state' s2 ;; Ok state'').
  rewrite (updateStep_found _ _ _ _ _ _ Hm1), Ho1, Hr1. cbn [bind].
  assert (versionAfter m (Some o) r1 = r_to r1) as ->.
  { unfold versionAfter. by rewrite decide_False by (intros H; by apply H). }
  set (m' := {| wm_name := wm_name m; wm_version := r_to r1; wm_path := wm_path m |}).
  assert (getModule (vs_module s2) (setVersion (vs_module s1) (r_to r1) modules) = Some m')
    as Hm2'.
  { rewrite getModule_setVersion, Hm2, Hm1. cbn [option_map]. by rewrite decide_True. }
  rewrite (updateStep_found _ _ _ _ _ _ Hm2'), Ho2.
  rewrite applyVersionBump_manual by (unfold m'; cbn [wm_version]; congruence).
  unfold m' at 1 2. cbn [wm_version]. rewrite Hv.
  destruct (calcVersionDiff (r_to r1) (wm_version m)) as [diff|e]; [|done].
  unfold resolution. cbn [bind mapResult snd]. f_equal.
  unfold assign. rewrite !decide_False by done.
  cbn [JsObject.set]. by rewrite decide_True.
Qed.

Lemma aliased_references_are_reconciled_twice_witness :
  let modules :=
    [ {| wm_name := "@scope/foo"; wm_version := "1.2.3"; wm_path := "foo/deno.json" |} ] in
  let commit subject tag := {| cwt_commit := exampleCommit subject; cwt_tag := tag |} in
  let s1 := {| vs_module := "@scope/foo"; vs_version := Major;
               vs_commits := [commit "BREAKING(@scope/foo): one" "BREAKING"] |} in
  let s2 := {| vs_module := "foo"; vs_version := Patch;
               vs_commits := [commit "fix(foo): two" "fix"] |} in
  mapResult snd (updateLoop exampleRegExp modules (modules, []) [s1; s2])
  = Ok [ ("@scope/foo",
          {| r_from := "1.2.3"; r_to := "2.0.0"; r_diff := Major;
             r_summary := {| vs_module := "foo"; vs_version := Major;
                             vs_commits := [commit "fix(foo): two" "fix"] |};
             r_path := "foo/deno.json" |}) ].
Proof.
  intros modules commit s1 s2.
  refine (aliased_references_are_reconciled_twice exampleRegExp modules modules s1 s2
            {| wm_name := "@scope/foo"; wm_version := "1.2.3"; wm_path := "foo/deno.json" |}
            {| wm_name := "@scope/foo"; wm_version := "1.2.3"; wm_path := "foo/deno.json" |}
            _ eq_refl eq_refl eq_refl eq_refl eq_refl eq_refl _ _); by vm_compute.
Defined.

(** ** More bumps *)

Lemma maxSeverity_app (l l' : list VersionValue) :
  severityRank (maxSeverity l) <= severityRank (maxSeverity (l ++ l')).
Proof.
  unfold maxSeverity.
  repeat case_bool_decide; simpl; try lia;
    exfalso; match goal with H : _ ∉ _ ++ _ |- _ => apply H, elem_of_app; by left end.
Qed.

(** X21.  Further bumps never lower a severity: when the aggregator returns
    for a list of bumps and for that list followed by more bumps, every
    module of the first output is in the second with a severity that is at
    least as high. *)
Theorem more_bumps_never_lower_severity
    (bumps more : list VersionBump) (out out' : list VersionBumpSummary) :
  summarizeVersionBumpsByModule bumps = Ok out ->
  summarizeVersionBumpsByModule (bumps ++ more) = Ok out' ->
  forall s, s ∈ out ->
    exists s', s' ∈ out' /\ vs_module s' = vs_module s
               /\ severityRank (vs_version s) <= severityRank (vs_version s').
Proof.
  intros Hout Hout' s Hs.
  destruct (summarize_Ok _ (summarize_Ok_inv _ _ Hout)) as (o & Ho & Heq & _ & Hmem).
  rewrite Hout in Ho. injection Ho as <-.
  destruct (summarize_Ok _ (summarize_Ok_inv _ _ Hout')) as (o' & Ho' & Heq' & _ & Hmem').
  rewrite Hout' in Ho'. injection Ho' as <-.
  rewrite Heq in Hs. apply list_elem_of_fmap in Hs as (k & -> & Hk).
  exists (finalSummary (bumps ++ more) k). split; [|split; [done|]].
  - rewrite Heq'. apply list_elem_of_fmap_2, Hmem'.
    apply Hmem in Hk. rewrite map_app. apply elem_of_app. by left.
  - simpl. unfold bumpsOf. rewrite filter_app, map_app. apply maxSeverity_app.
Qed.

Lemma more_bumps_never_lower_severity_witness :
  exists s', s' ∈ [ {| vs_module := "foo"; vs_version := Minor;
                       vs_commits := [ {| cwt_commit := exampleCommit "two"; cwt_tag := "feat" |};
                                       {| cwt_commit := exampleCommit "one"; cwt_tag := "fix" |} ] |} ]
             /\ vs_module s' = "foo"
             /\ severityRank Patch <= severityRank (vs_version s').
Proof.
  refine (more_bumps_never_lower_severity
            [exampleBump "foo" "fix" Patch "one"] [exampleBump "foo" "feat" Minor "two"]
            _ _ eq_refl eq_refl
            {| vs_module := "foo"; vs_version := Patch;
               vs_commits := [ {| cwt_commit := exampleCommit "one"; cwt_tag := "fix" |} ] |}
            _).
  left.
Defined.

(** ** The release note *)

Lemma traverse_Ok {A B} (f : A -> result B) (l : list A) :
  Forall (fun x => exists y, f x = Ok y) l <-> exists ys, traverse f l = Ok ys.
Proof.
  induction l as [|x l IH]; simpl.
  - split; [by eexists|by constructor].
  - rewrite Forall_cons, IH. split.
    + intros [[y ->] [ys ->]]. by eexists.
    + destruct (f x) as [y|e]; simpl; [|by intros [? [=]]].
      destruct (traverse f l) as [ys|e]; simpl; [|by intros [? [=]]].
      intros _. split; by eexists.
Qed.

Lemma releaseNoteSection_Ok (modules : list WorkspaceModule) (u : VersionUpdateResult) :
  (exists text, releaseNoteSection modules u = Ok text)
  <-> is_Some (getModule (vs_module (r_summary u)) modules).
Proof.
  unfold releaseNoteSection.
  destruct (getModule (vs_module (r_summary u)) modules) as [m|]; split.
  - by eexists.
  - by eexists.
  - by intros [? [=]].
  - by intros [? [=]].
Qed.

Lemma Forall_set {A} (P : string * A -> Prop) (key : string) (v : A) (o : JsObject.t A) :
  (forall k, P (k, v)) -> Forall P o -> Forall P (JsObject.set key v o).
Proof.
  intros Hv. induction 1 as [|[k w] o Hk Ho IH]; simpl.
  - by apply Forall_singleton.
  - destruct (decide (k = key)); apply Forall_cons; by split.
Qed.

Lemma applyVersionBump_module (RegExp : RegExpConstructor)
    (summary : VersionBumpSummary) (module : WorkspaceModule)
    (oldModule : option WorkspaceModule) (r : VersionUpdateResult) :
  applyVersionBump RegExp summary module oldModule = Ok r ->
  vs_module (r_summary r) = vs_module summary.
Proof.
  unfold applyVersionBump. destruct oldModule as [oldModule|]; simpl.
  - destruct (decide (wm_version oldModule <> wm_version module)).
    + destruct (calcVersionDiff _ _); simpl; [|done]. by intros [= <-].
    + destruct (SemVer.parse _); simpl; [|done].
      destruct (RegExp _); [done|]. by intros [= <-].
  - destruct (calcVersionDiff _ _); simpl; [|done]. by intros [= <-].
Qed.

Lemma updateLoop_Ok (RegExp : RegExpConstructor)
    (oldModules : list WorkspaceModule) (summaries : list VersionBumpSummary)
    (modules modules' : list WorkspaceModule)
    (updates updates' : JsObject.t VersionUpdateResult) :
  Forall (fun s => is_Some (getModule (vs_module s) modules)) summaries ->
  Forall (fun kv => is_Some (getModule (vs_module (r_summary (snd kv))) modules)) updates ->
  updateLoop RegExp oldModules (modules, updates) summaries = Ok (modules', updates') ->
  Forall (fun kv => is_Some (getModule (vs_module (r_summary (snd kv))) modules')) updates'.
Proof.
  revert modules updates.
  induction summaries as [|s summaries IH]; intros modules updates Hall Hupd; simpl.
  - by intros [= <- <-].
  - apply Forall_cons in Hall as [[m Hm] Hall]. rewrite Hm.
    destruct (applyVersionBump RegExp s m (getModule (vs_module s) oldModules)) as [r|e] eqn:Hr;
      simpl; [|done].
    apply IH.
    + apply (Forall_impl _ _ _ Hall). intros s'. apply getModule_setVersion_is_Some.
    + assert (Forall (fun kv => is_Some (getModule (vs_module (r_summary (snd kv)))
                (setVersion (vs_module s)
                   (versionAfter m (getModule (vs_module s) oldModules) r) modules)))
                updates) as Hupd'.
      { apply (Forall_impl _ _ _ Hupd). intros kv. apply getModule_setVersion_is_Some. }
      unfold assign. destruct (decide (wm_name m = "__proto__")); [done|].
      apply Forall_set; [|done]. intros k. simpl.
      rewrite (applyVersionBump_module _ _ _ _ _ Hr).
      apply getModule_setVersion_is_Some. by rewrite Hm.
Qed.

(** X22.  [createReleaseNote] returns exactly when the summary of every
    update refers to a module that resolves, and the note then starts with
    the heading of the release title.  In a run whose update loop has
    returned, it returns for the values of [updates] and the modules as the
    loop has left them. *)
Theorem release_note_is_written
    (RegExp : RegExpConstructor) (parseCommitMessage : Commit -> ParseResult)
    (modules oldModules : list WorkspaceModule) (commits : list Commit)
    (summaries : list VersionBumpSummary) (date : Date) :
  (forall updates modules',
     (exists body,
        createReleaseNote updates modules' date =
        Ok ("### " +:+ createReleaseTitle date
            +:+ String GitLog.LF (String GitLog.LF EmptyString) +:+ body))
     <-> Forall (fun u => is_Some (getModule (vs_module (r_summary u)) modules')) updates)
  /\ (summarizeVersionBumpsByModule (fst (collect parseCommitMessage modules commits))
        = Ok summaries ->
      forall modules' updates,
        updateLoop RegExp oldModules (modules, []) summaries = Ok (modules', updates) ->
        exists note, createReleaseNote (JsObject.values updates) modules' date = Ok note).
Proof.
  assert (forall updates modules',
            (exists body,
               createReleaseNote updates modules' date =
               Ok ("### " +:+ createReleaseTitle date
                   +:+ String GitLog.LF (String GitLog.LF EmptyString) +:+ body))
            <-> Forall (fun u => is_Some (getModule (vs_module (r_summary u)) modules'))
                       updates) as Hnote.
  { intros updates modules'. unfold createReleaseNote. split.
    - intros [body Hbody].
      assert (exists sections, traverse (releaseNoteSection modules') updates = Ok sections)
        as Hsections.
      { destruct (traverse (releaseNoteSection modules') updates); [by eexists|done]. }
      apply traverse_Ok in Hsections. apply (Forall_impl _ _ _ Hsections).
      intros u. apply releaseNoteSection_Ok.
    - intros Hall.
      assert (Forall (fun u => exists text, releaseNoteSection modules' u = Ok text) updates)
        as Hsections.
      { apply (Forall_impl _ _ _ Hall). intros u. apply releaseNoteSection_Ok. }
      apply traverse_Ok in Hsections as [sections ->]. simpl.
      exists (JsString.join (String GitLog.LF EmptyString) sections).
      by rewrite !append_assoc. }
  split; [done|].
  intros Hout modules' updates Hloop.
  destruct (summarize_Ok _ (summarize_Ok_inv _ _ Hout)) as (out & Hout' & _ & _ & Hmem).
  rewrite Hout in Hout'. injection Hout' as <-.
  assert (Forall (fun s => is_Some (getModule (vs_module s) modules)) summaries) as Hres.
  { apply Forall_forall. intros s Hs.
    assert (vs_module s ∈ map vs_module summaries) as Hm by by apply list_elem_of_fmap_2.
    apply Hmem in Hm. apply list_elem_of_fmap in Hm as (b & Hb & Hin).
    rewrite collect_spec in Hin. simpl in Hin.
    apply list_elem_of_filter in Hin as [Hr _]. by rewrite Hb. }
  pose proof (updateLoop_Ok _ _ _ _ _ _ _ Hres (Forall_nil_2 _) Hloop) as Hupd.
  destruct (proj2 (Hnote (JsObject.values updates) modules')) as [body Hbody].
  - rewrite values_Permutation. by apply Forall_fmap.
  - by eexists.
Qed.

Lemma release_note_is_written_witness :
  exists note,
    createReleaseNote
      [ {| r_from := "0.0.0"; r_to := "0.0.1"; r_diff := Patch;
           r_summary := {| vs_module := "foo"; vs_version := Patch;
                           vs_commits := [ {| cwt_commit := exampleCommit "fix(foo): a bug";
                                              cwt_tag := "fix" |} ] |};
           r_path := EmptyString |} ]
      [ {| wm_name := "foo"; wm_version := "0.0.1"; wm_path := EmptyString |};
        {| wm_name := "bar"; wm_version := "0.0.0"; wm_path := EmptyString |} ]
      {| getUTCFullYear := 1970; getUTCMonth := 0; getUTCDate := 1 |}
    = Ok note.
Proof.
  exact (proj2 (release_note_is_written exampleRegExp
                  (fun commit => defaultParseCommitMessage commit exampleModules)
                  exampleModules exampleModules [exampleCommit "fix(foo): a bug"]
                  _ {| getUTCFullYear := 1970; getUTCMonth := 0; getUTCDate := 1 |})
               eq_refl _ _ eq_refl).
Defined.
